(** * NexTask: the task store of [vitereact/src/store/main.tsx]

    A shallow embedding of the zustand store that holds the to-do list: its
    state, and the actions [set_task_input_description],
    [clear_error_message], [load_tasks_from_local_storage], [add_new_task],
    [toggle_task_completion] and [delete_task], as state-passing functions
    that can throw. Around them, the pieces of the JavaScript platform the
    actions call: strings as sequences of UTF-16 code units,
    [String.prototype.trim], Numbers as doubles, [JSON.stringify],
    [JSON.parse], [localStorage], [setTimeout], [console.error] and
    [Date.now()], which is an argument of [add_new_task].

    The store is created inside zustand's [persist] middleware, so the [set]
    its actions call is the one the middleware hands them: after the state
    is updated, the part of it that [partialize] selects is written to the
    storage item [nex_task_store], and an exception of that write is thrown
    on to the caller of [set]. The development has this [set]. It is about
    the store once it exists, in whatever state: what the middleware does
    while the store is created (reading its item back, the callbacks of
    [onRehydrateStorage]) is not part of it. Of the page it has the effect
    of [App] that loads the tasks and the choice [UV_TaskManagement] makes
    between its three views. *)

From Stdlib Require Import ZArith NArith String Ascii.
From Stdlib Require Import DecimalString DecimalPos DecimalZ.
From stdpp Require Import base option list gmap.

Local Open Scope N_scope.

(** ** JavaScript strings *)

(** A JavaScript string is a sequence of 16-bit code units, numbers below
    65536; [length] counts code units and [===] compares them one by one. *)
Definition code_unit : Set := N.
Definition jsstring : Set := list code_unit.

(** The code units of a literal of the source (all of them are ASCII). *)
Definition str (s : string) : jsstring :=
  map N_of_ascii (list_ascii_of_string s).

Definition ch (a : ascii) : code_unit := N_of_ascii a.

(** Truthiness of a string: only the empty string is falsy. *)
Definition nonempty (s : jsstring) : bool :=
  match s with [] => false | _ :: _ => true end.

(** *** [String.prototype.trim] *)

(** WhiteSpace and LineTerminator code points of ECMAScript. *)
Definition is_white_space (c : code_unit) : bool :=
  (c =? 0x0009) || (c =? 0x000A) || (c =? 0x000B) || (c =? 0x000C)
  || (c =? 0x000D) || (c =? 0x0020) || (c =? 0x00A0) || (c =? 0x1680)
  || ((0x2000 <=? c) && (c <=? 0x200A))
  || (c =? 0x2028) || (c =? 0x2029) || (c =? 0x202F) || (c =? 0x205F)
  || (c =? 0x3000) || (c =? 0xFEFF).

Fixpoint trim_start (s : jsstring) : jsstring :=
  match s with
  | c :: r => if is_white_space c then trim_start r else s
  | [] => []
  end.

Definition trim_end (s : jsstring) : jsstring := rev (trim_start (rev s)).

Definition trim (s : jsstring) : jsstring := trim_end (trim_start s).

(** *** Decimal digits *)

Definition is_digit (c : code_unit) : bool := (0x30 <=? c) && (c <=? 0x39).

(** The number a run of decimal digits denotes. *)
Definition digits_value (ds : jsstring) : Z :=
  fold_left (λ v c, 10 * v + Z.of_N (c - 0x30))%Z ds 0%Z.

(** *** [Number.prototype.toString] on integers *)

(** Decimal digits, with a leading minus sign for negative numbers; this is
    what [toString] gives for every integer below 10^21 in absolute value,
    which covers [Date.now()] and the constants of the store. *)
Definition number_to_string (n : Z) : jsstring :=
  str (NilZero.string_of_int (Z.to_int n)).

(** ** Numbers *)

(** The Number values [JSON.parse] can give: a double
    [(-1)^negative * mantissa * 2^exponent], or an infinity, for a literal
    beyond the range of the doubles. A finite value is kept in the standard
    form of IEEE 754 binary64: the mantissa is below 2^53, the exponent is
    between -1074 and 971, and the mantissa is at least 2^52 unless the
    exponent is -1074. Zero has mantissa 0 and keeps its sign. *)
Inductive number : Set :=
| Finite (negative : bool) (mantissa : N) (exponent : Z)
| Infinite (negative : bool).

#[export] Instance number_eq_dec : EqDecision number.
Proof. solve_decision. Defined.

Definition zero : number := Finite false 0 (-1074).

Section Rounding.
Local Open Scope Z_scope.

(** [n / d] rounded to the nearest integer, a tie going to the even one
    ([0 <= n], [0 < d]). *)
Definition round_half_even (n d : Z) : Z :=
  let q := n / d in
  let r := n mod d in
  if 2 * r <? d then q
  else if d <? 2 * r then q + 1
  else if Z.even q then q else q + 1.

(** [n / d] against [2^k], and [n / (d * 2^e)] rounded. *)
Definition at_least_pow2 (n d k : Z) : bool :=
  if 0 <=? k then d * 2 ^ k <=? n else d <=? n * 2 ^ (- k).

Definition round_scaled (n d e : Z) : Z :=
  if 0 <=? e then round_half_even n (d * 2 ^ e)
  else round_half_even (n * 2 ^ (- e)) d.

(** The Number value of the rational [n / d] ([0 <= n], [0 < d]): the
    nearest double, ties to even, or an infinity when that is 2^1024 or
    more. *)
Definition number_of_rational (negative : bool) (n d : Z) : number :=
  if n =? 0 then Finite negative 0 (-1074)
  else
    let l := Z.log2 n - Z.log2 d in
    let k := if at_least_pow2 n d l then l else l - 1 in
    let e := Z.max (k - 52) (-1074) in
    let m := round_scaled n d e in
    let '(m, e) := if m =? 2 ^ 53 then (2 ^ 52, e + 1) else (m, e) in
    if 971 <? e then Infinite negative else Finite negative (Z.to_N m) e.

(** The Number value of [digits * 10^exponent10] ([0 <= digits]). The first
    three cases spare the computation of a large power of ten: zero; a value
    of 10^309 or more, beyond the doubles; and a value below
    [2^(log2 digits + 1) * 10^exponent10 <= 10^-324], less than half the
    least positive double. *)
Definition number_of_decimal (negative : bool) (digits exponent10 : Z)
  : number :=
  if digits =? 0 then Finite negative 0 (-1074)
  else if 309 <=? exponent10 then Infinite negative
  else if exponent10 + Z.log2 digits + 1 <=? -324
  then Finite negative 0 (-1074)
  else if 0 <=? exponent10
  then number_of_rational negative (digits * 10 ^ exponent10) 1
  else number_of_rational negative digits (10 ^ (- exponent10)).

(** *** [Number::toString] *)

(** [n / d < 10^p]. *)
Definition below_pow10 (n d p : Z) : bool :=
  if 0 <=? p then n <? d * 10 ^ p else n * 10 ^ (- p) <? d.

(** The least [p] from [from] on with [n / d < 10^p]. *)
Fixpoint magnitude (fuel : nat) (n d from : Z) : Z :=
  match fuel with
  | O => from
  | S fuel => if below_pow10 n d from then from else magnitude fuel n d (from + 1)
  end.

(** The decimal [s * 10^p] with [k] digits that is nearest to [n / d], among
    those whose Number value is [x]: [s] is the integer below [n / (d * 10^p)]
    or the one above. *)
Definition nearest_digits (x : number) (n d p : Z) : option Z :=
  let '(num, den) := if 0 <=? p then (n, d * 10 ^ p)
                     else (n * 10 ^ (- p), d) in
  let low := num / den in
  let r := num mod den in
  let reads_back (s : Z) := bool_decide (number_of_decimal false s p = x) in
  match reads_back low, reads_back (low + 1) with
  | true, true =>
      if 2 * r <? den then Some low
      else if den <? 2 * r then Some (low + 1)
      else if Z.even low then Some low else Some (low + 1)
  | true, false => Some low
  | false, true => Some (low + 1)
  | false, false => None
  end.

(** The integers [s], [k] and [n] of [Number::toString]: [s] has [k] digits,
    [k] is as small as possible, and the Number value of [s * 10^(n - k)] is
    the given one, [m * 2^e]. *)
Fixpoint shortest (fuel : nat) (x : number) (n d magn k : Z) : Z * Z * Z :=
  match fuel with
  | O => (0, 1, 1)
  | S fuel =>
      match nearest_digits x n d (magn - k) with
      | Some s =>
          if s =? 10 ^ k then (10 ^ (k - 1), k, magn + 1) else (s, k, magn)
      | None => shortest fuel x n d magn (k + 1)
      end
  end.

End Rounding.

Definition zeros (n : Z) : jsstring := replicate (Z.to_nat n) (ch "0").

(** [Number::toString] with radix 10, and what [JSON.stringify] writes for a
    Number: [null] when it is not finite. *)
Definition Number_toString (x : number) : jsstring :=
  match x with
  | Infinite negative =>
      (if negative then [ch "-"] else []) ++ str "Infinity"
  | Finite _ 0 _ => str "0"
  | Finite negative m e =>
      let '(n, d) := if (0 <=? e)%Z then (Z.of_N m * 2 ^ e, 1)%Z
                     else (Z.of_N m, 2 ^ (- e))%Z in
      let magn := magnitude 640 n d (-324) in
      let '(s, k, n) := shortest 17 (Finite false m e) n d magn 1 in
      let ds := number_to_string s in
      (if negative then [ch "-"] else [])
      ++ (if (k <=? n)%Z && (n <=? 21)%Z then ds ++ zeros (n - k)
          else if (0 <? n)%Z && (n <=? 21)%Z
          then take (Z.to_nat n) ds ++ ch "." :: drop (Z.to_nat n) ds
          else if (-6 <? n)%Z && (n <=? 0)%Z
          then str "0." ++ zeros (- n) ++ ds
          else
            (if (k =? 1)%Z then ds else take 1 ds ++ ch "." :: drop 1 ds)
            ++ ch "e" :: (if (n - 1 <? 0)%Z then ch "-" else ch "+")
            :: number_to_string (Z.abs (n - 1)))
  end.

(** ** JSON values *)

(** The values [JSON.parse] can produce. An object keeps its properties in
    the order in which JavaScript lists them: see [obj_set]. *)
#[local] Unset Elimination Schemes.
Inductive json : Set :=
| JNull
| JBool (b : bool)
| JNum (n : number)
| JStr (s : jsstring)
| JArr (elems : list json)
| JObj (members : list (jsstring * json)).
#[local] Set Elimination Schemes.

(** Reading an own property of an object. *)
Fixpoint obj_get (k : jsstring) (ms : list (jsstring * json)) : option json :=
  match ms with
  | [] => None
  | (k', v) :: r => if bool_decide (k' = k) then Some v else obj_get k r
  end.

(** A property name that is an array index: the canonical decimal text of an
    integer below 2^32 - 1. *)
Definition array_index (k : jsstring) : option Z :=
  match k with
  | [] => None
  | c :: r =>
      if forallb is_digit k
         && (negb (c =? ch "0") || match r with [] => true | _ => false end)
         && (digits_value k <? 2 ^ 32 - 1)%Z
      then Some (digits_value k)
      else None
  end.

(** The place of a new property [k] is before the property [k']: array
    indices come first, in ascending order; the other names follow in the
    order in which they were added. *)
Definition comes_before (k k' : jsstring) : bool :=
  match array_index k, array_index k' with
  | Some i, Some j => (i <? j)%Z
  | Some _, None => true
  | None, _ => false
  end.

(** Defining a property: an existing key keeps its position and takes the new
    value, a new key goes to its place. *)
Fixpoint obj_set (k : jsstring) (v : json) (ms : list (jsstring * json))
  : list (jsstring * json) :=
  match ms with
  | [] => [(k, v)]
  | (k', v') :: r =>
      if bool_decide (k' = k) then (k, v) :: r
      else if comes_before k k' then (k, v) :: (k', v') :: r
      else (k', v') :: obj_set k v r
  end.

(** *** [JSON.stringify] *)

Definition quotation_mark : code_unit := 0x22.
Definition reverse_solidus : code_unit := 0x5C.

Definition hex_digit (d : N) : code_unit :=
  if d <? 10 then 0x30 + d else 0x57 + d.

(** [\uXXXX] with lower-case hexadecimal digits. *)
Definition unicode_escape (c : code_unit) : jsstring :=
  [reverse_solidus; ch "u";
   hex_digit (c / 4096 mod 16); hex_digit (c / 256 mod 16);
   hex_digit (c / 16 mod 16); hex_digit (c mod 16)].

Definition is_high_surrogate (c : code_unit) : bool :=
  (0xD800 <=? c) && (c <=? 0xDBFF).
Definition is_low_surrogate (c : code_unit) : bool :=
  (0xDC00 <=? c) && (c <=? 0xDFFF).

(** A code unit that is not a surrogate. *)
Definition escape_unit (c : code_unit) : jsstring :=
  if c =? 0x08 then [reverse_solidus; ch "b"]
  else if c =? 0x09 then [reverse_solidus; ch "t"]
  else if c =? 0x0A then [reverse_solidus; ch "n"]
  else if c =? 0x0C then [reverse_solidus; ch "f"]
  else if c =? 0x0D then [reverse_solidus; ch "r"]
  else if c =? quotation_mark then [reverse_solidus; quotation_mark]
  else if c =? reverse_solidus then [reverse_solidus; reverse_solidus]
  else if c <? 0x20 then unicode_escape c
  else [c].

(** QuoteJSONString, without the surrounding quotation marks: a surrogate pair
    is copied, a lone surrogate is written as a [\u] escape. *)
Fixpoint quote_units (s : jsstring) : jsstring :=
  match s with
  | [] => []
  | c :: r =>
      if is_high_surrogate c then
        match r with
        | l :: r' =>
            if is_low_surrogate l then c :: l :: quote_units r'
            else unicode_escape c ++ quote_units r
        | [] => unicode_escape c
        end
      else if is_low_surrogate c then unicode_escape c ++ quote_units r
      else escape_unit c ++ quote_units r
  end.

Definition quote (s : jsstring) : jsstring :=
  quotation_mark :: quote_units s ++ [quotation_mark].

(** [JSON.stringify] with no replacer and no indentation. *)
Fixpoint JSON_stringify (v : json) : jsstring :=
  match v with
  | JNull => str "null"
  | JBool true => str "true"
  | JBool false => str "false"
  | JNum (Infinite _) => str "null"
  | JNum n => Number_toString n
  | JStr s => quote s
  | JArr elems =>
      ch "[" ::
      (fix items (l : list json) : jsstring :=
         match l with
         | [] => []
         | [x] => JSON_stringify x
         | x :: r => JSON_stringify x ++ ch "," :: items r
         end) elems
      ++ [ch "]"]
  | JObj members =>
      ch "{" ::
      (fix props (l : list (jsstring * json)) : jsstring :=
         match l with
         | [] => []
         | [(k, x)] => quote k ++ ch ":" :: JSON_stringify x
         | (k, x) :: r => quote k ++ ch ":" :: JSON_stringify x ++ ch "," :: props r
         end) members
      ++ [ch "}"]
  end.

(** *** [JSON.parse] *)

(** Outcome of a parsing function: a value and the input that follows it, a
    syntax error, or recursion budget exhausted (which [JSON_parse_budget]
    excludes for the budget [JSON_parse] gives). *)
Inductive parsed (A : Type) : Type :=
| Parsed (a : A) (rest : jsstring)
| Malformed
| OutOfFuel.
Arguments Parsed {A} a rest.
Arguments Malformed {A}.
Arguments OutOfFuel {A}.

Fixpoint strip_prefix (p s : jsstring) : option jsstring :=
  match p with
  | [] => Some s
  | a :: p' =>
      match s with
      | b :: s' => if a =? b then strip_prefix p' s' else None
      | [] => None
      end
  end.

(** JSON white space: tab, line feed, carriage return, space. *)
Definition is_json_ws (c : code_unit) : bool :=
  (c =? 0x09) || (c =? 0x0A) || (c =? 0x0D) || (c =? 0x20).

Fixpoint skip_ws (s : jsstring) : jsstring :=
  match s with
  | c :: r => if is_json_ws c then skip_ws r else s
  | [] => []
  end.

Definition hex_value (h : code_unit) : option N :=
  if (0x30 <=? h) && (h <=? 0x39) then Some (h - 0x30)
  else if (0x61 <=? h) && (h <=? 0x66) then Some (h - 0x57)
  else if (0x41 <=? h) && (h <=? 0x46) then Some (h - 0x37)
  else None.

Definition hex4 (h1 h2 h3 h4 : code_unit) : option code_unit :=
  match hex_value h1, hex_value h2, hex_value h3, hex_value h4 with
  | Some a, Some b, Some c, Some d => Some (a * 4096 + b * 256 + c * 16 + d)
  | _, _, _, _ => None
  end.

(** The character a single-letter escape stands for. *)
Definition simple_escape (e : code_unit) : option code_unit :=
  if e =? quotation_mark then Some quotation_mark
  else if e =? reverse_solidus then Some reverse_solidus
  else if e =? ch "/" then Some (ch "/")
  else if e =? ch "b" then Some 0x08
  else if e =? ch "f" then Some 0x0C
  else if e =? ch "n" then Some 0x0A
  else if e =? ch "r" then Some 0x0D
  else if e =? ch "t" then Some 0x09
  else None.

(** The characters of a string literal, after its opening quotation mark, up
    to and including the closing one. *)
Fixpoint parse_chars (s : jsstring) : option (jsstring * jsstring) :=
  match s with
  | [] => None
  | c :: r =>
      if c =? quotation_mark then Some ([], r)
      else if c =? reverse_solidus then
        match r with
        | [] => None
        | e :: r1 =>
            if e =? ch "u" then
              match r1 with
              | h1 :: h2 :: h3 :: h4 :: r2 =>
                  match hex4 h1 h2 h3 h4, parse_chars r2 with
                  | Some u, Some (cs, rest) => Some (u :: cs, rest)
                  | _, _ => None
                  end
              | _ => None
              end
            else
              match simple_escape e, parse_chars r1 with
              | Some u, Some (cs, rest) => Some (u :: cs, rest)
              | _, _ => None
              end
        end
      else if c <? 0x20 then None
      else
        match parse_chars r with
        | Some (cs, rest) => Some (c :: cs, rest)
        | None => None
        end
  end.

Fixpoint span_digits (s : jsstring) : jsstring * jsstring :=
  match s with
  | c :: r =>
      if is_digit c then let '(ds, rest) := span_digits r in (c :: ds, rest)
      else ([], s)
  | [] => ([], [])
  end.

(** Optional exponent part of a number; the result is the exponent. *)
Definition parse_exponent (s : jsstring) : option (Z * jsstring) :=
  match s with
  | e :: r =>
      if (e =? ch "e") || (e =? ch "E") then
        let '(negative, r1) :=
          match r with
          | g :: r' =>
              if g =? ch "-" then (true, r')
              else if g =? ch "+" then (false, r')
              else (false, r)
          | [] => (false, r)
          end in
        match span_digits r1 with
        | ([], _) => None
        | (ds, rest) =>
            Some (if negative then (- digits_value ds)%Z else digits_value ds,
                  rest)
        end
      else Some (0%Z, s)
  | [] => Some (0%Z, s)
  end.

(** Optional fraction part of a number; the result is its digits. *)
Definition parse_fraction (s : jsstring) : option (jsstring * jsstring) :=
  match s with
  | d :: r =>
      if d =? ch "." then
        match span_digits r with
        | ([], _) => None
        | (ds, rest) => Some (ds, rest)
        end
      else Some ([], s)
  | [] => Some ([], s)
  end.

(** A number literal; the result is its Number value. *)
Definition parse_number (s : jsstring) : option (number * jsstring) :=
  let '(negative, s1) :=
    match s with
    | c :: r => if c =? ch "-" then (true, r) else (false, s)
    | [] => (false, s)
    end in
  match s1 with
  | c :: r =>
      if is_digit c then
        let '(int, r1) := if c =? ch "0" then ([c], r)
                          else let '(ds, r') := span_digits r in (c :: ds, r') in
        match parse_fraction r1 with
        | Some (frac, r2) =>
            match parse_exponent r2 with
            | Some (exp, r3) =>
                Some (number_of_decimal negative
                        (digits_value (int ++ frac))
                        (exp - Z.of_nat (length frac)),
                      r3)
            | None => None
            end
        | None => None
        end
      else None
  | [] => None
  end.

(** Recursive descent over values, array elements and object members; every
    call costs one unit of [fuel]. *)
Fixpoint parse_value (fuel : nat) (s : jsstring) : parsed json :=
  match fuel with
  | O => OutOfFuel
  | S fuel =>
      match skip_ws s with
      | [] => Malformed
      | c :: r =>
          if c =? quotation_mark then
            match parse_chars r with
            | Some (cs, rest) => Parsed (JStr cs) rest
            | None => Malformed
            end
          else if c =? ch "[" then
            match skip_ws r with
            | c' :: r' =>
                if c' =? ch "]" then Parsed (JArr []) r'
                else
                  match parse_elements fuel r with
                  | Parsed l rest => Parsed (JArr l) rest
                  | Malformed => Malformed
                  | OutOfFuel => OutOfFuel
                  end
            | [] => Malformed
            end
          else if c =? ch "{" then
            match skip_ws r with
            | c' :: r' =>
                if c' =? ch "}" then Parsed (JObj []) r'
                else
                  match parse_members fuel [] r with
                  | Parsed ms rest => Parsed (JObj ms) rest
                  | Malformed => Malformed
                  | OutOfFuel => OutOfFuel
                  end
            | [] => Malformed
            end
          else if (c =? ch "-") || is_digit c then
            match parse_number (c :: r) with
            | Some (n, rest) => Parsed (JNum n) rest
            | None => Malformed
            end
          else
            match strip_prefix (str "null") (c :: r),
                  strip_prefix (str "true") (c :: r),
                  strip_prefix (str "false") (c :: r) with
            | Some rest, _, _ => Parsed JNull rest
            | _, Some rest, _ => Parsed (JBool true) rest
            | _, _, Some rest => Parsed (JBool false) rest
            | _, _, _ => Malformed
            end
      end
  end

with parse_elements (fuel : nat) (s : jsstring) : parsed (list json) :=
  match fuel with
  | O => OutOfFuel
  | S fuel =>
      match parse_value fuel s with
      | Parsed v r =>
          match skip_ws r with
          | c :: r' =>
              if c =? ch "," then
                match parse_elements fuel r' with
                | Parsed l rest => Parsed (v :: l) rest
                | Malformed => Malformed
                | OutOfFuel => OutOfFuel
                end
              else if c =? ch "]" then Parsed [v] r'
              else Malformed
          | [] => Malformed
          end
      | Malformed => Malformed
      | OutOfFuel => OutOfFuel
      end
  end

with parse_members (fuel : nat) (acc : list (jsstring * json)) (s : jsstring)
  : parsed (list (jsstring * json)) :=
  match fuel with
  | O => OutOfFuel
  | S fuel =>
      match skip_ws s with
      | q :: r =>
          if q =? quotation_mark then
            match parse_chars r with
            | Some (k, r1) =>
                match skip_ws r1 with
                | c :: r2 =>
                    if c =? ch ":" then
                      match parse_value fuel r2 with
                      | Parsed v r3 =>
                          match skip_ws r3 with
                          | c' :: r4 =>
                              if c' =? ch "," then
                                parse_members fuel (obj_set k v acc) r4
                              else if c' =? ch "}" then
                                Parsed (obj_set k v acc) r4
                              else Malformed
                          | [] => Malformed
                          end
                      | Malformed => Malformed
                      | OutOfFuel => OutOfFuel
                      end
                    else Malformed
                | [] => Malformed
                end
            | None => Malformed
            end
          else Malformed
      | [] => Malformed
      end
  end.

(** [JSON.parse]: one value surrounded by optional white space; [None] stands
    for the [SyntaxError] it throws. *)
Definition JSON_parse (s : jsstring) : option json :=
  match parse_value (2 * length s + 2) s with
  | Parsed v rest =>
      match skip_ws rest with
      | [] => Some v
      | _ :: _ => None
      end
  | Malformed | OutOfFuel => None
  end.

(** ** The state of the store *)

(** [interface Task]. *)
Record Task : Set := {
  id : jsstring;
  description : jsstring;
  completed : bool;
}.

(** The object a [Task] is at run time, with its properties in the order in
    which [add_new_task] writes them. *)
Definition json_of_task (t : Task) : json :=
  JObj [(str "id", JStr (id t));
        (str "description", JStr (description t));
        (str "completed", JBool (completed t))].

Inductive status : Set := initialized | local_storage_unavailable | error.

(** [interface AppState]. The declared type of [tasks_list] is [Task[]], but
    [load_tasks_from_local_storage] stores whatever array [JSON.parse] gives,
    so the field holds JSON values. *)
Record AppState : Set := {
  app_status : status;
  has_persisted_data : bool;
  task_input_description : jsstring;
  tasks_list : list json;
  is_loading_tasks : bool;
  error_message : option jsstring;
}.

(** One property of the partial state given to zustand's [set]. *)
Inductive assignment : Set :=
| Set_app_status (v : status)
| Set_has_persisted_data (v : bool)
| Set_task_input_description (v : jsstring)
| Set_tasks_list (v : list json)
| Set_is_loading_tasks (v : bool)
| Set_error_message (v : option jsstring).

Definition assign (st : AppState) (a : assignment) : AppState :=
  match a with
  | Set_app_status v =>
      {| app_status := v; has_persisted_data := has_persisted_data st;
         task_input_description := task_input_description st;
         tasks_list := tasks_list st; is_loading_tasks := is_loading_tasks st;
         error_message := error_message st |}
  | Set_has_persisted_data v =>
      {| app_status := app_status st; has_persisted_data := v;
         task_input_description := task_input_description st;
         tasks_list := tasks_list st; is_loading_tasks := is_loading_tasks st;
         error_message := error_message st |}
  | Set_task_input_description v =>
      {| app_status := app_status st; has_persisted_data := has_persisted_data st;
         task_input_description := v;
         tasks_list := tasks_list st; is_loading_tasks := is_loading_tasks st;
         error_message := error_message st |}
  | Set_tasks_list v =>
      {| app_status := app_status st; has_persisted_data := has_persisted_data st;
         task_input_description := task_input_description st;
         tasks_list := v; is_loading_tasks := is_loading_tasks st;
         error_message := error_message st |}
  | Set_is_loading_tasks v =>
      {| app_status := app_status st; has_persisted_data := has_persisted_data st;
         task_input_description := task_input_description st;
         tasks_list := tasks_list st; is_loading_tasks := v;
         error_message := error_message st |}
  | Set_error_message v =>
      {| app_status := app_status st; has_persisted_data := has_persisted_data st;
         task_input_description := task_input_description st;
         tasks_list := tasks_list st; is_loading_tasks := is_loading_tasks st;
         error_message := v |}
  end.

(** The state after [set(partial)]: the listed properties are overwritten. *)
Definition merge (st : AppState) (partial : list assignment) : AppState :=
  fold_left assign partial st.

(** The initial state of the store. *)
Definition initial_state : AppState :=
  {| app_status := initialized;
     has_persisted_data := false;
     task_input_description := [];
     tasks_list := [];
     is_loading_tasks := true;
     error_message := None |}.

(** ** The platform around the store *)

Inductive exception : Set :=
| QuotaExceededError
| SecurityError
| SyntaxError
| TypeError.

(** [localStorage]: its items, and whether the browser lets the page use it.
    With the quota exceeded (no room left for the origin, or a quota of zero)
    reads work and every write throws [QuotaExceededError]; when access is
    denied every use throws [SecurityError]. Whether access is denied is a
    setting of the browser for the page, the same as long as the page lives;
    room can run out and come back. *)
Inductive storage_mode : Set := Available | QuotaExceeded | AccessDenied.

Record LocalStorage : Type := {
  items : gmap jsstring jsstring;
  mode : storage_mode;
}.

(** The function handed to [setTimeout]. *)
Inductive callback : Set := ClearErrorMessage.

(** What an action does to the storage, to the timers and to the error
    console, in the order in which it happens; a use of the storage is
    recorded whether or not the storage throws. *)
Inductive effect : Set :=
| GetItem (key : jsstring)
| SetItem (key value : jsstring)
| SetTimeout (handler : callback) (delay : Z)
| ConsoleError (message : jsstring).

Record World : Type := {
  app : AppState;
  local_storage : LocalStorage;
  trace : list effect;
}.

Definition with_app (w : World) (st : AppState) : World :=
  {| app := st; local_storage := local_storage w; trace := trace w |}.

Definition with_items (w : World) (m : gmap jsstring jsstring) : World :=
  {| app := app w;
     local_storage := {| items := m; mode := mode (local_storage w) |};
     trace := trace w |}.

Definition record (e : effect) (w : World) : World :=
  {| app := app w; local_storage := local_storage w; trace := trace w ++ [e] |}.

(** ** Actions: state passing with exceptions *)

(** How a piece of code ends: with a value, or by throwing. What was done to
    the world before a throw stays done. *)
Inductive completion (A : Type) : Type :=
| Normal (a : A)
| Throw (e : exception).
Arguments Normal {A} a.
Arguments Throw {A} e.

Definition Action (A : Type) : Type := World → completion A * World.

#[export] Instance action_ret : MRet Action :=
  λ A a w, (Normal a, w).

#[export] Instance action_bind : MBind Action :=
  λ A B f m w,
    match m w with
    | (Normal a, w') => f a w'
    | (Throw e, w') => (Throw e, w')
    end.

Definition lift {A : Type} (c : completion A) : Action A := λ w, (c, w).

(** [try { body } catch (error) { handler } finally { final }]. *)
Definition try_catch_finally {A : Type}
    (body : Action A) (handler : exception → Action A) (final : Action unit)
  : Action A :=
  λ w,
    let '(r, w1) :=
      match body w with
      | (Normal a, w1) => (Normal a, w1)
      | (Throw e, w1) => handler e w1
      end in
    match final w1 with
    | (Normal _, w2) => (r, w2)
    | (Throw e, w2) => (Throw e, w2)
    end.

(** ** The platform functions *)

Definition localStorage_getItem (key : jsstring) : Action (option jsstring) :=
  λ w,
    let w' := record (GetItem key) w in
    match mode (local_storage w) with
    | Available | QuotaExceeded => (Normal (items (local_storage w) !! key), w')
    | AccessDenied => (Throw SecurityError, w')
    end.

Definition localStorage_setItem (key value : jsstring) : Action unit :=
  λ w,
    let w' := record (SetItem key value) w in
    match mode (local_storage w) with
    | Available =>
        (Normal (), with_items w' (<[key := value]> (items (local_storage w))))
    | QuotaExceeded => (Throw QuotaExceededError, w')
    | AccessDenied => (Throw SecurityError, w')
    end.

Definition setTimeout (handler : callback) (delay : Z) : Action unit :=
  λ w, (Normal (), record (SetTimeout handler delay) w).

Definition console_error (message : jsstring) : Action unit :=
  λ w, (Normal (), record (ConsoleError message) w).

Definition JSON_parse_or_throw (s : jsstring) : completion json :=
  match JSON_parse s with
  | Some v => Normal v
  | None => Throw SyntaxError
  end.

(** ** zustand's [get] and [set], inside the [persist] middleware *)

Definition get : Action AppState := λ w, (Normal (app w), w).

(** [set] of a store without middleware: the listed properties are
    overwritten. *)
Definition setState (partial : list assignment) : Action unit :=
  λ w, (Normal (), with_app w (merge (app w) partial)).

(** The options given to [persist]: the name of its storage item and the
    part of the state it selects for it; its [version] is the default, 0. *)
Definition persist_name : jsstring := str "nex_task_store".

Definition partialize (state : AppState) : json :=
  JObj [(str "tasks_list", JArr (tasks_list state));
        (str "has_persisted_data", JBool (has_persisted_data state))].

Definition persist_version : number := zero.

(** The text the middleware stores for a state:
    [JSON.stringify({ state: partialize(state), version })]. *)
Definition persist_serialize (state : AppState) : jsstring :=
  JSON_stringify (JObj [(str "state", partialize state);
                        (str "version", JNum persist_version)]).

(** The write of the middleware; what the storage throws is thrown on. *)
Definition persist_setItem : Action unit :=
  state ← get;
  localStorage_setItem persist_name (persist_serialize state).

(** The [set] that [persist] hands to the store: the state is updated, then
    the item of the middleware is written. When the middleware could not get
    hold of the storage ([getStorage: () => localStorage] threw, access being
    denied) it only logs a warning, of which the trace keeps no record, and
    updates the state. *)
Definition set (partial : list assignment) : Action unit :=
  λ w,
    match mode (local_storage w) with
    | Available | QuotaExceeded => (setState partial;; persist_setItem) w
    | AccessDenied => setState partial w
    end.

(** ** Property access, comparison and truthiness on JSON values *)

(** [v.k] for one of the property names the store reads ([id], [completed]):
    [null] has no properties and reading one throws; an object gives its own
    property; every other value gives [undefined] ([None]). *)
Definition get_prop (v : json) (k : jsstring) : completion (option json) :=
  match v with
  | JNull => Throw TypeError
  | JObj ms => Normal (obj_get k ms)
  | JBool _ | JNum _ | JStr _ | JArr _ => Normal None
  end.

(** [x === s] for a string [s]. *)
Definition strict_equal_string (x : option json) (s : jsstring) : bool :=
  match x with
  | Some (JStr s') => bool_decide (s' = s)
  | _ => false
  end.

(** ToBoolean. *)
Definition truthy (x : option json) : bool :=
  match x with
  | None | Some JNull => false
  | Some (JBool b) => b
  | Some (JNum (Finite _ 0 _)) => false
  | Some (JNum _) => true
  | Some (JStr s) => nonempty s
  | Some (JArr _) | Some (JObj _) => true
  end.

(** The own properties copied by [{ ...v }]. Only objects are spread by the
    store: the spread sits behind the test [task.id === task_id], which no
    other value passes. *)
Definition own_properties (v : json) : list (jsstring * json) :=
  match v with
  | JObj ms => ms
  | _ => []
  end.

(** [Array.prototype.map] and [Array.prototype.filter] with a callback that
    may throw: the first exception ends the traversal. *)
Fixpoint array_map {A B : Type} (f : A → completion B) (l : list A)
  : completion (list B) :=
  match l with
  | [] => Normal []
  | x :: r =>
      match f x with
      | Normal y =>
          match array_map f r with
          | Normal ys => Normal (y :: ys)
          | Throw e => Throw e
          end
      | Throw e => Throw e
      end
  end.

Fixpoint array_filter {A : Type} (f : A → completion bool) (l : list A)
  : completion (list A) :=
  match l with
  | [] => Normal []
  | x :: r =>
      match f x with
      | Normal b =>
          match array_filter f r with
          | Normal ys => Normal (if b then x :: ys else ys)
          | Throw e => Throw e
          end
      | Throw e => Throw e
      end
  end.

(** ** The actions of the store *)

Definition LOCAL_STORAGE_KEY : jsstring := str "nex_task_tasks".
Definition TASK_DESCRIPTION_MAX_LENGTH : Z := 256.

(** [clear_error_message]. *)
Definition clear_error_message : Action unit :=
  set [Set_error_message None].

Definition run_callback (c : callback) : Action unit :=
  match c with
  | ClearErrorMessage => clear_error_message
  end.

(** [set_task_input_description]. *)
Definition set_task_input_description (description : jsstring) : Action unit :=
  set [Set_task_input_description description];;
  st ← get;
  if truthy (JStr <$> error_message st) then clear_error_message
  else mret ().

(** [load_tasks_from_local_storage]. *)
Definition load_tasks_from_local_storage : Action unit :=
  set [Set_is_loading_tasks true];;
  try_catch_finally
    (stored_tasks ← localStorage_getItem LOCAL_STORAGE_KEY;
     if truthy (JStr <$> stored_tasks) then
       parsed_tasks ← lift (JSON_parse_or_throw (default [] stored_tasks));
       match parsed_tasks with
       | JArr elems =>
           set [Set_tasks_list elems;
                Set_has_persisted_data (0 <? length elems)%nat;
                Set_app_status initialized]
       | _ =>
           console_error (str "LocalStorage data is not an array, resetting tasks.");;
           set [Set_tasks_list [];
                Set_app_status error;
                Set_error_message (Some (str "Corrupted data in local storage."))]
       end
     else
       set [Set_tasks_list []; Set_has_persisted_data false])
    (λ _,
       console_error (str "Failed to load or parse tasks from localStorage:");;
       set [Set_tasks_list [];
            Set_app_status local_storage_unavailable;
            Set_error_message
              (Some (str "Failed to load data from browser storage. Data might be corrupted or storage is full."));
            Set_has_persisted_data false])
    (set [Set_is_loading_tasks false]).

(** [add_new_task]; [now] is what [Date.now()] returns during the call. *)
Definition add_new_task (now : Z) : Action bool :=
  st ← get;
  let trimmed_description := trim (task_input_description st) in
  if negb (nonempty trimmed_description) then
    set [Set_error_message (Some (str "Task cannot be empty."))];;
    setTimeout ClearErrorMessage 3000;;
    mret false
  else if (TASK_DESCRIPTION_MAX_LENGTH <? Z.of_nat (length trimmed_description))%Z then
    set [Set_error_message
           (Some (str "Task is too long (max "
                  ++ number_to_string TASK_DESCRIPTION_MAX_LENGTH
                  ++ str " characters)."))];;
    setTimeout ClearErrorMessage 3000;;
    mret false
  else
    let new_task :=
      json_of_task {| id := number_to_string now;
                      description := trimmed_description;
                      completed := false |} in
    let updated_tasks := tasks_list st ++ [new_task] in
    set [Set_tasks_list updated_tasks;
         Set_task_input_description [];
         Set_has_persisted_data true];;
    localStorage_setItem LOCAL_STORAGE_KEY (JSON_stringify (JArr updated_tasks));;
    mret true.

(** The callback of [map] in [toggle_task_completion]. *)
Definition toggle_callback (task_id : jsstring) (task : json) : completion json :=
  match get_prop task (str "id") with
  | Normal task_dot_id =>
      if strict_equal_string task_dot_id task_id then
        match get_prop task (str "completed") with
        | Normal task_dot_completed =>
            Normal (JObj (obj_set (str "completed")
                                  (JBool (negb (truthy task_dot_completed)))
                                  (own_properties task)))
        | Throw e => Throw e
        end
      else Normal task
  | Throw e => Throw e
  end.

(** [toggle_task_completion]. *)
Definition toggle_task_completion (task_id : jsstring) : Action unit :=
  st ← get;
  updated_tasks ← lift (array_map (toggle_callback task_id) (tasks_list st));
  set [Set_tasks_list updated_tasks];;
  localStorage_setItem LOCAL_STORAGE_KEY (JSON_stringify (JArr updated_tasks)).

(** The callback of [filter] in [delete_task]. *)
Definition delete_callback (task_id : jsstring) (task : json) : completion bool :=
  match get_prop task (str "id") with
  | Normal task_dot_id => Normal (negb (strict_equal_string task_dot_id task_id))
  | Throw e => Throw e
  end.

(** [delete_task]. *)
Definition delete_task (task_id : jsstring) : Action unit :=
  st ← get;
  updated_tasks ← lift (array_filter (delete_callback task_id) (tasks_list st));
  set [Set_tasks_list updated_tasks;
       Set_has_persisted_data (0 <? length updated_tasks)%nat];;
  localStorage_setItem LOCAL_STORAGE_KEY (JSON_stringify (JArr updated_tasks)).

(** A world with the initial state, the given storage and nothing done yet. *)
Definition initial_world (ls : LocalStorage) : World :=
  {| app := initial_state; local_storage := ls; trace := [] |}.

Definition empty_storage : LocalStorage := {| items := ∅; mode := Available |}.

(** * Vocabulary of the statements *)

(** ** Lists of task records *)

(** The array a list of tasks is at run time. *)
Definition tasks_json (ts : list Task) : list json := map json_of_task ts.

(** A task with its [completed] flag flipped when its id is [task_id]. *)
Definition toggled (task_id : jsstring) (t : Task) : Task :=
  if bool_decide (id t = task_id)
  then {| id := id t; description := description t;
          completed := negb (completed t) |}
  else t.

(** The record [add_new_task] builds when the clock reads [now]. *)
Definition new_task (now : Z) (w : World) : json :=
  json_of_task {| id := number_to_string now;
                  description := trim (task_input_description (app w));
                  completed := false |}.

(** The two messages of [add_new_task]. *)
Definition empty_message : jsstring := str "Task cannot be empty.".
Definition too_long_message : jsstring :=
  str "Task is too long (max 256 characters).".


(** The layout [{ tasks_list, has_persisted_data }]: an object with these two
    properties and no other. *)
Definition two_field_layout (v : json) : bool :=
  match v with
  | JObj [(k1, _); (k2, _)] =>
      (bool_decide (k1 = str "tasks_list")
       && bool_decide (k2 = str "has_persisted_data"))
      || (bool_decide (k1 = str "has_persisted_data")
          && bool_decide (k2 = str "tasks_list"))
  | _ => false
  end.

(** ** Texts *)

(** The elements of an array as [JSON.stringify] writes them. *)
Fixpoint stringify_items (l : list json) : jsstring :=
  match l with
  | [] => []
  | [x] => JSON_stringify x
  | x :: r => JSON_stringify x ++ ch "," :: stringify_items r
  end.

(** What [parse_chars] answers when the input starts with the text of one
    code unit [c]. *)
Definition prepend (c : code_unit) (r : option (jsstring * jsstring))
  : option (jsstring * jsstring) :=
  match r with
  | Some (cs, rest) => Some (c :: cs, rest)
  | None => None
  end.

(** ** Callers and effects *)

(** One call of an action by the page. *)
Inductive call : Type :=
| Call_set_task_input_description (description : jsstring)
| Call_load_tasks_from_local_storage
| Call_add_new_task (now : Z)
| Call_toggle_task_completion (task_id : jsstring)
| Call_delete_task (task_id : jsstring)
| Call_clear_error_message.

(** The world after a call, whether the action returned or threw: what it did
    before throwing stays done. *)
Definition perform (c : call) (w : World) : World :=
  match c with
  | Call_set_task_input_description description =>
      (set_task_input_description description w).2
  | Call_load_tasks_from_local_storage => (load_tasks_from_local_storage w).2
  | Call_add_new_task now => (add_new_task now w).2
  | Call_toggle_task_completion task_id => (toggle_task_completion task_id w).2
  | Call_delete_task task_id => (delete_task task_id w).2
  | Call_clear_error_message => (clear_error_message w).2
  end.

Definition perform_all (cs : list call) (w : World) : World :=
  fold_left (λ w c, perform c w) cs w.

(** What an action adds to the trace. *)
Definition effects_of {A : Type} (a : Action A) (w : World) : list effect :=
  drop (length (trace w)) (trace (a w).2).

(** Every [localStorage.setItem] of the action writes one of two items:
    under the storage key of the store the text of the array [tasks_list],
    under the name of the middleware the text of
    [{ state: { tasks_list, has_persisted_data }, version: 0 }]; both with the
    list and the flag of the state the action leaves. *)
Definition writes_the_two_items {A : Type} (a : Action A) (w : World) : Prop :=
  ∀ k v : jsstring,
    SetItem k v ∈ effects_of a w →
    (k = LOCAL_STORAGE_KEY
     ∧ v = JSON_stringify (JArr (tasks_list (app (a w).2))))
    ∨ (k = persist_name ∧ v = persist_serialize (app (a w).2)).

(** What [load_tasks_from_local_storage] does to the storage: it reads the
    storage key of the store and no other, and what it writes is the item of
    the middleware. *)
Definition load_reads_the_slot (w : World) : Prop :=
  (∀ k : jsstring,
     GetItem k ∈ effects_of load_tasks_from_local_storage w →
     k = LOCAL_STORAGE_KEY)
  ∧ (∀ k v : jsstring,
       SetItem k v ∈ effects_of load_tasks_from_local_storage w →
       k = persist_name)
  ∧ (mode (local_storage w) ≠ QuotaExceeded →
     GetItem LOCAL_STORAGE_KEY ∈ effects_of load_tasks_from_local_storage w).

(** A storage call or a log entry such as a load makes: a read of the
    storage key of the store, a write of the item of the middleware, a line
    on the error console. *)
Definition load_effect_ok (e : effect) : Prop :=
  match e with
  | GetItem k => k = LOCAL_STORAGE_KEY
  | SetItem k _ => k = persist_name
  | SetTimeout _ _ => False
  | ConsoleError _ => True
  end.

(** Loading from the storage of [w] brings the list [l]: whatever state the
    store is in when it loads (that of a page opened anew, say), the action
    returns and [tasks_list] is [l] afterwards. *)
Definition load_gives (w : World) (l : list json) : Prop :=
  ∀ st : AppState,
    (load_tasks_from_local_storage (with_app w st)).1 = Normal ()
    ∧ tasks_list (app (load_tasks_from_local_storage (with_app w st)).2) = l
    ∧ has_persisted_data (app (load_tasks_from_local_storage (with_app w st)).2)
      = (0 <? length l)%nat.

(** ** Sample worlds *)

Definition sample_tasks : list Task :=
  [ {| id := str "1678901234567"; description := str "Buy groceries";
       completed := true |};
    {| id := str "1678901234789"; description := str "Call mom";
       completed := false |} ].

(** A store that holds [sample_tasks], over a storage in the given mode whose
    slot has the given content. *)
Definition sample_world (m : storage_mode) (slot : option jsstring) : World :=
  {| app := {| app_status := initialized;
               has_persisted_data := true;
               task_input_description := [];
               tasks_list := tasks_json sample_tasks;
               is_loading_tasks := false;
               error_message := None |};
     local_storage :=
       {| items := match slot with
                   | Some s => {[ LOCAL_STORAGE_KEY := s ]}
                   | None => ∅
                   end;
          mode := m |};
     trace := [] |}.

(** * The page around the store, and the schemas *)

(** ** [App]: the effect that loads the tasks *)

(** The body of the [useEffect] of [App]; the values it tests are those of
    the store at the time it runs. *)
Definition App_effect : Action unit :=
  st ← get;
  if is_loading_tasks st
     || match app_status st with initialized => false | _ => true end
  then load_tasks_from_local_storage
  else mret ().

(** ** [UV_TaskManagement]: what is on the screen *)

(** The three things the view can return: the error view with its text, the
    spinner, or the task view with the value of the input, the alert under
    it if there is one, and the tasks of the list (an empty list shows the
    "list is empty" line). *)
Inductive screen : Set :=
| Error_screen (text : jsstring)
| Loading_screen
| Task_screen (input : jsstring) (alert : option jsstring) (tasks : list json).

Definition UV_TaskManagement (st : AppState) : screen :=
  match app_status st with
  | error | local_storage_unavailable =>
      Error_screen
        (if truthy (JStr <$> error_message st)
         then default [] (error_message st)
         else str "An unexpected error occurred. Please try again or clear your browser's local storage.")
  | initialized =>
      if is_loading_tasks st then Loading_screen
      else
        Task_screen (task_input_description st)
          (if truthy (JStr <$> error_message st) then error_message st
           else None)
          (tasks_list st)
  end.

(** ** The zod schemas *)

(** [taskSchema.safeParse(v).success]: an object whose [id] and [description]
    are strings and whose [completed] is a boolean; other keys are let
    through. *)
Definition taskSchema (v : json) : bool :=
  match v with
  | JObj ms =>
      match obj_get (str "id") ms, obj_get (str "description") ms,
            obj_get (str "completed") ms with
      | Some (JStr _), Some (JStr _), Some (JBool _) => true
      | _, _, _ => false
      end
  | _ => false
  end.

(** The issues of [z.string().min(1, ...).max(256, ...)] on a string. *)
Definition description_issues (d : jsstring) : list jsstring :=
  (if (length d <? 1)%nat then [str "Description cannot be empty."] else [])
  ++ (if (256 <? length d)%nat
      then [str "Description cannot exceed 256 characters."] else []).

(** [createTaskInputSchema.safeParse(v).success]: an object whose
    [description] is a string without issues and whose [completed] is absent
    or a boolean. *)
Definition createTaskInputSchema (v : json) : bool :=
  match v with
  | JObj ms =>
      match obj_get (str "description") ms with
      | Some (JStr d) =>
          match description_issues d with [] => true | _ :: _ => false end
      | _ => false
      end
      && match obj_get (str "completed") ms with
         | None | Some (JBool _) => true
         | Some _ => false
         end
  | _ => false
  end.

(** ** Histories: the page calls the store, room in the storage comes and goes *)

Definition with_mode (w : World) (m : storage_mode) : World :=
  {| app := app w;
     local_storage := {| items := items (local_storage w); mode := m |};
     trace := trace w |}.

(** The storage runs out of room, or gets room again; a storage to which
    access is denied stays so. *)
Definition with_room (w : World) (room : bool) : World :=
  match mode (local_storage w) with
  | AccessDenied => w
  | Available | QuotaExceeded =>
      with_mode w (if room then Available else QuotaExceeded)
  end.

(** One thing that happens: the page calls an action, or the room in the
    storage changes. *)
Inductive happening : Type :=
| Page (c : call)
| Browser (room : bool).

Definition happen (h : happening) (w : World) : World :=
  match h with
  | Page c => perform c w
  | Browser room => with_room w room
  end.

Definition history (hs : list happening) (w : World) : World :=
  fold_left (λ w h, happen h w) hs w.

(** The clock readings of the [add_new_task] calls of a history, in order. *)
Fixpoint readings (hs : list happening) : list Z :=
  match hs with
  | [] => []
  | Page (Call_add_new_task now) :: r => now :: readings r
  | _ :: r => readings r
  end.

(** A description as [add_new_task] lets it in: not empty, at most 256 code
    units, nothing left to trim. *)
Definition valid_description (d : jsstring) : Prop :=
  d ≠ [] ∧ (length d ≤ 256)%nat ∧ trim d = d.

(** ** Invariants of histories *)

(** The list of the state is a list of task records with the property [Q],
    and so is what the slot of the store holds, if it holds anything. *)
Definition records_with (Q : list Task → Prop) (w : World) : Prop :=
  (∃ ts : list Task, tasks_list (app w) = tasks_json ts ∧ Q ts)
  ∧ ∀ s : jsstring,
      items (local_storage w) !! LOCAL_STORAGE_KEY = Some s →
      ∃ ts : list Task, s = JSON_stringify (JArr (tasks_json ts)) ∧ Q ts.

(** The ids are pairwise distinct and each is the text of one of the clock
    readings [used]. *)
Definition ids_from (used : list Z) (ts : list Task) : Prop :=
  NoDup (id <$> ts)
  ∧ ∀ i : jsstring, i ∈ id <$> ts → ∃ z : Z, z ∈ used ∧ i = number_to_string z.

(** The slot of the store is a copy of the list: it holds the text of the
    list, or nothing while the list is empty. *)
Definition mirrored (w : World) : Prop :=
  (items (local_storage w) !! LOCAL_STORAGE_KEY = None
   ∧ tasks_list (app w) = [])
  ∨ items (local_storage w) !! LOCAL_STORAGE_KEY
    = Some (JSON_stringify (JArr (tasks_list (app w)))).

(** * Properties *)

(** ** The recursion budget of [JSON_parse] is enough *)

Section Fuel.

Lemma skip_ws_length (s : jsstring) : (length (skip_ws s) ≤ length s)%nat.
Proof.
  induction s as [|c r IH]; simpl; [lia|].
  destruct (is_json_ws c); simpl; lia.
Qed.

Lemma skip_ws_cons_length (s r : jsstring) (c : code_unit) :
  skip_ws s = c :: r → (length r < length s)%nat.
Proof.
  intros H. pose proof (skip_ws_length s) as Hle. rewrite H in Hle.
  simpl in Hle. lia.
Qed.

Lemma parse_chars_length (s k r : jsstring) :
  parse_chars s = Some (k, r) → (length r < length s)%nat.
Proof.
  remember (length s) as n eqn:Hn. revert s k r Hn.
  induction n as [n IH] using lt_wf_ind. intros s k r Hn Hparse.
  destruct s as [|c s]; [discriminate|].
  simpl in Hparse, Hn.
  repeat case_match; simplify_eq; simpl in *;
    try match goal with
        | H : parse_chars ?x = Some (_, ?y) |- _ =>
            apply (IH (length x)) in H; [|simpl; lia|reflexivity]
        end;
    simpl in *; lia.
Qed.

Lemma span_digits_length (s ds r : jsstring) :
  span_digits s = (ds, r) → (length r ≤ length s)%nat.
Proof.
  revert ds r. induction s as [|c s IH]; intros ds r H; simpl in H.
  - simplify_eq. simpl. lia.
  - destruct (is_digit c).
    + destruct (span_digits s) as [ds' r'] eqn:Hs. simplify_eq.
      specialize (IH _ _ eq_refl). simpl. lia.
    + simplify_eq. simpl. lia.
Qed.

Lemma parse_fraction_length (s x r : jsstring) :
  parse_fraction s = Some (x, r) → (length r ≤ length s)%nat.
Proof.
  unfold parse_fraction. intros H.
  repeat case_match; simplify_eq; simpl; try lia;
    match goal with
    | Hs : span_digits _ = _ |- _ => apply span_digits_length in Hs
    end; simpl in *; lia.
Qed.

Lemma parse_exponent_length (s r : jsstring) (x : Z) :
  parse_exponent s = Some (x, r) → (length r ≤ length s)%nat.
Proof.
  unfold parse_exponent. intros H.
  repeat case_match; simplify_eq; simpl; try lia;
    match goal with
    | Hs : span_digits _ = _ |- _ => apply span_digits_length in Hs
    end; simpl in *; lia.
Qed.

Lemma parse_number_length (s r : jsstring) (x : number) :
  parse_number s = Some (x, r) → (length r < length s)%nat.
Proof.
  unfold parse_number. intros H.
  repeat case_match; simplify_eq;
    repeat match goal with
      | Hs : span_digits _ = _ |- _ => apply span_digits_length in Hs
      | Hs : parse_fraction _ = _ |- _ => apply parse_fraction_length in Hs
      | Hs : parse_exponent _ = _ |- _ => apply parse_exponent_length in Hs
      end; simpl in *; lia.
Qed.

Lemma strip_prefix_length (p s r : jsstring) :
  strip_prefix p s = Some r → (length r + length p = length s)%nat.
Proof.
  revert s. induction p as [|a p IH]; intros s H; simpl in H.
  - simplify_eq. simpl. lia.
  - destruct s as [|b s]; [discriminate|].
    destruct (a =? b); [|discriminate].
    apply IH in H. simpl. lia.
Qed.

(** Turns what is known about the pieces of a parse into facts on lengths. *)
Ltac parse_lengths :=
  repeat match goal with
    | H : skip_ws _ = _ :: _ |- _ => apply skip_ws_cons_length in H
    | H : parse_chars _ = Some _ |- _ => apply parse_chars_length in H
    | H : parse_number _ = Some _ |- _ => apply parse_number_length in H
    | H : strip_prefix _ _ = Some _ |- _ => apply strip_prefix_length in H
    end.

(** One step of [parse_value]. *)
Lemma parse_value_step (fuel : nat) (s : jsstring) :
  parse_value (S fuel) s =
  match skip_ws s with
  | [] => Malformed
  | c :: r =>
      if c =? quotation_mark then
        match parse_chars r with
        | Some (cs, rest) => Parsed (JStr cs) rest
        | None => Malformed
        end
      else if c =? ch "[" then
        match skip_ws r with
        | c' :: r' =>
            if c' =? ch "]" then Parsed (JArr []) r'
            else
              match parse_elements fuel r with
              | Parsed l rest => Parsed (JArr l) rest
              | Malformed => Malformed
              | OutOfFuel => OutOfFuel
              end
        | [] => Malformed
        end
      else if c =? ch "{" then
        match skip_ws r with
        | c' :: r' =>
            if c' =? ch "}" then Parsed (JObj []) r'
            else
              match parse_members fuel [] r with
              | Parsed ms rest => Parsed (JObj ms) rest
              | Malformed => Malformed
              | OutOfFuel => OutOfFuel
              end
        | [] => Malformed
        end
      else if (c =? ch "-") || is_digit c then
        match parse_number (c :: r) with
        | Some (n, rest) => Parsed (JNum n) rest
        | None => Malformed
        end
      else
        match strip_prefix (str "null") (c :: r),
              strip_prefix (str "true") (c :: r),
              strip_prefix (str "false") (c :: r) with
        | Some rest, _, _ => Parsed JNull rest
        | _, Some rest, _ => Parsed (JBool true) rest
        | _, _, Some rest => Parsed (JBool false) rest
        | _, _, _ => Malformed
        end
  end.
Proof. reflexivity. Qed.

(** A value, a run of elements and a run of members each take at least one
    code unit of the input. *)
Lemma parse_consumes (fuel : nat) :
  (∀ s v r, parse_value fuel s = Parsed v r → (length r < length s)%nat)
  ∧ (∀ s l r, parse_elements fuel s = Parsed l r → (length r < length s)%nat)
  ∧ (∀ acc s ms r,
       parse_members fuel acc s = Parsed ms r → (length r < length s)%nat).
Proof.
  induction fuel as [|fuel (IHv & IHe & IHm)]; [repeat split; discriminate|].
  split; [|split].
  - intros s v r H.
    rewrite parse_value_step in H.
    repeat case_match; simplify_eq;
      repeat match goal with
        | H : parse_elements fuel _ = Parsed _ _ |- _ => apply IHe in H
        | H : parse_members fuel _ _ = Parsed _ _ |- _ => apply IHm in H
        end;
      parse_lengths; simpl in *; lia.
  - intros s l r H. simpl in H.
    repeat case_match; simplify_eq;
      repeat match goal with
        | H : parse_value fuel _ = Parsed _ _ |- _ => apply IHv in H
        | H : parse_elements fuel _ = Parsed _ _ |- _ => apply IHe in H
        end;
      parse_lengths; simpl in *; lia.
  - intros acc s ms r H. simpl in H.
    repeat case_match; simplify_eq;
      repeat match goal with
        | H : parse_value fuel _ = Parsed _ _ |- _ => apply IHv in H
        | H : parse_members fuel _ _ = Parsed _ _ |- _ => apply IHm in H
        end;
      parse_lengths; simpl in *; lia.
Qed.

(** With a budget of twice the length of the input and one more, parsing a
    value never stops for lack of budget; elements and members need one unit
    more. *)
Lemma parse_fuel (fuel : nat) :
  (∀ s, (2 * length s + 1 ≤ fuel)%nat → parse_value fuel s ≠ OutOfFuel)
  ∧ (∀ s, (2 * length s + 2 ≤ fuel)%nat → parse_elements fuel s ≠ OutOfFuel)
  ∧ (∀ acc s,
       (2 * length s + 2 ≤ fuel)%nat → parse_members fuel acc s ≠ OutOfFuel).
Proof.
  induction fuel as [|fuel (IHv & IHe & IHm)]; [repeat split; intros; lia|].
  destruct (parse_consumes fuel) as (Cv & Ce & Cm).
  split; [|split].
  - intros s Hfuel H.
    rewrite parse_value_step in H.
    repeat case_match; simplify_eq;
      match goal with
      | H : parse_elements fuel _ = OutOfFuel |- _ => apply IHe in H; [done|]
      | H : parse_members fuel _ _ = OutOfFuel |- _ => apply IHm in H; [done|]
      end;
      parse_lengths; simpl in *; lia.
  - intros s Hfuel H. simpl in H.
    repeat case_match; simplify_eq;
      repeat match goal with
        | H : parse_value fuel _ = Parsed _ _ |- _ => apply Cv in H
        end;
      match goal with
      | H : parse_value fuel _ = OutOfFuel |- _ => apply IHv in H; [done|]
      | H : parse_elements fuel _ = OutOfFuel |- _ => apply IHe in H; [done|]
      end;
      parse_lengths; simpl in *; lia.
  - intros acc s Hfuel H. simpl in H.
    repeat case_match; simplify_eq;
      repeat match goal with
        | H : parse_value fuel _ = Parsed _ _ |- _ => apply Cv in H
        end;
      match goal with
      | H : parse_value fuel _ = OutOfFuel |- _ => apply IHv in H; [done|]
      | H : parse_members fuel _ _ = OutOfFuel |- _ => apply IHm in H; [done|]
      end;
      parse_lengths; simpl in *; lia.
Qed.

(** [JSON_parse] answers [None] only for a text that is not JSON. *)
Lemma JSON_parse_budget (s : jsstring) :
  parse_value (2 * length s + 2) s ≠ OutOfFuel.
Proof. apply parse_fuel. lia. Qed.

End Fuel.

(** ** Strings written by [JSON.stringify] read back by [JSON.parse] *)

Section StringRoundTrip.

Lemma hex_value_hex_digit (d : N) :
  d < 16 → hex_value (hex_digit d) = Some d.
Proof.
  intros Hd. unfold hex_digit, hex_value.
  destruct (N.ltb_spec d 10).
  - replace ((0x30 <=? 0x30 + d) && (0x30 + d <=? 0x39)) with true.
    + f_equal. lia.
    + symmetry. apply andb_true_iff. split; apply N.leb_le; lia.
  - replace ((0x30 <=? 0x57 + d) && (0x57 + d <=? 0x39)) with false.
    + replace ((0x61 <=? 0x57 + d) && (0x57 + d <=? 0x66)) with true.
      * f_equal. lia.
      * symmetry. apply andb_true_iff. split; apply N.leb_le; lia.
    + symmetry. apply andb_false_iff. right. apply N.leb_gt. lia.
Qed.

Lemma hex4_digits (c : code_unit) :
  c < 65536 →
  hex4 (hex_digit (c / 4096 mod 16)) (hex_digit (c / 256 mod 16))
       (hex_digit (c / 16 mod 16)) (hex_digit (c mod 16)) = Some c.
Proof.
  intros Hc. unfold hex4.
  rewrite !hex_value_hex_digit by (apply N.mod_lt; lia).
  f_equal.
  assert (c / 4096 < 16) by (apply N.Div0.div_lt_upper_bound; lia).
  rewrite (N.mod_small (c / 4096)) by assumption.
  pose proof (N.div_mod c 16 ltac:(lia)).
  pose proof (N.div_mod (c / 16) 16 ltac:(lia)).
  pose proof (N.div_mod (c / 16 / 16) 16 ltac:(lia)).
  rewrite !N.Div0.div_div in *.
  change (16 * 16) with 256 in *. change (256 * 16) with 4096 in *.
  assert (c / 256 = 16 * (c / 4096) + c / 256 mod 16) by lia.
  lia.
Qed.

Lemma parse_chars_verbatim (c : code_unit) (r : jsstring) :
  c ≠ quotation_mark → c ≠ reverse_solidus → 0x20 <= c →
  parse_chars (c :: r) = prepend c (parse_chars r).
Proof.
  intros Hq Hb Hc. simpl.
  apply N.eqb_neq in Hq. apply N.eqb_neq in Hb. rewrite Hq, Hb.
  replace (c <? 0x20) with false by (symmetry; apply N.ltb_ge; exact Hc).
  reflexivity.
Qed.

Lemma parse_chars_unicode_escape (c : code_unit) (r : jsstring) :
  c < 65536 →
  parse_chars (unicode_escape c ++ r) = prepend c (parse_chars r).
Proof.
  intros Hc. unfold unicode_escape.
  cbn -[hex4 hex_digit N.div N.modulo].
  rewrite hex4_digits by exact Hc. reflexivity.
Qed.

Lemma parse_chars_escape_unit (c : code_unit) (r : jsstring) :
  parse_chars (escape_unit c ++ r) = prepend c (parse_chars r).
Proof.
  unfold escape_unit.
  destruct (N.eqb_spec c 0x08) as [->|H1]; [reflexivity|].
  destruct (N.eqb_spec c 0x09) as [->|H2]; [reflexivity|].
  destruct (N.eqb_spec c 0x0A) as [->|H3]; [reflexivity|].
  destruct (N.eqb_spec c 0x0C) as [->|H4]; [reflexivity|].
  destruct (N.eqb_spec c 0x0D) as [->|H5]; [reflexivity|].
  destruct (N.eqb_spec c quotation_mark) as [->|H6]; [reflexivity|].
  destruct (N.eqb_spec c reverse_solidus) as [->|H7]; [reflexivity|].
  destruct (N.ltb_spec c 0x20) as [H8|H8].
  - apply parse_chars_unicode_escape. lia.
  - apply parse_chars_verbatim; assumption.
Qed.

Lemma high_surrogate_range (c : code_unit) :
  is_high_surrogate c = true → 0xD800 <= c <= 0xDBFF.
Proof.
  unfold is_high_surrogate. intros [H1 H2]%andb_true_iff.
  apply N.leb_le in H1. apply N.leb_le in H2. lia.
Qed.

Lemma low_surrogate_range (c : code_unit) :
  is_low_surrogate c = true → 0xDC00 <= c <= 0xDFFF.
Proof.
  unfold is_low_surrogate. intros [H1 H2]%andb_true_iff.
  apply N.leb_le in H1. apply N.leb_le in H2. lia.
Qed.

Lemma quote_units_pair (c l : code_unit) (r : jsstring) :
  is_high_surrogate c = true → is_low_surrogate l = true →
  quote_units (c :: l :: r) = c :: l :: quote_units r.
Proof. intros Hc Hl. simpl. rewrite Hc, Hl. reflexivity. Qed.

Lemma quote_units_lone_high (c : code_unit) (r : jsstring) :
  is_high_surrogate c = true →
  match r with l :: _ => is_low_surrogate l = false | [] => True end →
  quote_units (c :: r) = unicode_escape c ++ quote_units r.
Proof.
  intros Hc Hr. destruct r as [|l r'].
  - simpl. rewrite Hc. reflexivity.
  - change (quote_units (c :: l :: r'))
      with (if is_high_surrogate c
            then if is_low_surrogate l then c :: l :: quote_units r'
                 else unicode_escape c ++ quote_units (l :: r')
            else if is_low_surrogate c
                 then unicode_escape c ++ quote_units (l :: r')
                 else escape_unit c ++ quote_units (l :: r')).
    rewrite Hc, Hr. reflexivity.
Qed.

Lemma quote_units_lone_low (c : code_unit) (r : jsstring) :
  is_high_surrogate c = false → is_low_surrogate c = true →
  quote_units (c :: r) = unicode_escape c ++ quote_units r.
Proof.
  intros Hh Hl.
  change (quote_units (c :: r))
    with (if is_high_surrogate c
          then match r with
               | l :: r' =>
                   if is_low_surrogate l then c :: l :: quote_units r'
                   else unicode_escape c ++ quote_units r
               | [] => unicode_escape c
               end
          else if is_low_surrogate c then unicode_escape c ++ quote_units r
               else escape_unit c ++ quote_units r).
  rewrite Hh, Hl. reflexivity.
Qed.

Lemma quote_units_plain (c : code_unit) (r : jsstring) :
  is_high_surrogate c = false → is_low_surrogate c = false →
  quote_units (c :: r) = escape_unit c ++ quote_units r.
Proof.
  intros Hh Hl.
  change (quote_units (c :: r))
    with (if is_high_surrogate c
          then match r with
               | l :: r' =>
                   if is_low_surrogate l then c :: l :: quote_units r'
                   else unicode_escape c ++ quote_units r
               | [] => unicode_escape c
               end
          else if is_low_surrogate c then unicode_escape c ++ quote_units r
               else escape_unit c ++ quote_units r).
  rewrite Hh, Hl. reflexivity.
Qed.

(** The text [JSON.stringify] writes for a string, followed by the closing
    quotation mark, reads back as that string. *)
Lemma parse_chars_quote_units (s rest : jsstring) :
  parse_chars (quote_units s ++ quotation_mark :: rest) = Some (s, rest).
Proof.
  remember (length s) as n eqn:Hn.
  revert s Hn. induction n as [n IH] using lt_wf_ind. intros s Hn.
  destruct s as [|c r]; [reflexivity|].
  simpl in Hn.
  destruct (is_high_surrogate c) eqn:Hhigh.
  - pose proof (high_surrogate_range _ Hhigh) as Hc.
    destruct r as [|l r'].
    + rewrite quote_units_lone_high by done.
      rewrite <- app_assoc, parse_chars_unicode_escape by lia. reflexivity.
    + destruct (is_low_surrogate l) eqn:Hlow.
      * pose proof (low_surrogate_range _ Hlow) as Hl.
        rewrite quote_units_pair by done.
        rewrite <- !app_comm_cons.
        rewrite !parse_chars_verbatim
          by (unfold quotation_mark, reverse_solidus; lia).
        rewrite (IH (length r')) by (simpl in Hn; lia || reflexivity).
        reflexivity.
      * rewrite quote_units_lone_high by done.
        rewrite <- app_assoc, parse_chars_unicode_escape by lia.
        rewrite (IH (length (l :: r'))) by (lia || reflexivity).
        reflexivity.
  - destruct (is_low_surrogate c) eqn:Hlow.
    + pose proof (low_surrogate_range _ Hlow) as Hl.
      rewrite quote_units_lone_low by done.
      rewrite <- app_assoc, parse_chars_unicode_escape by lia.
      rewrite (IH (length r)) by (lia || reflexivity). reflexivity.
    + rewrite quote_units_plain by done.
      rewrite <- app_assoc, parse_chars_escape_unit.
      rewrite (IH (length r)) by (lia || reflexivity). reflexivity.
Qed.

End StringRoundTrip.

(** ** The task list written by the store reads back *)

Section TaskRoundTrip.

Lemma quote_app (k rest : jsstring) :
  quote k ++ rest = quotation_mark :: quote_units k ++ quotation_mark :: rest.
Proof. unfold quote. rewrite <- app_comm_cons, <- app_assoc. reflexivity. Qed.

Lemma parse_value_string (fuel : nat) (s rest : jsstring) :
  parse_value (S fuel) (quote s ++ rest) = Parsed (JStr s) rest.
Proof.
  rewrite quote_app. cbn -[parse_chars].
  rewrite parse_chars_quote_units. reflexivity.
Qed.

Lemma parse_value_bool (fuel : nat) (b : bool) (rest : jsstring) :
  parse_value (S fuel) (JSON_stringify (JBool b) ++ rest) = Parsed (JBool b) rest.
Proof. destruct b; reflexivity. Qed.

Lemma parse_members_more (fuel : nat) (acc : list (jsstring * json))
    (k : jsstring) (v : json) (text rest : jsstring) :
  parse_value fuel text = Parsed v (ch "," :: rest) →
  parse_members (S fuel) acc (quote k ++ ch ":" :: text)
  = parse_members fuel (obj_set k v acc) rest.
Proof.
  intros Hv. rewrite quote_app.
  simpl.
  rewrite parse_chars_quote_units.
  simpl.
  rewrite Hv. reflexivity.
Qed.

Lemma parse_members_last (fuel : nat) (acc : list (jsstring * json))
    (k : jsstring) (v : json) (text rest : jsstring) :
  parse_value fuel text = Parsed v (ch "}" :: rest) →
  parse_members (S fuel) acc (quote k ++ ch ":" :: text)
  = Parsed (obj_set k v acc) rest.
Proof.
  intros Hv. rewrite quote_app.
  simpl.
  rewrite parse_chars_quote_units.
  simpl.
  rewrite Hv. reflexivity.
Qed.

Lemma parse_value_object (fuel : nat) (k text : jsstring) :
  parse_value (S fuel) (ch "{" :: quote k ++ text)
  = match parse_members fuel [] (quote k ++ text) with
    | Parsed ms rest => Parsed (JObj ms) rest
    | Malformed => Malformed
    | OutOfFuel => OutOfFuel
    end.
Proof. rewrite quote_app. reflexivity. Qed.

Lemma stringify_task (t : Task) (rest : jsstring) :
  JSON_stringify (json_of_task t) ++ rest
  = ch "{" :: quote (str "id") ++ ch ":" :: quote (id t) ++ ch ","
    :: quote (str "description") ++ ch ":" :: quote (description t) ++ ch ","
    :: quote (str "completed") ++ ch ":"
    :: JSON_stringify (JBool (completed t)) ++ ch "}" :: rest.
Proof.
  unfold json_of_task.
  change (JSON_stringify (JObj ?ms))
    with (ch "{" :: (quote (str "id") ++ ch ":" :: quote (id t) ++ ch ","
    :: quote (str "description") ++ ch ":" :: quote (description t) ++ ch ","
    :: quote (str "completed") ++ ch ":"
    :: JSON_stringify (JBool (completed t))) ++ [ch "}"]).
  rewrite <- app_comm_cons. f_equal.
  repeat (rewrite <- ?app_assoc, <- ?app_comm_cons). reflexivity.
Qed.

(** One task record reads back, whatever follows it. *)
Lemma parse_value_task (fuel : nat) (t : Task) (rest : jsstring) :
  parse_value (5 + fuel) (JSON_stringify (json_of_task t) ++ rest)
  = Parsed (json_of_task t) rest.
Proof.
  rewrite stringify_task.
  change (5 + fuel)%nat with (S (S (S (S (S fuel))))).
  rewrite parse_value_object.
  erewrite parse_members_more by apply parse_value_string.
  erewrite parse_members_more by apply parse_value_string.
  erewrite parse_members_last by apply parse_value_bool.
  reflexivity.
Qed.

Lemma parse_elements_more (fuel : nat) (v : json) (text rest : jsstring) :
  parse_value fuel text = Parsed v (ch "," :: rest) →
  parse_elements (S fuel) text
  = match parse_elements fuel rest with
    | Parsed l rest' => Parsed (v :: l) rest'
    | Malformed => Malformed
    | OutOfFuel => OutOfFuel
    end.
Proof. intros Hv. simpl. rewrite Hv. reflexivity. Qed.

Lemma parse_elements_last (fuel : nat) (v : json) (text rest : jsstring) :
  parse_value fuel text = Parsed v (ch "]" :: rest) →
  parse_elements (S fuel) text = Parsed [v] rest.
Proof. intros Hv. simpl. rewrite Hv. reflexivity. Qed.

Lemma stringify_array (l : list json) :
  JSON_stringify (JArr l) = ch "[" :: stringify_items l ++ [ch "]"].
Proof.
  reflexivity.
Qed.

Lemma parse_elements_tasks (fuel : nat) (t : Task) (ts : list Task)
    (rest : jsstring) :
  parse_elements (length ts + 6 + fuel)
    (stringify_items (tasks_json (t :: ts)) ++ ch "]" :: rest)
  = Parsed (tasks_json (t :: ts)) rest.
Proof.
  revert t. induction ts as [|t' ts IH]; intros t.
  - apply parse_elements_last. apply (parse_value_task fuel).
  - change (stringify_items (tasks_json (t :: t' :: ts)))
      with (JSON_stringify (json_of_task t)
            ++ ch "," :: stringify_items (tasks_json (t' :: ts))).
    rewrite <- app_assoc, <- app_comm_cons.
    change (length (t' :: ts) + 6 + fuel)%nat
      with (S (length ts + 6 + fuel)).
    rewrite (parse_elements_more _ (json_of_task t) _
               (stringify_items (tasks_json (t' :: ts)) ++ ch "]" :: rest)).
    + rewrite IH. reflexivity.
    + replace (length ts + 6 + fuel)%nat
        with (5 + (length ts + 1 + fuel))%nat by lia.
      apply parse_value_task.
Qed.

Lemma parse_value_tasks (fuel : nat) (ts : list Task) (rest : jsstring) :
  (length ts + 6 ≤ fuel)%nat →
  parse_value fuel (JSON_stringify (JArr (tasks_json ts)) ++ rest)
  = Parsed (JArr (tasks_json ts)) rest.
Proof.
  intros Hfuel. rewrite stringify_array.
  rewrite <- app_comm_cons, <- app_assoc.
  change ([ch "]"] ++ rest) with (ch "]" :: rest).
  destruct fuel as [|fuel]; [lia|].
  destruct ts as [|t ts]; [reflexivity|].
  transitivity
    (match parse_elements fuel
             (stringify_items (tasks_json (t :: ts)) ++ ch "]" :: rest) with
     | Parsed l rest' => Parsed (JArr l) rest'
     | Malformed => Malformed
     | OutOfFuel => OutOfFuel
     end).
  - assert (∃ text,
               stringify_items (tasks_json (t :: ts)) ++ ch "]" :: rest
               = ch "{" :: text) as [text ->]; [|reflexivity].
    destruct ts as [|t' ts].
    + change (stringify_items (tasks_json [t]))
        with (JSON_stringify (json_of_task t)).
      rewrite stringify_task. eauto.
    + change (stringify_items (tasks_json (t :: t' :: ts)))
        with (JSON_stringify (json_of_task t)
              ++ ch "," :: stringify_items (tasks_json (t' :: ts))).
      rewrite <- app_assoc, stringify_task. eauto.
  - simpl length in Hfuel.
    replace fuel with (length ts + 6 + (fuel - length ts - 6))%nat by lia.
    rewrite parse_elements_tasks. reflexivity.
Qed.

Lemma stringify_task_length (t : Task) :
  (1 ≤ length (JSON_stringify (json_of_task t)))%nat.
Proof.
  rewrite <- (app_nil_r (JSON_stringify _)), stringify_task. simpl. lia.
Qed.

Lemma stringify_items_length (ts : list Task) :
  (length ts ≤ length (stringify_items (tasks_json ts)))%nat.
Proof.
  induction ts as [|t [|t' ts] IH]; [simpl; lia| |].
  - simpl. pose proof (stringify_task_length t). simpl in *. lia.
  - change (stringify_items (tasks_json (t :: t' :: ts)))
      with (JSON_stringify (json_of_task t)
            ++ ch "," :: stringify_items (tasks_json (t' :: ts))).
    rewrite length_app. pose proof (stringify_task_length t).
    simpl length in *. lia.
Qed.

(** [JSON.parse(JSON.stringify(tasks))] is [tasks], for every list of task
    records. *)
Lemma JSON_parse_stringify_tasks (ts : list Task) :
  JSON_parse (JSON_stringify (JArr (tasks_json ts))) = Some (JArr (tasks_json ts)).
Proof.
  unfold JSON_parse.
  rewrite <- (app_nil_r (JSON_stringify _)) at 2.
  rewrite parse_value_tasks; [reflexivity|].
  rewrite stringify_array. simpl length. rewrite length_app.
  pose proof (stringify_items_length ts). simpl. lia.
Qed.

End TaskRoundTrip.

(** ** The callbacks on task records *)

Section TaskLists.

Lemma toggle_callback_task (task_id : jsstring) (t : Task) :
  toggle_callback task_id (json_of_task t)
  = Normal (json_of_task (toggled task_id t)).
Proof.
  unfold toggle_callback, toggled. simpl.
  destruct (bool_decide (id t = task_id)); reflexivity.
Qed.

Lemma array_map_cons {A B : Type} (f : A → completion B) (x : A)
    (y : B) (l : list A) :
  f x = Normal y →
  array_map f (x :: l)
  = match array_map f l with
    | Normal ys => Normal (y :: ys)
    | Throw e => Throw e
    end.
Proof. intros Hx. simpl. rewrite Hx. reflexivity. Qed.

Lemma array_filter_cons {A : Type} (f : A → completion bool) (x : A)
    (b : bool) (l : list A) :
  f x = Normal b →
  array_filter f (x :: l)
  = match array_filter f l with
    | Normal ys => Normal (if b then x :: ys else ys)
    | Throw e => Throw e
    end.
Proof. intros Hx. simpl. rewrite Hx. reflexivity. Qed.

Lemma array_map_toggle (task_id : jsstring) (ts : list Task) :
  array_map (toggle_callback task_id) (tasks_json ts)
  = Normal (tasks_json (map (toggled task_id) ts)).
Proof.
  induction ts as [|t ts IH]; [reflexivity|].
  change (tasks_json (t :: ts)) with (json_of_task t :: tasks_json ts).
  rewrite (array_map_cons _ _ _ _ (toggle_callback_task task_id t)), IH.
  reflexivity.
Qed.

Lemma delete_callback_task (task_id : jsstring) (t : Task) :
  delete_callback task_id (json_of_task t)
  = Normal (bool_decide (id t ≠ task_id)).
Proof.
  unfold delete_callback. simpl. f_equal.
  destruct (decide (id t = task_id)) as [Heq|Hne].
  - rewrite (bool_decide_eq_true_2 _ Heq), bool_decide_eq_false_2; [done|].
    intros Hne. exact (Hne Heq).
  - rewrite (bool_decide_eq_false_2 _ Hne), bool_decide_eq_true_2; done.
Qed.

Lemma array_filter_delete (task_id : jsstring) (ts : list Task) :
  array_filter (delete_callback task_id) (tasks_json ts)
  = Normal (tasks_json (filter (λ t, id t ≠ task_id) ts)).
Proof.
  induction ts as [|t ts IH]; [reflexivity|].
  change (tasks_json (t :: ts)) with (json_of_task t :: tasks_json ts).
  rewrite (array_filter_cons _ _ _ _ (delete_callback_task task_id t)), IH.
  destruct (decide (id t ≠ task_id)) as [Hne|Heq].
  - rewrite (bool_decide_eq_true_2 _ Hne), filter_cons_True by exact Hne.
    reflexivity.
  - rewrite (bool_decide_eq_false_2 _ Heq), filter_cons_False by exact Heq.
    reflexivity.
Qed.

Lemma toggled_twice (task_id : jsstring) (t : Task) :
  toggled task_id (toggled task_id t) = t.
Proof.
  unfold toggled. destruct (bool_decide (id t = task_id)) eqn:Heq.
  - simpl. rewrite Heq, negb_involutive. destruct t; reflexivity.
  - rewrite Heq. reflexivity.
Qed.

Lemma toggled_absent (task_id : jsstring) (ts : list Task) :
  task_id ∉ id <$> ts → map (toggled task_id) ts = ts.
Proof.
  induction ts as [|t ts IH]; [reflexivity|].
  rewrite fmap_cons, not_elem_of_cons. intros [Hne Hrest].
  simpl. rewrite IH by exact Hrest. f_equal.
  unfold toggled. rewrite bool_decide_eq_false_2; [reflexivity|].
  intros Heq. apply Hne. symmetry. exact Heq.
Qed.

Lemma filter_absent (task_id : jsstring) (ts : list Task) :
  task_id ∉ id <$> ts → filter (λ t, id t ≠ task_id) ts = ts.
Proof.
  induction ts as [|t ts IH]; [reflexivity|].
  rewrite fmap_cons, not_elem_of_cons. intros [Hne Hrest].
  rewrite filter_cons_True by (intros Heq; apply Hne; symmetry; exact Heq).
  rewrite IH by exact Hrest. reflexivity.
Qed.

End TaskLists.

(** ** What each action does to the world *)

Section Steps.

Lemma bind_normal {A B : Type} (m : Action A) (k : A → Action B) (w w' : World)
    (a : A) :
  m w = (Normal a, w') → (m ≫= k) w = k a w'.
Proof. intros H. unfold mbind, action_bind. rewrite H. reflexivity. Qed.

Lemma bind_throw {A B : Type} (m : Action A) (k : A → Action B) (w w' : World)
    (e : exception) :
  m w = (Throw e, w') → (m ≫= k) w = (Throw e, w').
Proof. intros H. unfold mbind, action_bind. rewrite H. reflexivity. Qed.

(** *** [localStorage.setItem] *)

Lemma setItem_app (k v : jsstring) (w : World) :
  app (localStorage_setItem k v w).2 = app w.
Proof. unfold localStorage_setItem. destruct (mode _); reflexivity. Qed.

Lemma setItem_trace (k v : jsstring) (w : World) :
  trace (localStorage_setItem k v w).2 = trace w ++ [SetItem k v].
Proof. unfold localStorage_setItem. destruct (mode _); reflexivity. Qed.

Lemma setItem_mode (k v : jsstring) (w : World) :
  mode (local_storage (localStorage_setItem k v w).2) = mode (local_storage w).
Proof.
  unfold localStorage_setItem.
  destruct (mode (local_storage w)) eqn:H; simpl; rewrite ?H; done.
Qed.

Lemma setItem_items (k v : jsstring) (w : World) :
  items (local_storage (localStorage_setItem k v w).2)
  = match mode (local_storage w) with
    | Available => <[k := v]> (items (local_storage w))
    | _ => items (local_storage w)
    end.
Proof. unfold localStorage_setItem. destruct (mode _); reflexivity. Qed.

Lemma setItem_result (k v : jsstring) (w : World) :
  (localStorage_setItem k v w).1
  = match mode (local_storage w) with
    | Available => Normal ()
    | QuotaExceeded => Throw QuotaExceededError
    | AccessDenied => Throw SecurityError
    end.
Proof. unfold localStorage_setItem. destruct (mode _); reflexivity. Qed.

(** *** [set] *)

(** The state is updated in every case, also when the write of the
    middleware throws. *)
Lemma set_app (p : list assignment) (w : World) :
  app (set p w).2 = merge (app w) p.
Proof.
  unfold set, setState, persist_setItem, mbind, action_bind, get,
    localStorage_setItem.
  destruct (mode (local_storage w)) eqn:H; simpl; rewrite ?H; reflexivity.
Qed.

Lemma set_mode (p : list assignment) (w : World) :
  mode (local_storage (set p w).2) = mode (local_storage w).
Proof.
  unfold set, setState, persist_setItem, mbind, action_bind, get,
    localStorage_setItem.
  destruct (mode (local_storage w)) eqn:H; simpl; rewrite ?H; simpl; done.
Qed.

Lemma set_result (p : list assignment) (w : World) :
  (set p w).1
  = match mode (local_storage w) with
    | QuotaExceeded => Throw QuotaExceededError
    | Available | AccessDenied => Normal ()
    end.
Proof.
  unfold set, setState, persist_setItem, mbind, action_bind, get,
    localStorage_setItem.
  destruct (mode (local_storage w)) eqn:H; simpl; rewrite ?H; reflexivity.
Qed.

Lemma set_items (p : list assignment) (w : World) :
  items (local_storage (set p w).2)
  = match mode (local_storage w) with
    | Available =>
        <[persist_name := persist_serialize (merge (app w) p)]>
          (items (local_storage w))
    | QuotaExceeded | AccessDenied => items (local_storage w)
    end.
Proof.
  unfold set, setState, persist_setItem, mbind, action_bind, get,
    localStorage_setItem.
  destruct (mode (local_storage w)) eqn:H; simpl; rewrite ?H; reflexivity.
Qed.

Lemma set_trace (p : list assignment) (w : World) :
  trace (set p w).2
  = trace w ++ match mode (local_storage w) with
               | Available | QuotaExceeded =>
                   [SetItem persist_name (persist_serialize (merge (app w) p))]
               | AccessDenied => []
               end.
Proof.
  unfold set, setState, persist_setItem, mbind, action_bind, get,
    localStorage_setItem.
  destruct (mode (local_storage w)) eqn:H; simpl; rewrite ?H, ?app_nil_r;
    reflexivity.
Qed.

Lemma set_lookup (p : list assignment) (w : World) (k : jsstring) :
  k ≠ persist_name →
  items (local_storage (set p w).2) !! k = items (local_storage w) !! k.
Proof.
  intros Hk. rewrite set_items.
  destruct (mode (local_storage w)); [|done..].
  apply lookup_insert_ne. done.
Qed.

Lemma surjective_result {A : Type} (x : completion A * World) : x = (x.1, x.2).
Proof. destruct x; reflexivity. Qed.

Lemma persist_name_ne : persist_name ≠ LOCAL_STORAGE_KEY.
Proof. discriminate. Qed.

(** What the middleware stores depends on the list and the flag only. *)
Lemma persist_serialize_ext (st st' : AppState) :
  tasks_list st = tasks_list st' →
  has_persisted_data st = has_persisted_data st' →
  persist_serialize st = persist_serialize st'.
Proof.
  intros Hl Hf. unfold persist_serialize, partialize. rewrite Hl, Hf.
  reflexivity.
Qed.

(** *** A [set] followed by the write-through *)

Lemma write_through_app (p : list assignment) (k v : jsstring) (w : World) :
  app ((set p;; localStorage_setItem k v) w).2 = merge (app w) p.
Proof.
  unfold mbind, action_bind.
  rewrite (surjective_result (set p w)), set_result.
  destruct (mode (local_storage w)); simpl;
    rewrite ?setItem_app; apply set_app.
Qed.

Lemma write_through_mode (p : list assignment) (k v : jsstring) (w : World) :
  mode (local_storage ((set p;; localStorage_setItem k v) w).2)
  = mode (local_storage w).
Proof.
  unfold mbind, action_bind.
  rewrite (surjective_result (set p w)), set_result.
  destruct (mode (local_storage w)) eqn:H; simpl;
    rewrite ?setItem_mode, set_mode; exact H.
Qed.

(** The action returns when the storage is available; when it has no room
    the exception is that of the write of the middleware, and the
    write-through is not reached; when access is denied the exception is
    that of the write-through. *)
Lemma write_through_result (p : list assignment) (k v : jsstring) (w : World) :
  ((set p;; localStorage_setItem k v) w).1
  = match mode (local_storage w) with
    | Available => Normal ()
    | QuotaExceeded => Throw QuotaExceededError
    | AccessDenied => Throw SecurityError
    end.
Proof.
  unfold mbind, action_bind.
  rewrite (surjective_result (set p w)), set_result.
  destruct (mode (local_storage w)) eqn:H; simpl; [| reflexivity |];
    rewrite setItem_result, set_mode, H; reflexivity.
Qed.

Lemma write_through_trace (p : list assignment) (k v : jsstring) (w : World) :
  trace ((set p;; localStorage_setItem k v) w).2
  = trace w ++ match mode (local_storage w) with
               | Available =>
                   [SetItem persist_name (persist_serialize (merge (app w) p));
                    SetItem k v]
               | QuotaExceeded =>
                   [SetItem persist_name (persist_serialize (merge (app w) p))]
               | AccessDenied => [SetItem k v]
               end.
Proof.
  unfold mbind, action_bind.
  rewrite (surjective_result (set p w)), set_result.
  destruct (mode (local_storage w)) eqn:H; simpl;
    rewrite ?setItem_trace, set_trace, H, <- ?app_assoc; reflexivity.
Qed.

Lemma write_through_items (p : list assignment) (k v : jsstring) (w : World) :
  items (local_storage ((set p;; localStorage_setItem k v) w).2)
  = match mode (local_storage w) with
    | Available =>
        <[k := v]>
          (<[persist_name := persist_serialize (merge (app w) p)]>
             (items (local_storage w)))
    | QuotaExceeded | AccessDenied => items (local_storage w)
    end.
Proof.
  unfold mbind, action_bind.
  rewrite (surjective_result (set p w)), set_result.
  destruct (mode (local_storage w)) eqn:H; simpl;
    rewrite ?setItem_items, ?set_mode, set_items, H; reflexivity.
Qed.

Lemma effects_of_trace {A : Type} (a : Action A) (w : World) (es : list effect) :
  trace (a w).2 = trace w ++ es → effects_of a w = es.
Proof. intros H. unfold effects_of. rewrite H. apply drop_app_length. Qed.

(** *** The three actions that write through, on a list of task records *)

Lemma toggle_task_completion_tasks (task_id : jsstring) (ts : list Task)
    (w : World) :
  tasks_list (app w) = tasks_json ts →
  toggle_task_completion task_id w
  = (set [Set_tasks_list (tasks_json (map (toggled task_id) ts))];;
     localStorage_setItem LOCAL_STORAGE_KEY
       (JSON_stringify (JArr (tasks_json (map (toggled task_id) ts))))) w.
Proof.
  intros Hts. unfold toggle_task_completion.
  unfold mbind at 1, action_bind at 1, get.
  unfold mbind at 1, action_bind at 1, lift.
  rewrite Hts, array_map_toggle. reflexivity.
Qed.

Lemma delete_task_tasks (task_id : jsstring) (ts : list Task) (w : World) :
  tasks_list (app w) = tasks_json ts →
  delete_task task_id w
  = (set [Set_tasks_list (tasks_json (filter (λ t, id t ≠ task_id) ts));
          Set_has_persisted_data
            (0 <? length (tasks_json (filter (λ t, id t ≠ task_id) ts)))%nat];;
     localStorage_setItem LOCAL_STORAGE_KEY
       (JSON_stringify
          (JArr (tasks_json (filter (λ t, id t ≠ task_id) ts))))) w.
Proof.
  intros Hts. unfold delete_task.
  unfold mbind at 1, action_bind at 1, get.
  unfold mbind at 1, action_bind at 1, lift.
  rewrite Hts, array_filter_delete. reflexivity.
Qed.

(** [add_new_task] in one piece: the two refusals, and the accepted case. *)
Lemma add_new_task_cases (now : Z) (w : World) :
  let trimmed := trim (task_input_description (app w)) in
  let refuse (message : jsstring) :=
    match set [Set_error_message (Some message)] w with
    | (Normal _, w1) =>
        (Normal false, record (SetTimeout ClearErrorMessage 3000) w1)
    | (Throw e, w1) => (Throw e, w1)
    end in
  add_new_task now w =
  if negb (nonempty trimmed) then refuse empty_message
  else if (256 <? Z.of_nat (length trimmed))%Z then refuse too_long_message
  else
    match
      (set [Set_tasks_list (tasks_list (app w) ++ [new_task now w]);
            Set_task_input_description [];
            Set_has_persisted_data true];;
       localStorage_setItem LOCAL_STORAGE_KEY
         (JSON_stringify (JArr (tasks_list (app w) ++ [new_task now w])))) w
    with
    | (Normal _, w1) => (Normal true, w1)
    | (Throw e, w1) => (Throw e, w1)
    end.
Proof.
  intros trimmed refuse. unfold add_new_task.
  unfold mbind at 1, action_bind at 1, get.
  fold trimmed.
  destruct (negb (nonempty trimmed)).
  - subst refuse. unfold mbind, action_bind, setTimeout, mret, action_ret.
    destruct (set _ w) as [[[]|e] w1]; reflexivity.
  - unfold TASK_DESCRIPTION_MAX_LENGTH.
    destruct (256 <? Z.of_nat (length trimmed))%Z.
    + subst refuse. unfold mbind, action_bind, setTimeout, mret, action_ret.
      destruct (set _ w) as [[[]|e] w1]; reflexivity.
    + unfold new_task. fold trimmed.
      unfold mbind, action_bind, mret, action_ret.
      destruct (set _ w) as [[[]|e] w1]; [|reflexivity].
      destruct (localStorage_setItem _ _ w1) as [[[]|e] w2]; reflexivity.
Qed.

End Steps.

(** ** Toggling and deleting *)

(** C7. For every list of tasks and every id, [toggle_task_completion]
    keeps the length and the order of the list, keeps the id and the
    description of every task, flips [completed] for the tasks whose id is
    the given one and keeps it for all others; when no task has the id the
    list is unchanged; and toggling a second time gives back the original
    list. *)
Theorem toggle_task_completion_flips (w : World) (ts : list Task)
    (task_id : jsstring) :
  tasks_list (app w) = tasks_json ts →
  let w1 := (toggle_task_completion task_id w).2 in
  let w2 := (toggle_task_completion task_id w1).2 in
  ∃ ts1 : list Task,
    tasks_list (app w1) = tasks_json ts1
    ∧ length ts1 = length ts
    ∧ (∀ (i : nat) (t : Task), ts !! i = Some t →
         ∃ t1 : Task,
           ts1 !! i = Some t1
           ∧ id t1 = id t
           ∧ description t1 = description t
           ∧ completed t1 = (if bool_decide (id t = task_id)
                             then negb (completed t) else completed t))
    ∧ (task_id ∉ id <$> ts → tasks_list (app w1) = tasks_list (app w))
    ∧ tasks_list (app w2) = tasks_list (app w).
Proof.
  intros Hts w1 w2.
  assert (Hw1 : tasks_list (app w1) = tasks_json (map (toggled task_id) ts)).
  { subst w1. rewrite (toggle_task_completion_tasks _ _ _ Hts), write_through_app.
    reflexivity. }
  exists (map (toggled task_id) ts). split; [exact Hw1|].
  split; [apply length_map|].
  split.
  - intros i t Hi. exists (toggled task_id t). split.
    + change (map (toggled task_id) ts) with (toggled task_id <$> ts).
      rewrite list_lookup_fmap, Hi. reflexivity.
    + unfold toggled. destruct (bool_decide (id t = task_id)); done.
  - split.
    + intros Habsent. rewrite Hw1, Hts, toggled_absent by exact Habsent.
      reflexivity.
    + subst w2. rewrite (toggle_task_completion_tasks _ _ _ Hw1), write_through_app.
      simpl. rewrite map_map, Hts. f_equal.
      rewrite <- (map_id ts) at 2. apply map_ext. apply toggled_twice.
Qed.

Lemma toggle_task_completion_flips_witness :
  let w := sample_world Available None in
  let w1 := (toggle_task_completion (str "1678901234789") w).2 in
  let w2 := (toggle_task_completion (str "1678901234789") w1).2 in
  ∃ ts1 : list Task,
    tasks_list (app w1) = tasks_json ts1
    ∧ length ts1 = length sample_tasks
    ∧ (∀ (i : nat) (t : Task), sample_tasks !! i = Some t →
         ∃ t1 : Task,
           ts1 !! i = Some t1
           ∧ id t1 = id t
           ∧ description t1 = description t
           ∧ completed t1 = (if bool_decide (id t = str "1678901234789")
                             then negb (completed t) else completed t))
    ∧ (str "1678901234789" ∉ id <$> sample_tasks →
       tasks_list (app w1) = tasks_list (app w))
    ∧ tasks_list (app w2) = tasks_list (app w).
Proof.
  apply (toggle_task_completion_flips (sample_world Available None) sample_tasks).
  reflexivity.
Defined.

(** C8. For every list of tasks and every id, [delete_task] leaves the tasks
    whose id differs from the given one, in their order: a task is in the new
    list exactly when it was in the old one with another id, and the new list
    is a subsequence of the old one; [has_persisted_data] becomes true exactly
    when the new list is not empty; when no task has the id the list is
    unchanged. *)
Theorem delete_task_removes (w : World) (ts : list Task) (task_id : jsstring) :
  tasks_list (app w) = tasks_json ts →
  let w1 := (delete_task task_id w).2 in
  let ts1 := filter (λ t, id t ≠ task_id) ts in
  tasks_list (app w1) = tasks_json ts1
  ∧ (∀ t : Task, t ∈ ts1 ↔ t ∈ ts ∧ id t ≠ task_id)
  ∧ ts1 `sublist_of` ts
  ∧ (has_persisted_data (app w1) = true ↔ ts1 ≠ [])
  ∧ (task_id ∉ id <$> ts → tasks_list (app w1) = tasks_list (app w)).
Proof.
  intros Hts w1 ts1.
  assert (Hw1 : app w1 = merge (app w)
            [Set_tasks_list (tasks_json ts1);
             Set_has_persisted_data (0 <? length (tasks_json ts1))%nat]).
  { subst w1 ts1. rewrite (delete_task_tasks _ _ _ Hts), write_through_app.
    reflexivity. }
  split; [rewrite Hw1; reflexivity|].
  split; [intros t; subst ts1; rewrite list_elem_of_filter; tauto|].
  split; [apply sublist_filter|].
  split.
  - rewrite Hw1. simpl. unfold tasks_json. rewrite length_map.
    destruct ts1; simpl; split; (done || lia).
  - intros Habsent. rewrite Hw1. simpl. subst ts1.
    rewrite filter_absent by exact Habsent. symmetry. exact Hts.
Qed.

Lemma delete_task_removes_witness :
  let w := sample_world Available None in
  let w1 := (delete_task (str "1678901234567") w).2 in
  let ts1 := filter (λ t, id t ≠ str "1678901234567") sample_tasks in
  tasks_list (app w1) = tasks_json ts1
  ∧ (∀ t : Task, t ∈ ts1 ↔ t ∈ sample_tasks ∧ id t ≠ str "1678901234567")
  ∧ ts1 `sublist_of` sample_tasks
  ∧ (has_persisted_data (app w1) = true ↔ ts1 ≠ [])
  ∧ (str "1678901234567" ∉ id <$> sample_tasks →
     tasks_list (app w1) = tasks_list (app w)).
Proof.
  apply (delete_task_removes (sample_world Available None) sample_tasks).
  reflexivity.
Defined.

(** ** Adding a task *)

Section Adding.

Lemma nonempty_false (s : jsstring) : nonempty s = false ↔ s = [].
Proof. destruct s; simpl; split; congruence. Qed.

Lemma snoc_ne {A : Type} (l : list A) (x : A) : l ++ [x] ≠ l.
Proof.
  intros Heq. apply (f_equal length) in Heq.
  rewrite length_app in Heq. simpl in Heq. lia.
Qed.

(** A refusal: the message is set, and the timer is started unless the
    write of the middleware threw. *)
Lemma add_new_task_refused (now : Z) (w : World) (message : jsstring) :
  let trimmed := trim (task_input_description (app w)) in
  (trimmed = [] ∧ message = empty_message)
  ∨ ((256 < length trimmed)%nat ∧ message = too_long_message) →
  add_new_task now w
  = match set [Set_error_message (Some message)] w with
    | (Normal _, w1) =>
        (Normal false, record (SetTimeout ClearErrorMessage 3000) w1)
    | (Throw e, w1) => (Throw e, w1)
    end.
Proof.
  intros trimmed H. rewrite add_new_task_cases. fold trimmed. cbv zeta.
  destruct H as [[Hempty ->]|[Hlong ->]].
  - rewrite Hempty. reflexivity.
  - destruct (nonempty trimmed) eqn:Hn;
      [|apply nonempty_false in Hn; rewrite Hn in Hlong; simpl in Hlong; lia].
    replace (256 <? Z.of_nat (length trimmed))%Z with true
      by (symmetry; apply Z.ltb_lt; lia).
    reflexivity.
Qed.

Lemma add_new_task_accepted (now : Z) (w : World) :
  let trimmed := trim (task_input_description (app w)) in
  trimmed ≠ [] → (length trimmed ≤ 256)%nat →
  add_new_task now w
  = match
      (set [Set_tasks_list (tasks_list (app w) ++ [new_task now w]);
            Set_task_input_description [];
            Set_has_persisted_data true];;
       localStorage_setItem LOCAL_STORAGE_KEY
         (JSON_stringify (JArr (tasks_list (app w) ++ [new_task now w])))) w
    with
    | (Normal _, w1) => (Normal true, w1)
    | (Throw e, w1) => (Throw e, w1)
    end.
Proof.
  intros trimmed Hne Hlen. rewrite add_new_task_cases. fold trimmed. cbv zeta.
  destruct (nonempty trimmed) eqn:Hn;
    [|apply nonempty_false in Hn; contradiction].
  replace (256 <? Z.of_nat (length trimmed))%Z with false
    by (symmetry; apply Z.ltb_ge; lia).
  reflexivity.
Qed.

(** The three ways in which [add_new_task] goes. *)
Lemma add_new_task_trichotomy (w : World) :
  let trimmed := trim (task_input_description (app w)) in
  trimmed = []
  ∨ (256 < length trimmed)%nat
  ∨ (trimmed ≠ [] ∧ (length trimmed ≤ 256)%nat).
Proof.
  intros trimmed. destruct (decide (trimmed = [])); [by left|].
  destruct (decide (256 < length trimmed)%nat); [by right; left|].
  right; right. split; [done|lia].
Qed.

Lemma returned_world {A B : Type} (x : completion A * World) (b : B)
    (f : World → World) :
  (match x with
   | (Normal _, w1) => (Normal b, f w1)
   | (Throw e, w1) => (Throw e, w1)
   end).2
  = match x.1 with Normal _ => f x.2 | Throw _ => x.2 end.
Proof. destruct x as [[a|e] w1]; reflexivity. Qed.

Lemma returned_result {A B : Type} (x : completion A * World) (b : B)
    (f : World → World) :
  (match x with
   | (Normal _, w1) => (Normal b, f w1)
   | (Throw e, w1) => (Throw e, w1)
   end).1
  = match x.1 with Normal _ => Normal b | Throw e => Throw e end.
Proof. destruct x as [[a|e] w1]; reflexivity. Qed.

(** The state after a refusal and after an accepted task, whatever the
    storage does. *)
Lemma add_new_task_refused_app (now : Z) (w : World) (message : jsstring) :
  let trimmed := trim (task_input_description (app w)) in
  (trimmed = [] ∧ message = empty_message)
  ∨ ((256 < length trimmed)%nat ∧ message = too_long_message) →
  app (add_new_task now w).2
  = merge (app w) [Set_error_message (Some message)].
Proof.
  intros trimmed H. rewrite (add_new_task_refused now w message H).
  rewrite returned_world.
  destruct ((set _ w).1); [unfold record; simpl|]; apply set_app.
Qed.

Lemma add_new_task_refused_lookup (now : Z) (w : World) (k : jsstring) :
  let trimmed := trim (task_input_description (app w)) in
  trimmed = [] ∨ (256 < length trimmed)%nat →
  k ≠ persist_name →
  items (local_storage (add_new_task now w).2) !! k
  = items (local_storage w) !! k.
Proof.
  intros trimmed H Hk.
  assert (H' : ∃ message : jsstring,
             (trimmed = [] ∧ message = empty_message)
             ∨ ((256 < length trimmed)%nat ∧ message = too_long_message))
    by (destruct H; eauto).
  destruct H' as [message H'].
  rewrite (add_new_task_refused now w message H'), returned_world.
  destruct ((set _ w).1); [unfold record; simpl|]; apply set_lookup, Hk.
Qed.

Lemma add_new_task_accepted_app (now : Z) (w : World) :
  let trimmed := trim (task_input_description (app w)) in
  trimmed ≠ [] → (length trimmed ≤ 256)%nat →
  app (add_new_task now w).2
  = merge (app w)
      [Set_tasks_list (tasks_list (app w) ++ [new_task now w]);
       Set_task_input_description [];
       Set_has_persisted_data true].
Proof.
  intros trimmed Hne Hlen. rewrite (add_new_task_accepted now w Hne Hlen).
  rewrite (returned_world _ true (λ w, w)).
  destruct (_.1); apply write_through_app.
Qed.

Lemma add_new_task_refused_result (now : Z) (w : World) :
  let trimmed := trim (task_input_description (app w)) in
  trimmed = [] ∨ (256 < length trimmed)%nat →
  (add_new_task now w).1
  = match mode (local_storage w) with
    | QuotaExceeded => Throw QuotaExceededError
    | Available | AccessDenied => Normal false
    end.
Proof.
  intros trimmed H.
  assert (H' : ∃ message : jsstring,
             (trimmed = [] ∧ message = empty_message)
             ∨ ((256 < length trimmed)%nat ∧ message = too_long_message))
    by (destruct H; eauto).
  destruct H' as [message H'].
  rewrite (add_new_task_refused now w message H'), returned_result, set_result.
  destruct (mode (local_storage w)); reflexivity.
Qed.

Lemma add_new_task_accepted_result (now : Z) (w : World) :
  let trimmed := trim (task_input_description (app w)) in
  trimmed ≠ [] → (length trimmed ≤ 256)%nat →
  (add_new_task now w).1
  = match mode (local_storage w) with
    | Available => Normal true
    | QuotaExceeded => Throw QuotaExceededError
    | AccessDenied => Throw SecurityError
    end.
Proof.
  intros trimmed Hne Hlen. rewrite (add_new_task_accepted now w Hne Hlen).
  rewrite (returned_result _ true (λ w, w)), write_through_result.
  destruct (mode (local_storage w)); reflexivity.
Qed.

End Adding.

(** ** Ids *)

(** C1. Two tasks added while [Date.now()] gives the same millisecond get the
    same id: after typing and adding twice at time 1678901234567, starting
    from the empty store, the list holds two tasks with equal ids. *)
Theorem add_new_task_same_millisecond :
  let w :=
    perform_all
      [Call_set_task_input_description (str "Buy milk");
       Call_add_new_task 1678901234567;
       Call_set_task_input_description (str "Call mom");
       Call_add_new_task 1678901234567]
      (initial_world empty_storage) in
  ∃ t1 t2 : Task,
    tasks_list (app w) = tasks_json [t1; t2]
    ∧ id t1 = id t2
    ∧ description t1 = str "Buy milk"
    ∧ description t2 = str "Call mom"
    ∧ ¬ NoDup (id <$> [t1; t2]).
Proof.
  exists {| id := str "1678901234567"; description := str "Buy milk";
            completed := false |},
         {| id := str "1678901234567"; description := str "Call mom";
            completed := false |}.
  split; [vm_compute; reflexivity|].
  repeat split.
  intros Hnodup. apply NoDup_cons in Hnodup as [Hnotin _].
  apply Hnotin. simpl. left.
Qed.

(** As long as the clock gives a reading whose text is not yet an id of the
    list, the ids stay pairwise distinct. *)
Section DistinctIds.

Lemma str_inj (s1 s2 : string) : str s1 = str s2 → s1 = s2.
Proof.
  unfold str. intros H.
  rewrite <- (string_of_list_ascii_of_string s1),
          <- (string_of_list_ascii_of_string s2).
  f_equal. revert H.
  generalize (list_ascii_of_string s1) (list_ascii_of_string s2).
  induction l as [|a l IH]; intros [|b l'] H; simpl in H;
    try discriminate; [reflexivity|].
  injection H as Hab Hl. f_equal; [|apply IH; exact Hl].
  rewrite <- (ascii_N_embedding a), Hab. apply ascii_N_embedding.
Qed.

Lemma number_to_string_inj (n m : Z) :
  number_to_string n = number_to_string m → n = m.
Proof.
  intros H. apply str_inj in H.
  apply DecimalZ.to_int_inj.
  assert (Hparse : ∀ z, NilZero.int_of_string (NilZero.string_of_int (Z.to_int z))
                        = Some (Z.to_int z)).
  { intros z. apply NilZero.isi; destruct z; simpl; try discriminate;
      intros [= Hnil]; exact (DecimalPos.Unsigned.to_uint_nonnil _ Hnil). }
  pose proof (Hparse n) as Hn. rewrite H, Hparse in Hn. congruence.
Qed.

Lemma add_new_task_keeps_ids_distinct (w : World) (ts : list Task) (now : Z) :
  tasks_list (app w) = tasks_json ts →
  NoDup (id <$> ts) →
  number_to_string now ∉ id <$> ts →
  ∃ ts1 : list Task,
    tasks_list (app (add_new_task now w).2) = tasks_json ts1
    ∧ NoDup (id <$> ts1).
Proof.
  intros Hts Hnodup Hfresh.
  destruct (add_new_task_trichotomy w) as [He|[Hl|[Hne Hlen]]].
  - rewrite (add_new_task_refused_app now w empty_message) by (left; done).
    exists ts. split; [exact Hts|exact Hnodup].
  - rewrite (add_new_task_refused_app now w too_long_message)
      by (right; done).
    exists ts. split; [exact Hts|exact Hnodup].
  - rewrite (add_new_task_accepted_app now w Hne Hlen).
    exists (ts ++ [ {| id := number_to_string now;
                       description := trim (task_input_description (app w));
                       completed := false |} ]).
    split; [simpl; rewrite Hts; unfold tasks_json, new_task; rewrite map_app;
            reflexivity|].
    rewrite fmap_app. apply NoDup_app. split; [exact Hnodup|].
    split; [|apply NoDup_singleton].
    intros x Hx Hin. apply list_elem_of_singleton in Hin. subst x. done.
Qed.

Lemma toggle_task_completion_keeps_ids (w : World) (ts : list Task)
    (task_id : jsstring) :
  tasks_list (app w) = tasks_json ts →
  ∃ ts1 : list Task,
    tasks_list (app (toggle_task_completion task_id w).2) = tasks_json ts1
    ∧ id <$> ts1 = id <$> ts.
Proof.
  intros Hts. exists (map (toggled task_id) ts).
  rewrite (toggle_task_completion_tasks _ _ _ Hts), write_through_app.
  split; [reflexivity|].
  change (map (toggled task_id) ts) with (toggled task_id <$> ts).
  rewrite <- list_fmap_compose. apply list_fmap_ext.
  intros _ t _. unfold toggled. simpl.
  destruct (bool_decide (id t = task_id)); reflexivity.
Qed.

Lemma delete_task_keeps_ids_distinct (w : World) (ts : list Task)
    (task_id : jsstring) :
  tasks_list (app w) = tasks_json ts →
  NoDup (id <$> ts) →
  ∃ ts1 : list Task,
    tasks_list (app (delete_task task_id w).2) = tasks_json ts1
    ∧ NoDup (id <$> ts1).
Proof.
  intros Hts Hnodup. exists (filter (λ t, id t ≠ task_id) ts).
  rewrite (delete_task_tasks _ _ _ Hts), write_through_app.
  split; [reflexivity|].
  apply (sublist_NoDup _ _ Hnodup), fmap_sublist, sublist_filter.
Qed.

(** Two different clock readings give two different ids. *)
Lemma distinct_readings_distinct_ids (now1 now2 : Z) :
  now1 ≠ now2 → number_to_string now1 ≠ number_to_string now2.
Proof. intros Hne Heq. apply Hne, number_to_string_inj, Heq. Qed.

End DistinctIds.

(** ** Storage failures *)

(** C2. In a storage that rejects writes, [toggle_task_completion],
    [delete_task] and [add_new_task] end with the [QuotaExceededError] of
    [localStorage.setItem]: it reaches the caller. (The write that throws
    first is the one the middleware makes inside [set]; no action has a
    [try] around its [set] or around its write-through.) The load action on
    a storage that denies access returns normally. *)
Theorem write_failure_reaches_caller :
  let w := sample_world QuotaExceeded None in
  (toggle_task_completion (str "1678901234567") w).1 = Throw QuotaExceededError
  ∧ (delete_task (str "1678901234567") w).1 = Throw QuotaExceededError
  ∧ (add_new_task 1678901235111
       (set_task_input_description (str "Water the plants") w).2).1
    = Throw QuotaExceededError
  ∧ (load_tasks_from_local_storage (sample_world AccessDenied None)).1
    = Normal ().
Proof. vm_compute. repeat split. Qed.

(** C5. With a valid input and a storage that rejects writes,
    [add_new_task] appends the task, clears the input and sets
    [has_persisted_data], and then ends with the exception of the write
    instead of returning [true]. *)
Theorem add_new_task_write_failure :
  let w :=
    (set_task_input_description (str "  Buy milk ")
       (initial_world {| items := ∅; mode := QuotaExceeded |})).2 in
  let r := (add_new_task 1678901234567 w).1 in
  let w1 := (add_new_task 1678901234567 w).2 in
  trim (task_input_description (app w)) = str "Buy milk"
  ∧ r = Throw QuotaExceededError
  ∧ r ≠ Normal true
  ∧ tasks_list (app w1)
    = tasks_json [ {| id := str "1678901234567"; description := str "Buy milk";
                      completed := false |} ]
  ∧ task_input_description (app w1) = []
  ∧ has_persisted_data (app w1) = true.
Proof. vm_compute. repeat split. discriminate. Qed.

(** ** Loading *)

(** Unfolds [load_tasks_from_local_storage] down to the tests on the
    storage. *)
Ltac unfold_load :=
  unfold load_tasks_from_local_storage, try_catch_finally, set, setState,
    persist_setItem, localStorage_getItem, localStorage_setItem, lift,
    console_error, JSON_parse_or_throw, mbind, action_bind, get, record,
    with_app, with_items; simpl.

(** Works through the tests on the mode of the storage. *)
Ltac by_mode H := repeat (progress (simpl; rewrite ?H)).

Section Loading.

(** [load_tasks_from_local_storage] throws exactly when the storage has no
    room: its first [set] is outside the [try]. *)
Lemma load_result (w : World) :
  (load_tasks_from_local_storage w).1
  = match mode (local_storage w) with
    | QuotaExceeded => Throw QuotaExceededError
    | Available | AccessDenied => Normal ()
    end.
Proof.
  unfold_load.
  destruct (mode (local_storage w)) eqn:Hmode; by_mode Hmode;
    [|reflexivity..].
  destruct (truthy _); by_mode Hmode; [|reflexivity].
  destruct (JSON_parse _) as [[]|]; by_mode Hmode; reflexivity.
Qed.

Lemma load_mode (w : World) :
  mode (local_storage (load_tasks_from_local_storage w).2)
  = mode (local_storage w).
Proof.
  unfold_load.
  destruct (mode (local_storage w)) eqn:Hmode; by_mode Hmode; [|done..].
  destruct (truthy _); by_mode Hmode; [|done].
  destruct (JSON_parse _) as [[]|]; by_mode Hmode; done.
Qed.

(** Loading writes no item but that of the middleware. *)
Lemma load_lookup (w : World) (k : jsstring) :
  k ≠ persist_name →
  items (local_storage (load_tasks_from_local_storage w).2) !! k
  = items (local_storage w) !! k.
Proof.
  intros Hk. unfold_load.
  destruct (mode (local_storage w)) eqn:Hmode; by_mode Hmode; [|done..].
  rewrite lookup_insert_ne by done.
  destruct (truthy _); by_mode Hmode;
    [|by rewrite !lookup_insert_ne by done].
  destruct (JSON_parse _) as [[]|]; by_mode Hmode;
    by rewrite !lookup_insert_ne by done.
Qed.

(** With no room in the storage, loading stops at its first [set]. *)
Lemma load_app_quota (w : World) :
  mode (local_storage w) = QuotaExceeded →
  app (load_tasks_from_local_storage w).2
  = merge (app w) [Set_is_loading_tasks true].
Proof. intros Hmode. unfold_load. by_mode Hmode. reflexivity. Qed.

Lemma load_app_denied (w : World) :
  mode (local_storage w) = AccessDenied →
  app (load_tasks_from_local_storage w).2
  = merge (app w)
      [Set_tasks_list [];
       Set_app_status local_storage_unavailable;
       Set_error_message
         (Some (str "Failed to load data from browser storage. Data might be corrupted or storage is full."));
       Set_has_persisted_data false;
       Set_is_loading_tasks false].
Proof. intros Hmode. unfold_load. by_mode Hmode. reflexivity. Qed.

Lemma load_app_available (w : World) (slot : option jsstring) :
  mode (local_storage w) = Available →
  items (local_storage w) !! LOCAL_STORAGE_KEY = slot →
  app (load_tasks_from_local_storage w).2
  = merge (app w)
      (match slot with
       | Some (c :: s) =>
           match JSON_parse (c :: s) with
           | Some (JArr elems) =>
               [Set_tasks_list elems;
                Set_has_persisted_data (0 <? length elems)%nat;
                Set_app_status initialized]
           | Some _ =>
               [Set_tasks_list [];
                Set_app_status error;
                Set_error_message
                  (Some (str "Corrupted data in local storage."))]
           | None =>
               [Set_tasks_list [];
                Set_app_status local_storage_unavailable;
                Set_error_message
                  (Some (str "Failed to load data from browser storage. Data might be corrupted or storage is full."));
                Set_has_persisted_data false]
           end
       | Some [] | None => [Set_tasks_list []; Set_has_persisted_data false]
       end
       ++ [Set_is_loading_tasks false]).
Proof.
  intros Hmode Hslot. unfold_load. by_mode Hmode.
  rewrite lookup_insert_ne by done. rewrite Hslot.
  destruct slot as [[|c s]|]; by_mode Hmode; [reflexivity| |reflexivity].
  destruct (JSON_parse (c :: s)) as [[]|]; by_mode Hmode; reflexivity.
Qed.

End Loading.

(** ** What is written, and where *)

Section Writes.

Lemma toggle_task_completion_mapped (task_id : jsstring) (w : World) :
  toggle_task_completion task_id w
  = match array_map (toggle_callback task_id) (tasks_list (app w)) with
    | Normal updated_tasks =>
        (set [Set_tasks_list updated_tasks];;
         localStorage_setItem LOCAL_STORAGE_KEY
           (JSON_stringify (JArr updated_tasks))) w
    | Throw e => (Throw e, w)
    end.
Proof.
  unfold toggle_task_completion.
  unfold mbind at 1, action_bind at 1, get.
  unfold mbind at 1, action_bind at 1, lift.
  destruct (array_map _ _); reflexivity.
Qed.

Lemma delete_task_filtered (task_id : jsstring) (w : World) :
  delete_task task_id w
  = match array_filter (delete_callback task_id) (tasks_list (app w)) with
    | Normal updated_tasks =>
        (set [Set_tasks_list updated_tasks;
              Set_has_persisted_data (0 <? length updated_tasks)%nat];;
         localStorage_setItem LOCAL_STORAGE_KEY
           (JSON_stringify (JArr updated_tasks))) w
    | Throw e => (Throw e, w)
    end.
Proof.
  unfold delete_task.
  unfold mbind at 1, action_bind at 1, get.
  unfold mbind at 1, action_bind at 1, lift.
  destruct (array_filter _ _); reflexivity.
Qed.

Lemma effects_of_nothing {A : Type} (a : Action A) (w : World) :
  (a w).2 = w → effects_of a w = [].
Proof. intros H. unfold effects_of. rewrite H. apply drop_all. Qed.

(** A [set] that changes the list, followed by the write-through of that
    list, writes the two items. *)
Lemma write_through_writes (p : list assignment) (l : list json) (w : World) :
  tasks_list (merge (app w) p) = l →
  writes_the_two_items
    (set p;; localStorage_setItem LOCAL_STORAGE_KEY (JSON_stringify (JArr l))) w.
Proof.
  intros Hl k v Hin.
  rewrite (effects_of_trace _ _ _ (write_through_trace p _ _ w)) in Hin.
  rewrite write_through_app, Hl.
  destruct (mode (local_storage w));
    repeat (apply elem_of_cons in Hin as [Hin|Hin];
            [injection Hin as -> ->; auto|]);
    by apply elem_of_nil in Hin.
Qed.

Lemma add_new_task_writes (now : Z) (w : World) :
  writes_the_two_items (add_new_task now) w.
Proof.
  assert (Hrefuse : ∀ message,
            add_new_task now w
            = match set [Set_error_message (Some message)] w with
              | (Normal _, w1) =>
                  (Normal false, record (SetTimeout ClearErrorMessage 3000) w1)
              | (Throw e, w1) => (Throw e, w1)
              end →
            writes_the_two_items (add_new_task now) w).
  { intros message Hrun k v Hin. unfold effects_of in Hin.
    rewrite Hrun, returned_world in Hin |- *.
    assert (Happ : app (match (set [Set_error_message (Some message)] w).1 with
                        | Normal _ =>
                            record (SetTimeout ClearErrorMessage 3000)
                              (set [Set_error_message (Some message)] w).2
                        | Throw _ => (set [Set_error_message (Some message)] w).2
                        end)
                   = merge (app w) [Set_error_message (Some message)])
      by (destruct (_.1); apply set_app).
    rewrite Happ. right.
    destruct ((set [Set_error_message (Some message)] w).1);
      [unfold record in Hin; simpl in Hin|];
      rewrite set_trace, <- ?app_assoc, drop_app_length in Hin;
      destruct (mode (local_storage w)); simpl in Hin;
      repeat (apply elem_of_cons in Hin as [Hin|Hin];
              [try discriminate Hin; injection Hin as -> ->; auto|]);
      by apply elem_of_nil in Hin. }
  destruct (add_new_task_trichotomy w) as [He|[Hl|[Hne Hlen]]].
  - apply (Hrefuse empty_message), add_new_task_refused. by left.
  - apply (Hrefuse too_long_message), add_new_task_refused. by right.
  - intros k v Hin. unfold effects_of in Hin.
    rewrite (add_new_task_accepted now w Hne Hlen) in Hin |- *.
    rewrite (returned_world _ true (λ w, w)) in Hin |- *.
    assert (Hsame : ∀ x : completion unit * World,
              match x.1 with Normal _ => x.2 | Throw _ => x.2 end = x.2)
      by (intros [[]]; reflexivity).
    rewrite Hsame in Hin |- *.
    exact (write_through_writes _ _ w eq_refl k v Hin).
Qed.

Lemma toggle_task_completion_writes (task_id : jsstring) (w : World) :
  writes_the_two_items (toggle_task_completion task_id) w.
Proof.
  intros k v Hin. unfold effects_of in Hin.
  rewrite toggle_task_completion_mapped in Hin |- *.
  destruct (array_map _ _) as [l|e].
  - exact (write_through_writes _ _ w eq_refl k v Hin).
  - simpl in Hin. rewrite drop_all in Hin. by apply elem_of_nil in Hin.
Qed.

Lemma delete_task_writes (task_id : jsstring) (w : World) :
  writes_the_two_items (delete_task task_id) w.
Proof.
  intros k v Hin. unfold effects_of in Hin.
  rewrite delete_task_filtered in Hin |- *.
  destruct (array_filter _ _) as [l|e].
  - exact (write_through_writes _ _ w eq_refl k v Hin).
  - simpl in Hin. rewrite drop_all in Hin. by apply elem_of_nil in Hin.
Qed.

Lemma load_effects (w : World) :
  ∃ es : list effect,
    trace (load_tasks_from_local_storage w).2 = trace w ++ es
    ∧ Forall load_effect_ok es
    ∧ (mode (local_storage w) ≠ QuotaExceeded →
       GetItem LOCAL_STORAGE_KEY ∈ es).
Proof.
  unfold_load.
  destruct (mode (local_storage w)) eqn:Hmode; by_mode Hmode.
  - destruct (truthy _); by_mode Hmode.
    + destruct (JSON_parse _) as [[]|]; by_mode Hmode;
        rewrite <- ?app_assoc; eexists; (split; [reflexivity|]);
        (split; [repeat constructor|intros _; set_solver]).
    + rewrite <- ?app_assoc; eexists; (split; [reflexivity|]);
        (split; [repeat constructor|intros _; set_solver]).
  - eexists. split; [reflexivity|]. split; [repeat constructor|done].
  - rewrite <- ?app_assoc. eexists. split; [reflexivity|].
    split; [repeat constructor|intros _; set_solver].
Qed.

Lemma load_reads_the_slot_always (w : World) : load_reads_the_slot w.
Proof.
  destruct (load_effects w) as (es & Htrace & Hok & Hget).
  unfold load_reads_the_slot.
  rewrite (effects_of_trace _ _ _ Htrace).
  rewrite Forall_forall in Hok.
  split; [intros k Hin; exact (Hok _ Hin)|].
  split; [intros k v Hin; exact (Hok _ Hin)|exact Hget].
Qed.

End Writes.

(** C3, as the code has it. Every [localStorage.setItem] made during
    [add_new_task], [toggle_task_completion] and [delete_task] writes one of
    two items. The write-through of the action is on the key
    [nex_task_tasks] and stores the JSON text of the array [tasks_list]
    itself: not an object, no [has_persisted_data]. The other write is that
    of the persist middleware inside [set]: under its own name,
    [nex_task_store], the text of
    [{ state: { tasks_list, has_persisted_data }, version: 0 }]. None of the
    transient fields is in either item. [load_tasks_from_local_storage]
    reads the key [nex_task_tasks] and no other, and never writes it. With
    an available storage and a list of task records, a toggle and a delete
    make exactly the two writes, the item of the middleware first. *)
Theorem write_through_stores_the_array (w : World) (now : Z)
    (task_id : jsstring) :
  writes_the_two_items (add_new_task now) w
  ∧ writes_the_two_items (toggle_task_completion task_id) w
  ∧ writes_the_two_items (delete_task task_id) w
  ∧ load_reads_the_slot w
  ∧ (∀ ts : list Task,
       tasks_list (app w) = tasks_json ts →
       mode (local_storage w) = Available →
       let wt := (toggle_task_completion task_id w).2 in
       let wd := (delete_task task_id w).2 in
       effects_of (toggle_task_completion task_id) w
       = [SetItem persist_name (persist_serialize (app wt));
          SetItem LOCAL_STORAGE_KEY
            (JSON_stringify (JArr (tasks_list (app wt))))]
       ∧ effects_of (delete_task task_id) w
         = [SetItem persist_name (persist_serialize (app wd));
            SetItem LOCAL_STORAGE_KEY
              (JSON_stringify (JArr (tasks_list (app wd))))])
  ∧ two_field_layout (JArr (tasks_list (app w))) = false
  ∧ persist_serialize (app w)
    = JSON_stringify
        (JObj [(str "state",
                JObj [(str "tasks_list", JArr (tasks_list (app w)));
                      (str "has_persisted_data",
                       JBool (has_persisted_data (app w)))]);
               (str "version", JNum zero)])
  ∧ two_field_layout (partialize (app w)) = true
  ∧ persist_name ≠ LOCAL_STORAGE_KEY.
Proof.
  split; [apply add_new_task_writes|].
  split; [apply toggle_task_completion_writes|].
  split; [apply delete_task_writes|].
  split; [apply load_reads_the_slot_always|].
  split.
  { intros ts Hts Hmode wt wd. subst wt wd. split.
    - unfold effects_of. rewrite (toggle_task_completion_tasks _ _ _ Hts).
      rewrite write_through_app, write_through_trace, Hmode, drop_app_length.
      reflexivity.
    - unfold effects_of. rewrite (delete_task_tasks _ _ _ Hts).
      rewrite write_through_app, write_through_trace, Hmode, drop_app_length.
      reflexivity. }
  repeat split. discriminate.
Qed.

(** C3 as stated fails: what the write-through of [add_new_task] stores for
    the first task, under [nex_task_tasks], is the text of a one-element
    array, which [JSON.parse] reads as an array and not as an object with the
    fields [tasks_list] and [has_persisted_data]; that slot is the one
    [load_tasks_from_local_storage] reads. The object with the two fields is
    in the other item, [nex_task_store], inside the property [state] of what
    the middleware stores. *)
Lemma add_new_task_stores_an_array :
  let w := (set_task_input_description (str "Buy milk")
              (initial_world empty_storage)).2 in
  let w1 := (add_new_task 1678901234567 w).2 in
  let l := tasks_json [ {| id := str "1678901234567";
                           description := str "Buy milk";
                           completed := false |} ] in
  let stored := JObj [(str "state",
                       JObj [(str "tasks_list", JArr l);
                             (str "has_persisted_data", JBool true)]);
                      (str "version", JNum zero)] in
  effects_of (add_new_task 1678901234567) w
  = [SetItem persist_name (JSON_stringify stored);
     SetItem LOCAL_STORAGE_KEY (JSON_stringify (JArr l))]
  ∧ items (local_storage w1) !! LOCAL_STORAGE_KEY
    = Some (JSON_stringify (JArr l))
  ∧ JSON_parse (JSON_stringify (JArr l)) = Some (JArr l)
  ∧ two_field_layout (JArr l) = false
  ∧ strip_prefix (str "[{") (JSON_stringify (JArr l)) ≠ None
  ∧ items (local_storage w1) !! persist_name = Some (JSON_stringify stored)
  ∧ JSON_parse (JSON_stringify stored) = Some stored
  ∧ two_field_layout stored = false
  ∧ GetItem LOCAL_STORAGE_KEY ∈ effects_of load_tasks_from_local_storage w1
  ∧ GetItem persist_name ∉ effects_of load_tasks_from_local_storage w1.
Proof.
  cbv zeta.
  split; [vm_compute; reflexivity|].
  split; [vm_compute; reflexivity|].
  split; [vm_compute; reflexivity|].
  split; [reflexivity|].
  split; [vm_compute; discriminate|].
  split; [vm_compute; reflexivity|].
  split; [vm_compute; reflexivity|].
  split; [reflexivity|].
  match goal with |- _ ∈ effects_of _ ?w ∧ _ =>
    destruct (load_reads_the_slot_always w) as (Hget & _ & Hread)
  end.
  split; [apply Hread; vm_compute; discriminate|].
  intros Hin. apply Hget in Hin. discriminate Hin.
Qed.

(** ** Loading an array *)




(** ** A refusal in a storage without room *)

(** C6. In a storage that rejects writes, [add_new_task] with an empty
    input does not return [false]: it ends with the [QuotaExceededError] of
    the write that the middleware makes inside
    [set({ error_message: ... })]. The message is set and the list is
    unchanged, but no timer is started, so nothing clears the message. An
    input of 257 characters goes the same way. *)
Theorem add_new_task_refusal_throws :
  let w := initial_world {| items := ∅; mode := QuotaExceeded |} in
  let long := (set_task_input_description (replicate 257 (ch "a")) w).2 in
  let r := (add_new_task 1678901234567 w).1 in
  let w1 := (add_new_task 1678901234567 w).2 in
  trim (task_input_description (app w)) = []
  ∧ r = Throw QuotaExceededError
  ∧ r ≠ Normal false
  ∧ tasks_list (app w1) = tasks_list (app w)
  ∧ error_message (app w1) = Some (str "Task cannot be empty.")
  ∧ effects_of (add_new_task 1678901234567) w
    = [SetItem persist_name (persist_serialize (app w))]
  ∧ length (trim (task_input_description (app long))) = 257%nat
  ∧ (add_new_task 1678901234567 long).1 = Throw QuotaExceededError
  ∧ tasks_list (app (add_new_task 1678901234567 long).2) = []
  ∧ error_message (app (add_new_task 1678901234567 long).2)
    = Some (str "Task is too long (max 256 characters).")
  ∧ effects_of (add_new_task 1678901234567) long
    = [SetItem persist_name (persist_serialize (app long))].
Proof. vm_compute. repeat split. discriminate. Qed.

(** ** Writing the list and loading it again *)

Section RoundTrip.

Lemma stringify_array_nonempty (l : list json) : JSON_stringify (JArr l) ≠ [].
Proof. rewrite stringify_array. discriminate. Qed.

(** An available storage whose slot holds the text of a list of task
    records gives that list to a load, whatever the state was. *)
Lemma load_gives_slot (w : World) (ts : list Task) :
  mode (local_storage w) = Available →
  items (local_storage w) !! LOCAL_STORAGE_KEY
  = Some (JSON_stringify (JArr (tasks_json ts))) →
  load_gives w (tasks_json ts).
Proof.
  intros Hmode Hslot st.
  assert (Hmode' : mode (local_storage (with_app w st)) = Available)
    by exact Hmode.
  assert (Hslot' : items (local_storage (with_app w st)) !! LOCAL_STORAGE_KEY
                   = Some (JSON_stringify (JArr (tasks_json ts))))
    by exact Hslot.
  rewrite load_result, Hmode'.
  rewrite (load_app_available _ _ Hmode' Hslot').
  destruct (JSON_stringify (JArr (tasks_json ts))) as [|c s] eqn:Htext;
    [by apply stringify_array_nonempty in Htext|].
  rewrite <- Htext, JSON_parse_stringify_tasks. done.
Qed.

(** After a [set] and a write-through of a list of task records that
    returned, the slot holds the text of the list and the storage is
    available. *)
Lemma write_through_slot (p : list assignment) (ts : list Task) (w : World) :
  ((set p;;
    localStorage_setItem LOCAL_STORAGE_KEY
      (JSON_stringify (JArr (tasks_json ts)))) w).1 = Normal () →
  load_gives
    ((set p;;
      localStorage_setItem LOCAL_STORAGE_KEY
        (JSON_stringify (JArr (tasks_json ts)))) w).2
    (tasks_json ts).
Proof.
  rewrite write_through_result. intros Hret.
  destruct (mode (local_storage w)) eqn:Hmode; try discriminate.
  apply load_gives_slot.
  - rewrite write_through_mode. exact Hmode.
  - rewrite write_through_items, Hmode. apply lookup_insert_eq.
Qed.

End RoundTrip.

(** C9. For every list of tasks: after an [add_new_task],
    [toggle_task_completion] or [delete_task] whose writes went through (the
    action returned; for [add_new_task], returned [true]), the store holds
    the list the action made, and [load_tasks_from_local_storage] brings
    that very list back from the storage, element by element and in the same
    order, in whatever state the store is when it loads: that of a page
    opened anew, with an empty list, as well as any other. *)
Theorem write_through_then_load (w : World) (ts : list Task) (now : Z)
    (task_id : jsstring) :
  tasks_list (app w) = tasks_json ts →
  let added :=
    ts ++ [ {| id := number_to_string now;
               description := trim (task_input_description (app w));
               completed := false |} ] in
  ((add_new_task now w).1 = Normal true →
   tasks_list (app (add_new_task now w).2) = tasks_json added
   ∧ load_gives (add_new_task now w).2 (tasks_json added))
  ∧ ((toggle_task_completion task_id w).1 = Normal () →
     tasks_list (app (toggle_task_completion task_id w).2)
     = tasks_json (map (toggled task_id) ts)
     ∧ load_gives (toggle_task_completion task_id w).2
         (tasks_json (map (toggled task_id) ts)))
  ∧ ((delete_task task_id w).1 = Normal () →
     tasks_list (app (delete_task task_id w).2)
     = tasks_json (filter (λ t, id t ≠ task_id) ts)
     ∧ load_gives (delete_task task_id w).2
         (tasks_json (filter (λ t, id t ≠ task_id) ts))).
Proof.
  intros Hts added. split; [|split].
  - intros Hret.
    assert (Hnew : tasks_list (app w) ++ [new_task now w] = tasks_json added).
    { rewrite Hts. subst added. unfold tasks_json. rewrite map_app.
      reflexivity. }
    destruct (add_new_task_trichotomy w) as [He|[Hl|[Hne Hlen]]].
    + rewrite add_new_task_refused_result in Hret by (by left).
      destruct (mode (local_storage w)); discriminate.
    + rewrite add_new_task_refused_result in Hret by (by right).
      destruct (mode (local_storage w)); discriminate.
    + rewrite (add_new_task_accepted now w Hne Hlen) in Hret |- *.
      rewrite Hnew in Hret |- *.
      rewrite (returned_result _ true (λ w, w)) in Hret.
      rewrite (returned_world _ true (λ w, w)).
      set (p := [Set_tasks_list (tasks_json added);
                 Set_task_input_description [];
                 Set_has_persisted_data true]) in *.
      pose proof (write_through_slot p added w) as Hload.
      pose proof (write_through_app p LOCAL_STORAGE_KEY
                    (JSON_stringify (JArr (tasks_json added))) w) as Happ.
      destruct ((set p;;
                 localStorage_setItem LOCAL_STORAGE_KEY
                   (JSON_stringify (JArr (tasks_json added)))) w)
        as [[[]|e] w1]; [|discriminate].
      simpl in *. split; [rewrite Happ; reflexivity|].
      apply Hload. reflexivity.
  - rewrite (toggle_task_completion_tasks _ _ _ Hts). intros Hret.
    split; [rewrite write_through_app; reflexivity|].
    apply write_through_slot, Hret.
  - rewrite (delete_task_tasks _ _ _ Hts). intros Hret.
    split; [rewrite write_through_app; reflexivity|].
    apply write_through_slot, Hret.
Qed.

Lemma write_through_then_load_witness :
  let w := (set_task_input_description (str "Book dental appointment")
              (sample_world Available None)).2 in
  let now := 1678901234999%Z in
  let task_id := str "1678901234789" in
  let added :=
    sample_tasks
    ++ [ {| id := str "1678901234999";
            description := str "Book dental appointment";
            completed := false |} ] in
  ((add_new_task now w).1 = Normal true
   ∧ (toggle_task_completion task_id w).1 = Normal ()
   ∧ (delete_task task_id w).1 = Normal ())
  ∧ ((add_new_task now w).1 = Normal true →
     tasks_list (app (add_new_task now w).2) = tasks_json added
     ∧ load_gives (add_new_task now w).2 (tasks_json added))
  ∧ ((toggle_task_completion task_id w).1 = Normal () →
     tasks_list (app (toggle_task_completion task_id w).2)
     = tasks_json (map (toggled task_id) sample_tasks)
     ∧ load_gives (toggle_task_completion task_id w).2
         (tasks_json (map (toggled task_id) sample_tasks)))
  ∧ ((delete_task task_id w).1 = Normal () →
     tasks_list (app (delete_task task_id w).2)
     = tasks_json (filter (λ t, id t ≠ task_id) sample_tasks)
     ∧ load_gives (delete_task task_id w).2
         (tasks_json (filter (λ t, id t ≠ task_id) sample_tasks))).
Proof.
  split; [vm_compute; repeat split|].
  apply (write_through_then_load
           (set_task_input_description (str "Book dental appointment")
              (sample_world Available None)).2
           sample_tasks 1678901234999 (str "1678901234789")).
  reflexivity.
Defined.

(** ** Ids that are not in the list *)

Section AbsentIds.


End AbsentIds.




(** * More of the store, the page and the schemas *)

(** ** Loading *)

Section LoadingTwice.

Lemma merge_merge (st : AppState) (p q : list assignment) :
  merge (merge st p) q = merge st (p ++ q).
Proof. unfold merge. rewrite fold_left_app. reflexivity. Qed.

(** The state after a second load in a row. *)
Lemma load_load_state (w : World) :
  app (load_tasks_from_local_storage (load_tasks_from_local_storage w).2).2
  = app (load_tasks_from_local_storage w).2.
Proof.
  pose proof (load_mode w) as Hm.
  pose proof (load_lookup w LOCAL_STORAGE_KEY
                ltac:(intros H; symmetry in H; exact (persist_name_ne H)))
    as Hs.
  destruct (mode (local_storage w)) eqn:Hmode.
  - rewrite (load_app_available _ _ Hm Hs).
    rewrite (load_app_available _ _ Hmode eq_refl).
    destruct (items (local_storage w) !! LOCAL_STORAGE_KEY) as [[|c s]|];
      [reflexivity| |reflexivity].
    destruct (JSON_parse (c :: s)) as [[]|]; reflexivity.
  - rewrite (load_app_quota _ Hm), (load_app_quota _ Hmode). reflexivity.
  - rewrite (load_app_denied _ Hm), (load_app_denied _ Hmode). reflexivity.
Qed.

Lemma load_ends_loading (w : World) :
  mode (local_storage w) ≠ QuotaExceeded →
  is_loading_tasks (app (load_tasks_from_local_storage w).2) = false.
Proof.
  intros Hnot. destruct (mode (local_storage w)) eqn:Hmode; [|done|].
  - rewrite (load_app_available _ _ Hmode eq_refl).
    destruct (items (local_storage w) !! LOCAL_STORAGE_KEY) as [[|c s]|];
      [reflexivity| |reflexivity].
    destruct (JSON_parse (c :: s)) as [[]|]; reflexivity.
  - rewrite (load_app_denied _ Hmode). reflexivity.
Qed.

Lemma load_input (w : World) :
  task_input_description (app (load_tasks_from_local_storage w).2)
  = task_input_description (app w).
Proof.
  destruct (mode (local_storage w)) eqn:Hmode.
  - rewrite (load_app_available _ _ Hmode eq_refl).
    destruct (items (local_storage w) !! LOCAL_STORAGE_KEY) as [[|c s]|];
      [reflexivity| |reflexivity].
    destruct (JSON_parse (c :: s)) as [[]|]; reflexivity.
  - rewrite (load_app_quota _ Hmode). reflexivity.
  - rewrite (load_app_denied _ Hmode). reflexivity.
Qed.

End LoadingTwice.

(** X1. [load_tasks_from_local_storage] throws exactly when the storage has
    no room: its first [set] is outside the [try], and the write of the
    middleware throws there. In that case nothing is read, the one change to
    the state is [is_loading_tasks = true], and the items of the storage are
    as they were. In every other case the action returns and
    [is_loading_tasks] is false. In all cases the text of the input and the
    slot of the list are as they were. *)
Theorem load_throws_only_without_room (w : World) :
  let w1 := (load_tasks_from_local_storage w).2 in
  match mode (local_storage w) with
  | QuotaExceeded =>
      (load_tasks_from_local_storage w).1 = Throw QuotaExceededError
      ∧ app w1 = merge (app w) [Set_is_loading_tasks true]
      ∧ items (local_storage w1) = items (local_storage w)
      ∧ effects_of load_tasks_from_local_storage w
        = [SetItem persist_name (persist_serialize (app w))]
  | Available | AccessDenied =>
      (load_tasks_from_local_storage w).1 = Normal ()
      ∧ is_loading_tasks (app w1) = false
  end
  ∧ task_input_description (app w1) = task_input_description (app w)
  ∧ items (local_storage w1) !! LOCAL_STORAGE_KEY
    = items (local_storage w) !! LOCAL_STORAGE_KEY
  ∧ mode (local_storage w1) = mode (local_storage w).
Proof.
  cbv zeta. split; [|split; [apply load_input|split; [|apply load_mode]]].
  - rewrite load_result.
    destruct (mode (local_storage w)) eqn:Hmode.
    + split; [reflexivity|]. apply load_ends_loading. rewrite Hmode. done.
    + split; [reflexivity|]. split; [apply load_app_quota, Hmode|].
      unfold effects_of. unfold_load. by_mode Hmode.
      rewrite drop_app_length. done.
    + split; [reflexivity|]. apply load_ends_loading. rewrite Hmode. done.
  - apply load_lookup. intros H. symmetry in H. exact (persist_name_ne H).
Qed.

(** X2. With an available storage whose slot is absent or holds the empty
    string, loading returns, empties the list, sets [has_persisted_data] to
    false and ends the loading; it leaves [app_status] and [error_message] as
    they were, so a store in status [error] stays in status [error]. It
    reads the slot once, the other storage calls are the three writes of the
    middleware, and nothing is logged. *)
Theorem load_absent_slot (w : World) :
  mode (local_storage w) = Available →
  items (local_storage w) !! LOCAL_STORAGE_KEY = None
  ∨ items (local_storage w) !! LOCAL_STORAGE_KEY = Some ([] : jsstring) →
  let w1 := (load_tasks_from_local_storage w).2 in
  (load_tasks_from_local_storage w).1 = Normal ()
  ∧ app w1 = merge (app w) [Set_tasks_list []; Set_has_persisted_data false;
                            Set_is_loading_tasks false]
  ∧ app_status (app w1) = app_status (app w)
  ∧ error_message (app w1) = error_message (app w)
  ∧ effects_of load_tasks_from_local_storage w
    = [SetItem persist_name (persist_serialize (app w));
       GetItem LOCAL_STORAGE_KEY;
       SetItem persist_name (persist_serialize (app w1));
       SetItem persist_name (persist_serialize (app w1))].
Proof.
  intros Hmode Hslot. cbv zeta.
  split; [rewrite load_result, Hmode; reflexivity|].
  assert (Happ : app (load_tasks_from_local_storage w).2
                 = merge (app w) [Set_tasks_list []; Set_has_persisted_data false;
                                  Set_is_loading_tasks false]).
  { destruct Hslot as [Hs|Hs];
      rewrite (load_app_available _ _ Hmode Hs); destruct (app w);
      reflexivity. }
  split; [exact Happ|].
  split; [rewrite Happ; reflexivity|].
  split; [rewrite Happ; reflexivity|].
  rewrite Happ. unfold effects_of. unfold_load. by_mode Hmode.
  rewrite lookup_insert_ne by done.
  destruct Hslot as [Hs|Hs]; rewrite Hs; by_mode Hmode;
    rewrite <- ?app_assoc, drop_app_length; reflexivity.
Qed.

Lemma load_absent_slot_witness :
  let w := with_app (initial_world empty_storage)
             (merge initial_state
                [Set_app_status error;
                 Set_error_message
                   (Some (str "Corrupted data in local storage."))]) in
  let w1 := (load_tasks_from_local_storage w).2 in
  app_status (app w) = error
  ∧ (load_tasks_from_local_storage w).1 = Normal ()
  ∧ app w1 = merge (app w) [Set_tasks_list []; Set_has_persisted_data false;
                            Set_is_loading_tasks false]
  ∧ app_status (app w1) = app_status (app w)
  ∧ error_message (app w1) = error_message (app w)
  ∧ effects_of load_tasks_from_local_storage w
    = [SetItem persist_name (persist_serialize (app w));
       GetItem LOCAL_STORAGE_KEY;
       SetItem persist_name (persist_serialize (app w1));
       SetItem persist_name (persist_serialize (app w1))].
Proof.
  split; [reflexivity|].
  apply (load_absent_slot
           (with_app (initial_world empty_storage)
              (merge initial_state
                 [Set_app_status error;
                  Set_error_message
                    (Some (str "Corrupted data in local storage."))]))).
  - reflexivity.
  - left. reflexivity.
Defined.

(** X3. When the browser denies access to the storage, loading ends with an
    empty list, [has_persisted_data] false, [app_status] set to
    [local_storage_unavailable] and the message of the storage failure; the
    failure is logged and the action returns. *)
Theorem load_access_denied (w : World) :
  mode (local_storage w) = AccessDenied →
  let w1 := (load_tasks_from_local_storage w).2 in
  app w1
  = merge (app w)
      [Set_tasks_list [];
       Set_app_status local_storage_unavailable;
       Set_error_message
         (Some (str "Failed to load data from browser storage. Data might be corrupted or storage is full."));
       Set_has_persisted_data false;
       Set_is_loading_tasks false]
  ∧ trace w1
    = trace w ++ [GetItem LOCAL_STORAGE_KEY;
                  ConsoleError (str "Failed to load or parse tasks from localStorage:")]
  ∧ (load_tasks_from_local_storage w).1 = Normal ().
Proof.
  intros Hmode. unfold_load. by_mode Hmode.
  rewrite <- app_assoc. done.
Qed.

Lemma load_access_denied_witness :
  let w := sample_world AccessDenied None in
  let w1 := (load_tasks_from_local_storage w).2 in
  app w1
  = merge (app w)
      [Set_tasks_list [];
       Set_app_status local_storage_unavailable;
       Set_error_message
         (Some (str "Failed to load data from browser storage. Data might be corrupted or storage is full."));
       Set_has_persisted_data false;
       Set_is_loading_tasks false]
  ∧ trace w1
    = trace w ++ [GetItem LOCAL_STORAGE_KEY;
                  ConsoleError (str "Failed to load or parse tasks from localStorage:")]
  ∧ (load_tasks_from_local_storage w).1 = Normal ().
Proof.
  apply (load_access_denied (sample_world AccessDenied None)). reflexivity.
Defined.

(** X4. Loading twice in a row leaves the state that loading once leaves. *)
Theorem load_twice (w : World) :
  app (load_tasks_from_local_storage (load_tasks_from_local_storage w).2).2
  = app (load_tasks_from_local_storage w).2.
Proof. apply load_load_state. Qed.

(** ** Typing, and what a refused task leaves alone *)

Section Typing.

(** [set_task_input_description] in one piece. *)
Lemma set_task_input_description_cases (text : jsstring) (w : World) :
  set_task_input_description text w
  = match set [Set_task_input_description text] w with
    | (Normal _, w1) =>
        if truthy (JStr <$> error_message (app w1))
        then clear_error_message w1
        else (Normal (), w1)
    | (Throw e, w1) => (Throw e, w1)
    end.
Proof.
  unfold set_task_input_description, mbind, action_bind, get.
  destruct (set _ w) as [[[]|e] w1]; [|reflexivity].
  destruct (truthy _); reflexivity.
Qed.

(** The state after typing: the text is in the input; the message is
    removed when there was one and the first write went through. *)
Lemma set_task_input_description_app (text : jsstring) (w : World) :
  app (set_task_input_description text w).2
  = merge (app w)
      (Set_task_input_description text
       :: match mode (local_storage w) with
          | QuotaExceeded => []
          | Available | AccessDenied =>
              if truthy (JStr <$> error_message (app w))
              then [Set_error_message None] else []
          end).
Proof.
  rewrite set_task_input_description_cases.
  pose proof (set_app [Set_task_input_description text] w) as Happ.
  pose proof (set_result [Set_task_input_description text] w) as Hres.
  destruct (set [Set_task_input_description text] w) as [r w1].
  simpl in Happ, Hres. subst r.
  destruct (mode (local_storage w)); [|exact Happ|];
    rewrite Happ; simpl;
    (destruct (truthy (JStr <$> error_message (app w))); [|exact Happ]);
    unfold clear_error_message; rewrite set_app, Happ; reflexivity.
Qed.

Lemma set_task_input_description_result (text : jsstring) (w : World) :
  (set_task_input_description text w).1
  = match mode (local_storage w) with
    | QuotaExceeded => Throw QuotaExceededError
    | Available | AccessDenied => Normal ()
    end.
Proof.
  rewrite set_task_input_description_cases.
  pose proof (set_mode [Set_task_input_description text] w) as Hmode.
  pose proof (set_result [Set_task_input_description text] w) as Hres.
  destruct (set [Set_task_input_description text] w) as [r w1].
  simpl in Hmode, Hres. subst r.
  destruct (mode (local_storage w)) eqn:Hm; [|reflexivity|];
    (destruct (truthy _); [|reflexivity]);
    unfold clear_error_message; rewrite set_result, Hmode; reflexivity.
Qed.

Lemma set_task_input_description_lookup (text k : jsstring) (w : World) :
  k ≠ persist_name →
  items (local_storage (set_task_input_description text w).2) !! k
  = items (local_storage w) !! k.
Proof.
  intros Hk. rewrite set_task_input_description_cases.
  pose proof (set_items [Set_task_input_description text] w) as Hitems.
  destruct (set [Set_task_input_description text] w) as [[[]|e] w1];
    simpl in Hitems.
  - assert (Hw1 : items (local_storage w1) !! k = items (local_storage w) !! k).
    { rewrite Hitems. destruct (mode (local_storage w)); [|done..].
      apply lookup_insert_ne. done. }
    destruct (truthy _); [|exact Hw1].
    unfold clear_error_message. rewrite set_items.
    destruct (mode (local_storage w1)); [|exact Hw1..].
    rewrite lookup_insert_ne by done. exact Hw1.
  - simpl. rewrite Hitems. destruct (mode (local_storage w)); [|done..].
    apply lookup_insert_ne. done.
Qed.

Lemma set_task_input_description_mode (text : jsstring) (w : World) :
  mode (local_storage (set_task_input_description text w).2)
  = mode (local_storage w).
Proof.
  rewrite set_task_input_description_cases.
  pose proof (set_mode [Set_task_input_description text] w) as Hmode.
  destruct (set [Set_task_input_description text] w) as [[[]|e] w1];
    simpl in Hmode; [|exact Hmode].
  destruct (truthy _); [|exact Hmode].
  unfold clear_error_message. rewrite set_mode. exact Hmode.
Qed.

End Typing.

(** X5. [set_task_input_description] puts the given text in the input as it
    is (no trimming, no limit) and leaves the list, the flags, the status
    and the slot of the list as they were. Unless the storage has no room it
    returns and leaves no message showing. With no room it throws after the
    text is stored, and a message that was showing stays. *)
Theorem typing_sets_text_and_dismisses_message (w : World) (text : jsstring) :
  let w1 := (set_task_input_description text w).2 in
  task_input_description (app w1) = text
  ∧ tasks_list (app w1) = tasks_list (app w)
  ∧ has_persisted_data (app w1) = has_persisted_data (app w)
  ∧ app_status (app w1) = app_status (app w)
  ∧ is_loading_tasks (app w1) = is_loading_tasks (app w)
  ∧ items (local_storage w1) !! LOCAL_STORAGE_KEY
    = items (local_storage w) !! LOCAL_STORAGE_KEY
  ∧ match mode (local_storage w) with
    | QuotaExceeded =>
        (set_task_input_description text w).1 = Throw QuotaExceededError
        ∧ error_message (app w1) = error_message (app w)
    | Available | AccessDenied =>
        (set_task_input_description text w).1 = Normal ()
        ∧ truthy (JStr <$> error_message (app w1)) = false
        ∧ (truthy (JStr <$> error_message (app w)) = true →
           error_message (app w1) = None)
    end.
Proof.
  cbv zeta.
  rewrite set_task_input_description_app, set_task_input_description_result.
  rewrite set_task_input_description_lookup
    by (intros H; symmetry in H; exact (persist_name_ne H)).
  destruct (mode (local_storage w));
    [destruct (truthy (JStr <$> error_message (app w))) eqn:Hmsg|
     |destruct (truthy (JStr <$> error_message (app w))) eqn:Hmsg];
    simpl; repeat split; try done.
Qed.

(** X6. When [add_new_task] returns [false], the one thing it changed in the
    state is [error_message], now a non-empty message: the text of the input
    is kept as typed (neither cleared nor trimmed), the list, the flags and
    the status are as they were, and so is the slot of the list. The last
    thing it did was to start the timer that clears the message. *)
Theorem refused_add_changes_only_the_message (w : World) (now : Z) :
  (add_new_task now w).1 = Normal false →
  let w1 := (add_new_task now w).2 in
  ∃ message : jsstring,
    message ≠ []
    ∧ app w1 = merge (app w) [Set_error_message (Some message)]
    ∧ task_input_description (app w1) = task_input_description (app w)
    ∧ items (local_storage w1) !! LOCAL_STORAGE_KEY
      = items (local_storage w) !! LOCAL_STORAGE_KEY
    ∧ last (trace w1) = Some (SetTimeout ClearErrorMessage 3000).
Proof.
  intros Hret w1. subst w1.
  assert (Hrefused : ∃ message : jsstring,
            message ≠ []
            ∧ ((trim (task_input_description (app w)) = []
                ∧ message = empty_message)
               ∨ ((256 < length (trim (task_input_description (app w))))%nat
                  ∧ message = too_long_message))).
  { destruct (add_new_task_trichotomy w) as [He|[Hl|[Hne Hlen]]].
    - exists empty_message. split; [vm_compute; discriminate|]. left. done.
    - exists too_long_message. split; [vm_compute; discriminate|].
      right. done.
    - rewrite (add_new_task_accepted_result now w Hne Hlen) in Hret.
      destruct (mode (local_storage w)); discriminate. }
  destruct Hrefused as (message & Hne & Hcase).
  exists message. split; [exact Hne|].
  split; [apply add_new_task_refused_app, Hcase|].
  split; [rewrite (add_new_task_refused_app now w message Hcase); reflexivity|].
  rewrite (add_new_task_refused now w message Hcase) in Hret |- *.
  pose proof (set_items [Set_error_message (Some message)] w) as Hitems.
  destruct (set [Set_error_message (Some message)] w) as [[[]|e] w1];
    [|simpl in Hret; discriminate Hret].
  simpl in *. split; [|apply last_snoc].
  rewrite Hitems. destruct (mode (local_storage w)); [|done..].
  apply lookup_insert_ne. exact persist_name_ne.
Qed.

Lemma refused_add_changes_only_the_message_witness :
  let w := (set_task_input_description (str "   ")
              (sample_world Available None)).2 in
  let w1 := (add_new_task 1678901235999 w).2 in
  (add_new_task 1678901235999 w).1 = Normal false
  ∧ ∃ message : jsstring,
      message ≠ []
      ∧ app w1 = merge (app w) [Set_error_message (Some message)]
      ∧ task_input_description (app w1) = task_input_description (app w)
      ∧ items (local_storage w1) !! LOCAL_STORAGE_KEY
        = items (local_storage w) !! LOCAL_STORAGE_KEY
      ∧ last (trace w1) = Some (SetTimeout ClearErrorMessage 3000).
Proof.
  split; [vm_compute; reflexivity|].
  apply (refused_add_changes_only_the_message
           (set_task_input_description (str "   ")
              (sample_world Available None)).2
           1678901235999).
  vm_compute. reflexivity.
Defined.

(** X14. With a valid input and an available storage, [add_new_task]
    returns [true]; the new task, with the clock reading as id, the trimmed
    input as description and [completed] false, is the last of the list and
    the tasks before it are as they were; the input is empty and
    [has_persisted_data] true; nothing else changed in the state. It makes
    two writes: the item of the middleware, then the slot of the list, which
    holds the text of the new list afterwards. *)
Theorem add_new_task_accepts (w : World) (now : Z) :
  let trimmed := trim (task_input_description (app w)) in
  trimmed ≠ [] →
  (length trimmed ≤ 256)%nat →
  mode (local_storage w) = Available →
  let w1 := (add_new_task now w).2 in
  let tasks1 :=
    tasks_list (app w)
    ++ [json_of_task {| id := number_to_string now; description := trimmed;
                        completed := false |}] in
  (add_new_task now w).1 = Normal true
  ∧ app w1 = merge (app w) [Set_tasks_list tasks1;
                            Set_task_input_description [];
                            Set_has_persisted_data true]
  ∧ items (local_storage w1) !! LOCAL_STORAGE_KEY
    = Some (JSON_stringify (JArr tasks1))
  ∧ items (local_storage w1) !! persist_name
    = Some (persist_serialize (app w1))
  ∧ trace w1
    = trace w ++ [SetItem persist_name (persist_serialize (app w1));
                  SetItem LOCAL_STORAGE_KEY (JSON_stringify (JArr tasks1))].
Proof.
  intros trimmed Hne Hlen Hmode w1 tasks1.
  assert (Happ : app w1 = merge (app w) [Set_tasks_list tasks1;
                                         Set_task_input_description [];
                                         Set_has_persisted_data true])
    by apply (add_new_task_accepted_app now w Hne Hlen).
  split; [rewrite (add_new_task_accepted_result now w Hne Hlen), Hmode; done|].
  split; [exact Happ|].
  rewrite Happ. subst w1.
  rewrite (add_new_task_accepted now w Hne Hlen).
  rewrite (returned_world _ true (λ w, w)).
  assert (Hsame : ∀ x : completion unit * World,
            match x.1 with Normal _ => x.2 | Throw _ => x.2 end = x.2)
    by (intros [[]]; reflexivity).
  rewrite Hsame, write_through_items, write_through_trace, Hmode.
  split; [apply lookup_insert_eq|].
  split; [|reflexivity].
  rewrite lookup_insert_ne by exact (λ H, persist_name_ne (eq_sym H)).
  apply lookup_insert_eq.
Qed.

Lemma add_new_task_accepts_witness :
  let w := (set_task_input_description (str "  Pay the rent ")
              (sample_world Available None)).2 in
  let now := 1678901236111%Z in
  let trimmed := str "Pay the rent" in
  let w1 := (add_new_task now w).2 in
  let tasks1 :=
    tasks_list (app w)
    ++ [json_of_task {| id := str "1678901236111"; description := trimmed;
                        completed := false |}] in
  trim (task_input_description (app w)) = trimmed
  ∧ (add_new_task now w).1 = Normal true
  ∧ app w1 = merge (app w) [Set_tasks_list tasks1;
                            Set_task_input_description [];
                            Set_has_persisted_data true]
  ∧ items (local_storage w1) !! LOCAL_STORAGE_KEY
    = Some (JSON_stringify (JArr tasks1))
  ∧ items (local_storage w1) !! persist_name
    = Some (persist_serialize (app w1))
  ∧ trace w1
    = trace w ++ [SetItem persist_name (persist_serialize (app w1));
                  SetItem LOCAL_STORAGE_KEY (JSON_stringify (JArr tasks1))].
Proof.
  split; [vm_compute; reflexivity|].
  apply (add_new_task_accepts
           (set_task_input_description (str "  Pay the rent ")
              (sample_world Available None)).2
           1678901236111).
  - discriminate.
  - vm_compute. lia.
  - reflexivity.
Defined.

(** ** What the actions leave alone *)

Section Frames.

Lemma toggle_task_completion_app (task_id : jsstring) (w : World) :
  app (toggle_task_completion task_id w).2
  = match array_map (toggle_callback task_id) (tasks_list (app w)) with
    | Normal updated_tasks => merge (app w) [Set_tasks_list updated_tasks]
    | Throw _ => app w
    end.
Proof.
  rewrite toggle_task_completion_mapped.
  destruct (array_map _ _); [apply write_through_app|reflexivity].
Qed.

Lemma delete_task_app (task_id : jsstring) (w : World) :
  app (delete_task task_id w).2
  = match array_filter (delete_callback task_id) (tasks_list (app w)) with
    | Normal updated_tasks =>
        merge (app w)
          [Set_tasks_list updated_tasks;
           Set_has_persisted_data (0 <? length updated_tasks)%nat]
    | Throw _ => app w
    end.
Proof.
  rewrite delete_task_filtered.
  destruct (array_filter _ _); [apply write_through_app|reflexivity].
Qed.

(** The state after [add_new_task], whatever the storage does. *)
Lemma add_new_task_app (now : Z) (w : World) :
  let trimmed := trim (task_input_description (app w)) in
  app (add_new_task now w).2
  = merge (app w)
      (if negb (nonempty trimmed)
       then [Set_error_message (Some empty_message)]
       else if (256 <? Z.of_nat (length trimmed))%Z
       then [Set_error_message (Some too_long_message)]
       else [Set_tasks_list (tasks_list (app w) ++ [new_task now w]);
             Set_task_input_description [];
             Set_has_persisted_data true]).
Proof.
  intros trimmed.
  destruct (add_new_task_trichotomy w) as [He|[Hl|[Hne Hlen]]];
    fold trimmed in He || fold trimmed in Hl || fold trimmed in Hne, Hlen.
  - rewrite (add_new_task_refused_app now w empty_message) by (by left).
    rewrite He. reflexivity.
  - rewrite (add_new_task_refused_app now w too_long_message) by (by right).
    destruct (nonempty trimmed) eqn:Hn;
      [|apply nonempty_false in Hn; rewrite Hn in Hl; simpl in Hl; lia].
    replace (256 <? Z.of_nat (length trimmed))%Z with true
      by (symmetry; apply Z.ltb_lt; lia).
    reflexivity.
  - rewrite (add_new_task_accepted_app now w Hne Hlen).
    destruct (nonempty trimmed) eqn:Hn;
      [|apply nonempty_false in Hn; contradiction].
    replace (256 <? Z.of_nat (length trimmed))%Z with false
      by (symmetry; apply Z.ltb_ge; lia).
    reflexivity.
Qed.

Lemma perform_keeps_status (w : World) (c : call) :
  c ≠ Call_load_tasks_from_local_storage →
  app_status (app (perform c w)) = app_status (app w)
  ∧ is_loading_tasks (app (perform c w)) = is_loading_tasks (app w).
Proof.
  intros Hc. destruct c as [text| |now|task_id|task_id|]; simpl.
  - rewrite set_task_input_description_app.
    destruct (mode (local_storage w)); [|done|];
      destruct (truthy _); done.
  - contradiction.
  - rewrite add_new_task_app.
    destruct (negb _); [done|]. destruct (256 <? _)%Z; done.
  - rewrite toggle_task_completion_app. destruct (array_map _ _); done.
  - rewrite delete_task_app. destruct (array_filter _ _); done.
  - unfold clear_error_message. rewrite set_app. done.
Qed.

(** Apart from the item of the middleware and the slot of the list, the
    items of the storage are as they were after a call. *)
Lemma perform_lookup (w : World) (c : call) (k : jsstring) :
  k ≠ LOCAL_STORAGE_KEY → k ≠ persist_name →
  items (local_storage (perform c w)) !! k = items (local_storage w) !! k.
Proof.
  intros Hk Hp.
  assert (Hwt : ∀ p v,
            items (local_storage
                     ((set p;; localStorage_setItem LOCAL_STORAGE_KEY v) w).2)
            !! k = items (local_storage w) !! k).
  { intros p v. rewrite write_through_items.
    destruct (mode (local_storage w)); [|done..].
    rewrite !lookup_insert_ne by done. reflexivity. }
  assert (Hset : ∀ p,
            items (local_storage (set p w).2) !! k
            = items (local_storage w) !! k).
  { intros p. rewrite set_items.
    destruct (mode (local_storage w)); [|done..].
    rewrite lookup_insert_ne by done. reflexivity. }
  destruct c as [text| |now|task_id|task_id|]; simpl.
  - apply set_task_input_description_lookup, Hp.
  - apply load_lookup, Hp.
  - rewrite add_new_task_cases. cbv zeta.
    destruct (negb _); [|destruct (256 <? _)%Z].
    + rewrite returned_world.
      destruct (_.1); [unfold record; simpl|]; apply Hset.
    + rewrite returned_world.
      destruct (_.1); [unfold record; simpl|]; apply Hset.
    + rewrite (returned_world _ true (λ w, w)). destruct (_.1); apply Hwt.
  - rewrite toggle_task_completion_mapped.
    destruct (array_map _ _); [apply Hwt|reflexivity].
  - rewrite delete_task_filtered.
    destruct (array_filter _ _); [apply Hwt|reflexivity].
  - apply Hset.
Qed.

Lemma perform_mode (w : World) (c : call) :
  mode (local_storage (perform c w)) = mode (local_storage w).
Proof.
  destruct c as [text| |now|task_id|task_id|]; simpl.
  - apply set_task_input_description_mode.
  - apply load_mode.
  - rewrite add_new_task_cases. cbv zeta.
    destruct (negb _); [|destruct (256 <? _)%Z].
    + rewrite returned_world.
      destruct (_.1); [unfold record; simpl|]; apply set_mode.
    + rewrite returned_world.
      destruct (_.1); [unfold record; simpl|]; apply set_mode.
    + rewrite (returned_world _ true (λ w, w)).
      destruct (_.1); apply write_through_mode.
  - rewrite toggle_task_completion_mapped.
    destruct (array_map _ _); [apply write_through_mode|reflexivity].
  - rewrite delete_task_filtered.
    destruct (array_filter _ _); [apply write_through_mode|reflexivity].
  - apply set_mode.
Qed.

End Frames.

(** X7. Of the six actions only [load_tasks_from_local_storage] changes
    [app_status] or [is_loading_tasks]: a refused task, a failed write or a
    toggle that throws leaves both as they were. *)
Theorem only_load_changes_status (w : World) (c : call) :
  c ≠ Call_load_tasks_from_local_storage →
  app_status (app (perform c w)) = app_status (app w)
  ∧ is_loading_tasks (app (perform c w)) = is_loading_tasks (app w).
Proof. apply perform_keeps_status. Qed.

Lemma only_load_changes_status_witness :
  let w := (set_task_input_description (str "Water the plants")
              (sample_world QuotaExceeded None)).2 in
  let c := Call_add_new_task 1678901235777 in
  (add_new_task 1678901235777 w).1 = Throw QuotaExceededError
  ∧ app_status (app (perform c w)) = app_status (app w)
  ∧ is_loading_tasks (app (perform c w)) = is_loading_tasks (app w).
Proof.
  split; [vm_compute; reflexivity|].
  apply (only_load_changes_status
           (set_task_input_description (str "Water the plants")
              (sample_world QuotaExceeded None)).2
           (Call_add_new_task 1678901235777)).
  discriminate.
Defined.

(** X13. No action touches the storage outside the two items of the store,
    the slot of the list and the item of the middleware: what the storage
    holds under any other key, and how the browser treats the storage, are
    the same after the call. *)
Theorem other_keys_untouched (w : World) (c : call) (k : jsstring) :
  k ≠ LOCAL_STORAGE_KEY →
  k ≠ persist_name →
  items (local_storage (perform c w)) !! k = items (local_storage w) !! k
  ∧ mode (local_storage (perform c w)) = mode (local_storage w).
Proof.
  intros Hk Hp. split; [apply perform_lookup; assumption|apply perform_mode].
Qed.

Lemma other_keys_untouched_witness :
  let w := initial_world {| items := {[ (str "theme") := (str "dark") ]};
                            mode := Available |} in
  let c := Call_delete_task (str "1678901234567") in
  items (local_storage w) !! str "theme" = Some (str "dark")
  ∧ items (local_storage (perform c w)) !! str "theme"
    = items (local_storage w) !! str "theme"
  ∧ mode (local_storage (perform c w)) = mode (local_storage w).
Proof.
  split; [reflexivity|].
  apply (other_keys_untouched
           (initial_world {| items := {[ (str "theme") := (str "dark") ]};
                             mode := Available |})
           (Call_delete_task (str "1678901234567")) (str "theme")).
  - discriminate.
  - discriminate.
Defined.

(** ** A list with [null] in it *)

Section NullElement.

Lemma toggle_callback_returns (task_id : jsstring) (x : json) :
  x ≠ JNull → ∃ y, toggle_callback task_id x = Normal y.
Proof.
  intros Hx. destruct x as [|b|n|s|a|ms]; [contradiction|eauto..|].
  unfold toggle_callback. simpl.
  destruct (strict_equal_string _ _); eauto.
Qed.

Lemma array_map_toggle_null (task_id : jsstring) (l : list json) :
  JNull ∈ l → array_map (toggle_callback task_id) l = Throw TypeError.
Proof.
  induction l as [|x r IH]; intros Hin; [by apply elem_of_nil in Hin|].
  destruct x as [|b|n|s|a|ms]; [reflexivity|..];
    (apply elem_of_cons in Hin as [Hx|Hin]; [discriminate|]);
    match goal with |- array_map _ (?x :: _) = _ =>
      destruct (toggle_callback_returns task_id x ltac:(discriminate))
        as [y Hy]
    end;
    rewrite (array_map_cons _ _ _ _ Hy), (IH Hin); reflexivity.
Qed.

Lemma array_filter_delete_null (task_id : jsstring) (l : list json) :
  JNull ∈ l → array_filter (delete_callback task_id) l = Throw TypeError.
Proof.
  induction l as [|x r IH]; intros Hin; [by apply elem_of_nil in Hin|].
  destruct x as [|b|n|s|a|ms]; [reflexivity|..];
    (apply elem_of_cons in Hin as [Hx|Hin]; [discriminate|]);
    simpl; rewrite (IH Hin); reflexivity.
Qed.

End NullElement.

(** X8. When [tasks_list] has [null] among its elements (loading accepts
    such an array), [toggle_task_completion] and [delete_task] end with a
    [TypeError], for every id, and do nothing: the state, the storage and
    the trace are as before. *)
Theorem null_element_stops_toggle_and_delete (w : World)
    (task_id : jsstring) :
  JNull ∈ tasks_list (app w) →
  toggle_task_completion task_id w = (Throw TypeError, w)
  ∧ delete_task task_id w = (Throw TypeError, w).
Proof.
  intros Hin.
  rewrite toggle_task_completion_mapped, delete_task_filtered.
  rewrite (array_map_toggle_null _ _ Hin), (array_filter_delete_null _ _ Hin).
  done.
Qed.

Lemma null_element_stops_toggle_and_delete_witness :
  let w :=
    (load_tasks_from_local_storage
       (initial_world {| items := {[ LOCAL_STORAGE_KEY := (str "[null]") ]};
                         mode := Available |})).2 in
  tasks_list (app w) = [JNull]
  ∧ toggle_task_completion (str "1678901234567") w = (Throw TypeError, w)
  ∧ delete_task (str "1678901234567") w = (Throw TypeError, w).
Proof.
  split; [vm_compute; reflexivity|].
  apply (null_element_stops_toggle_and_delete
           (load_tasks_from_local_storage
              (initial_world
                 {| items := {[ LOCAL_STORAGE_KEY := (str "[null]") ]};
                    mode := Available |})).2).
  vm_compute. left.
Defined.

(** ** How the actions compose *)

Section Composition.

Lemma toggle_list (task_id : jsstring) (ts : list Task) (w : World) :
  tasks_list (app w) = tasks_json ts →
  tasks_list (app (toggle_task_completion task_id w).2)
  = tasks_json (toggled task_id <$> ts).
Proof.
  intros Hts.
  rewrite (toggle_task_completion_tasks _ _ _ Hts), write_through_app.
  reflexivity.
Qed.

Lemma delete_state (task_id : jsstring) (ts : list Task) (w : World) :
  tasks_list (app w) = tasks_json ts →
  app (delete_task task_id w).2
  = merge (app w)
      [Set_tasks_list (tasks_json (filter (λ t, id t ≠ task_id) ts));
       Set_has_persisted_data
         (0 <? length (filter (λ t, id t ≠ task_id) ts))%nat].
Proof.
  intros Hts. rewrite (delete_task_tasks _ _ _ Hts), write_through_app.
  unfold tasks_json at 2. rewrite length_map. reflexivity.
Qed.

Lemma filter_twice (task_id : jsstring) (ts : list Task) :
  filter (λ t, id t ≠ task_id) (filter (λ t, id t ≠ task_id) ts)
  = filter (λ t, id t ≠ task_id) ts.
Proof.
  induction ts as [|t ts IH]; [reflexivity|].
  destruct (decide (id t ≠ task_id)) as [Hne|Heq].
  - rewrite filter_cons_True by exact Hne.
    rewrite filter_cons_True by exact Hne. rewrite IH. reflexivity.
  - rewrite filter_cons_False by exact Heq. exact IH.
Qed.

Lemma filter_toggled (a b : jsstring) (ts : list Task) :
  filter (λ t, id t ≠ b) (toggled a <$> ts)
  = toggled a <$> filter (λ t, id t ≠ b) ts.
Proof.
  assert (Hid : ∀ t, id (toggled a t) = id t).
  { intros t. unfold toggled. destruct (bool_decide _); reflexivity. }
  induction ts as [|t ts IH]; [reflexivity|].
  rewrite fmap_cons.
  destruct (decide (id t ≠ b)) as [Hne|Heq].
  - rewrite (filter_cons_True (λ t, id t ≠ b) (toggled a t))
      by (rewrite Hid; exact Hne).
    rewrite (filter_cons_True (λ t, id t ≠ b) t) by exact Hne.
    rewrite fmap_cons, IH. reflexivity.
  - rewrite (filter_cons_False (λ t, id t ≠ b) (toggled a t))
      by (rewrite Hid; exact Heq).
    rewrite (filter_cons_False (λ t, id t ≠ b) t) by exact Heq.
    exact IH.
Qed.

Lemma toggled_commute (a b : jsstring) (t : Task) :
  toggled a (toggled b t) = toggled b (toggled a t).
Proof.
  unfold toggled.
  destruct (bool_decide (id t = a)) eqn:Ha, (bool_decide (id t = b)) eqn:Hb;
    simpl; rewrite ?Ha, ?Hb; reflexivity.
Qed.

End Composition.

(** X18. For every list of tasks and every id: after [delete_task] no task
    of the list has that id, and deleting the same id once more changes
    nothing in the state. *)
Theorem delete_task_twice (w : World) (ts : list Task) (task_id : jsstring) :
  tasks_list (app w) = tasks_json ts →
  let w1 := (delete_task task_id w).2 in
  let w2 := (delete_task task_id w1).2 in
  (∃ ts1 : list Task,
     tasks_list (app w1) = tasks_json ts1 ∧ task_id ∉ id <$> ts1)
  ∧ app w2 = app w1.
Proof.
  intros Hts w1 w2.
  assert (Hw1 : tasks_list (app w1)
                = tasks_json (filter (λ t, id t ≠ task_id) ts))
    by (subst w1; rewrite (delete_state _ _ _ Hts); reflexivity).
  split.
  - exists (filter (λ t, id t ≠ task_id) ts). split; [exact Hw1|].
    intros Hin. apply list_elem_of_fmap in Hin as (t & Heq & Ht).
    apply list_elem_of_filter in Ht as [Hne _]. apply Hne. symmetry.
    exact Heq.
  - subst w2. rewrite (delete_state _ _ _ Hw1), filter_twice.
    subst w1. rewrite (delete_state _ _ _ Hts). reflexivity.
Qed.

Lemma delete_task_twice_witness :
  let w := sample_world Available None in
  let task_id := str "1678901234567" in
  let w1 := (delete_task task_id w).2 in
  let w2 := (delete_task task_id w1).2 in
  (∃ ts1 : list Task,
     tasks_list (app w1) = tasks_json ts1 ∧ task_id ∉ id <$> ts1)
  ∧ app w2 = app w1.
Proof.
  apply (delete_task_twice (sample_world Available None) sample_tasks).
  reflexivity.
Defined.

(** X19. Adding a task and then deleting it gives back the list: for every
    list of tasks, if the input is valid and the text of the clock reading
    is not the id of a task of the list, then after [add_new_task] followed
    by [delete_task] of the new id the list is the one before the two
    calls (whether or not the storage takes the writes). *)
Theorem add_then_delete_restores (w : World) (ts : list Task) (now : Z) :
  tasks_list (app w) = tasks_json ts →
  number_to_string now ∉ id <$> ts →
  trim (task_input_description (app w)) ≠ [] →
  (length (trim (task_input_description (app w))) ≤ 256)%nat →
  let w1 := (add_new_task now w).2 in
  let w2 := (delete_task (number_to_string now) w1).2 in
  length (tasks_list (app w1)) = S (length (tasks_list (app w)))
  ∧ tasks_list (app w2) = tasks_list (app w).
Proof.
  intros Hts Hfresh Hne Hlen w1 w2.
  pose proof (add_new_task_accepted_app now w Hne Hlen) as Happ.
  set (t := {| id := number_to_string now;
               description := trim (task_input_description (app w));
               completed := false |}).
  assert (Hw1 : tasks_list (app w1) = tasks_json (ts ++ [t])).
  { subst w1. rewrite Happ. simpl. rewrite Hts. unfold tasks_json, new_task.
    rewrite map_app. reflexivity. }
  split.
  - rewrite Hw1, Hts. unfold tasks_json. rewrite !length_map, length_app.
    simpl. lia.
  - subst w2. rewrite (delete_state _ _ _ Hw1). simpl.
    rewrite filter_app, (filter_absent _ _ Hfresh).
    rewrite filter_cons_False by (intros H; apply H; reflexivity).
    rewrite filter_nil, app_nil_r. symmetry. exact Hts.
Qed.

Lemma add_then_delete_restores_witness :
  let w := (set_task_input_description (str "Respond to emails")
              (sample_world QuotaExceeded None)).2 in
  let now := 1678901235555%Z in
  let w1 := (add_new_task now w).2 in
  let w2 := (delete_task (number_to_string now) w1).2 in
  length (tasks_list (app w1)) = S (length (tasks_list (app w)))
  ∧ tasks_list (app w2) = tasks_list (app w).
Proof.
  apply (add_then_delete_restores
           (set_task_input_description (str "Respond to emails")
              (sample_world QuotaExceeded None)).2 sample_tasks).
  - reflexivity.
  - vm_compute. intros Hin.
    repeat (apply elem_of_cons in Hin as [Hin|Hin]; [discriminate Hin|]).
    by apply elem_of_nil in Hin.
  - discriminate.
  - vm_compute. lia.
Defined.

(** X20. For every list of tasks, the order of two calls does not matter for
    the list when both are toggles, or one is a toggle and the other a
    delete, whatever the two ids. *)
Theorem toggle_and_delete_commute (w : World) (ts : list Task)
    (a b : jsstring) :
  tasks_list (app w) = tasks_json ts →
  let after (cs : list call) := tasks_list (app (perform_all cs w)) in
  after [Call_toggle_task_completion a; Call_toggle_task_completion b]
  = after [Call_toggle_task_completion b; Call_toggle_task_completion a]
  ∧ after [Call_toggle_task_completion a; Call_delete_task b]
    = after [Call_delete_task b; Call_toggle_task_completion a].
Proof.
  intros Hts after. subst after. unfold perform_all. simpl.
  pose proof (toggle_list a ts w Hts) as Ha.
  pose proof (toggle_list b ts w Hts) as Hb.
  assert (Hd : tasks_list (app (delete_task b w).2)
               = tasks_json (filter (λ t, id t ≠ b) ts))
    by (rewrite (delete_state _ _ _ Hts); reflexivity).
  split.
  - rewrite (toggle_list _ _ _ Ha), (toggle_list _ _ _ Hb).
    rewrite <- !list_fmap_compose. f_equal. apply list_fmap_ext.
    intros _ t _. simpl. symmetry. apply toggled_commute.
  - rewrite (delete_state _ _ _ Ha), (toggle_list _ _ _ Hd). simpl.
    rewrite filter_toggled. reflexivity.
Qed.

Lemma toggle_and_delete_commute_witness :
  let w := sample_world Available None in
  let a := str "1678901234567" in
  let b := str "1678901234789" in
  let after (cs : list call) := tasks_list (app (perform_all cs w)) in
  after [Call_toggle_task_completion a; Call_toggle_task_completion b]
  = after [Call_toggle_task_completion b; Call_toggle_task_completion a]
  ∧ after [Call_toggle_task_completion a; Call_delete_task b]
    = after [Call_delete_task b; Call_toggle_task_completion a].
Proof.
  apply (toggle_and_delete_commute (sample_world Available None) sample_tasks).
  reflexivity.
Defined.

(** ** Histories *)

Section Trim.

Lemma trim_start_head (s : jsstring) :
  match trim_start s with
  | c :: _ => is_white_space c = false
  | [] => True
  end.
Proof.
  induction s as [|c r IH]; [exact I|].
  simpl. destruct (is_white_space c) eqn:Hc; [exact IH|exact Hc].
Qed.

Lemma trim_start_fixed (s : jsstring) :
  match s with c :: _ => is_white_space c = false | [] => True end →
  trim_start s = s.
Proof. destruct s as [|c r]; [done|]. simpl. intros ->. reflexivity. Qed.

Lemma trim_start_suffix (s : jsstring) : ∃ p, s = p ++ trim_start s.
Proof.
  induction s as [|c r [p IH]]; [exists []; reflexivity|].
  simpl. destruct (is_white_space c).
  - exists (c :: p). rewrite <- app_comm_cons. f_equal. exact IH.
  - exists []. reflexivity.
Qed.

Lemma trim_end_prefix (s : jsstring) : ∃ q, s = trim_end s ++ q.
Proof.
  unfold trim_end. destruct (trim_start_suffix (rev s)) as [p Hp].
  exists (rev p). rewrite <- rev_app_distr, <- Hp, rev_involutive.
  reflexivity.
Qed.

Lemma trim_end_twice (s : jsstring) : trim_end (trim_end s) = trim_end s.
Proof.
  unfold trim_end. rewrite rev_involutive.
  rewrite (trim_start_fixed (trim_start (rev s))); [reflexivity|].
  apply trim_start_head.
Qed.

(** Trimming what has been trimmed changes nothing. *)
Lemma trim_twice (s : jsstring) : trim (trim s) = trim s.
Proof.
  unfold trim.
  rewrite (trim_start_fixed (trim_end (trim_start s))).
  - apply trim_end_twice.
  - destruct (trim_end_prefix (trim_start s)) as [q Hq].
    pose proof (trim_start_head s) as Hhead.
    destruct (trim_end (trim_start s)) as [|c r]; [exact I|].
    rewrite Hq in Hhead. exact Hhead.
Qed.

End Trim.

Section Histories.

(** The list [load_tasks_from_local_storage] leaves, and the flag: those of
    before (when the storage has no room), the empty list, or the array the
    slot holds. *)
Lemma load_list (w : World) :
  let w1 := (load_tasks_from_local_storage w).2 in
  (mode (local_storage w) = QuotaExceeded
   ∧ tasks_list (app w1) = tasks_list (app w)
   ∧ has_persisted_data (app w1) = has_persisted_data (app w))
  ∨ (tasks_list (app w1) = []
     ∧ (has_persisted_data (app w1) = false
        ∨ ∃ s v, items (local_storage w) !! LOCAL_STORAGE_KEY = Some s
                 ∧ JSON_parse s = Some v
                 ∧ ∀ elems, v ≠ JArr elems))
  ∨ (∃ s elems,
       mode (local_storage w) = Available
       ∧ items (local_storage w) !! LOCAL_STORAGE_KEY = Some s
       ∧ s ≠ []
       ∧ JSON_parse s = Some (JArr elems)
       ∧ tasks_list (app w1) = elems
       ∧ has_persisted_data (app w1) = (0 <? length elems)%nat).
Proof.
  cbv zeta. destruct (mode (local_storage w)) eqn:Hmode.
  - rewrite (load_app_available _ _ Hmode eq_refl).
    destruct (items (local_storage w) !! LOCAL_STORAGE_KEY) as [[|c s]|]
      eqn:Hslot; [right; left; split; [done|by left]|
                  |right; left; split; [done|by left]].
    destruct (JSON_parse (c :: s)) as [v|] eqn:Hparse;
      [|right; left; split; [done|by left]].
    destruct v; try (right; left; split; [done|]; right;
                     eexists _, _; split; [reflexivity|];
                     split; [exact Hparse|discriminate]).
    right; right. eexists _, _. repeat split; try done.
  - left. rewrite (load_app_quota _ Hmode). done.
  - right; left. rewrite (load_app_denied _ Hmode). split; [done|by left].
Qed.

Lemma write_through_records_with (Q : list Task → Prop) (w : World)
    (p : list assignment) (ts : list Task) :
  tasks_list (merge (app w) p) = tasks_json ts →
  Q ts →
  (∀ s, items (local_storage w) !! LOCAL_STORAGE_KEY = Some s →
        ∃ ts', s = JSON_stringify (JArr (tasks_json ts')) ∧ Q ts') →
  records_with Q
    ((set p;;
      localStorage_setItem LOCAL_STORAGE_KEY
        (JSON_stringify (JArr (tasks_json ts)))) w).2.
Proof.
  intros Hts HQ Hslot. split.
  - exists ts. rewrite write_through_app. done.
  - intros s. rewrite write_through_items.
    destruct (mode (local_storage w)); [|apply Hslot..].
    rewrite lookup_insert_eq. intros [= <-]. eauto.
Qed.

Lemma set_records_with (Q : list Task → Prop) (w : World)
    (p : list assignment) :
  tasks_list (merge (app w) p) = tasks_list (app w) →
  records_with Q w → records_with Q (set p w).2.
Proof.
  intros Hsame [Hlist Hslot]. split.
  - rewrite set_app, Hsame. exact Hlist.
  - intros s. rewrite set_items.
    destruct (mode (local_storage w)); [|apply Hslot..].
    rewrite lookup_insert_ne by exact persist_name_ne. apply Hslot.
Qed.

Lemma load_records_with (Q : list Task → Prop) (w : World) :
  Q [] → records_with Q w →
  records_with Q (load_tasks_from_local_storage w).2.
Proof.
  intros Hnil [Hlist Hslot]. split.
  - destruct (load_list w) as [(_ & -> & _)|[[-> _]|Harr]];
      [exact Hlist|exists []; done|].
    destruct Harr as (s & elems & _ & Hs & _ & Hparse & -> & _).
    destruct (Hslot s Hs) as (ts & -> & HQ).
    rewrite JSON_parse_stringify_tasks in Hparse.
    injection Hparse as <-. eauto.
  - intros s. rewrite load_lookup
      by (intros H; symmetry in H; exact (persist_name_ne H)).
    apply Hslot.
Qed.

(** One happening takes a world whose records have [Q] to one whose records
    have [Q'], when [Q'] follows from [Q], holds of the empty list, and is
    kept by what the actions do to a list. *)
Lemma happen_records_with (Q Q' : list Task → Prop) (h : happening)
    (w : World) :
  (∀ ts, Q ts → Q' ts) →
  Q' [] →
  (∀ i ts, Q ts → Q' (toggled i <$> ts)) →
  (∀ i ts, Q ts → Q' (filter (λ t, id t ≠ i) ts)) →
  (∀ now ts,
     h = Page (Call_add_new_task now) → Q ts →
     trim (task_input_description (app w)) ≠ [] →
     (length (trim (task_input_description (app w))) ≤ 256)%nat →
     Q' (ts ++ [ {| id := number_to_string now;
                    description := trim (task_input_description (app w));
                    completed := false |} ])) →
  records_with Q w → records_with Q' (happen h w).
Proof.
  intros Hmono Hnil Htoggle Hdelete Hadd Hw.
  assert (Hw' : records_with Q' w).
  { destruct Hw as [(ts & Hts & HQ) Hslot]. split; [eauto|].
    intros s Hs. destruct (Hslot s Hs) as (ts' & -> & HQ'). eauto. }
  pose proof Hw as [(ts & Hts & HQ) _]. pose proof Hw' as [_ Hslot].
  destruct h as [[description| |now|task_id|task_id|]|room]; simpl.
  - rewrite set_task_input_description_cases.
    pose proof (set_records_with Q' w [Set_task_input_description description]
                  eq_refl Hw') as Hset.
    destruct (set [Set_task_input_description description] w)
      as [[[]|e] w1]; simpl in Hset; [|exact Hset].
    destruct (truthy _); [|exact Hset].
    apply set_records_with; [reflexivity|exact Hset].
  - apply load_records_with; assumption.
  - destruct (add_new_task_trichotomy w) as [He|[Hl|[Hne Hlen]]].
    + rewrite (add_new_task_refused now w empty_message) by (by left).
      rewrite returned_world.
      pose proof (set_records_with Q' w [Set_error_message (Some empty_message)]
                    eq_refl Hw') as Hset.
      destruct (_.1); exact Hset.
    + rewrite (add_new_task_refused now w too_long_message) by (by right).
      rewrite returned_world.
      pose proof (set_records_with Q' w
                    [Set_error_message (Some too_long_message)]
                    eq_refl Hw') as Hset.
      destruct (_.1); exact Hset.
    + pose proof (Hadd now ts eq_refl HQ Hne Hlen) as Hnew.
      set (t := {| id := number_to_string now;
                   description := trim (task_input_description (app w));
                   completed := false |}) in *.
      assert (Heq : tasks_list (app w) ++ [new_task now w]
                    = tasks_json (ts ++ [t])).
      { rewrite Hts. unfold tasks_json. rewrite map_app. reflexivity. }
      rewrite (add_new_task_accepted now w Hne Hlen), Heq.
      rewrite (returned_world _ true (λ w, w)).
      assert (Hsame : ∀ x : completion unit * World,
                match x.1 with Normal _ => x.2 | Throw _ => x.2 end = x.2)
        by (intros [[]]; reflexivity).
      rewrite Hsame.
      apply write_through_records_with; [reflexivity|exact Hnew|exact Hslot].
  - rewrite (toggle_task_completion_tasks _ _ _ Hts).
    apply write_through_records_with;
      [reflexivity|apply Htoggle, HQ|exact Hslot].
  - rewrite (delete_task_tasks _ _ _ Hts).
    apply write_through_records_with;
      [reflexivity|apply Hdelete, HQ|exact Hslot].
  - unfold clear_error_message. apply set_records_with; [reflexivity|exact Hw'].
  - unfold with_room. destruct (mode (local_storage w)); exact Hw'.
Qed.

(** An invariant that each happening keeps holds after every history. *)
Lemma history_invariant (P : World → Prop) (hs : list happening) (w : World) :
  (∀ h w, P w → P (happen h w)) → P w → P (history hs w).
Proof.
  intros Hstep. unfold history. revert w.
  induction hs as [|h hs IH]; intros w Hw; simpl; [exact Hw|].
  apply IH, Hstep, Hw.
Qed.

End Histories.

Section HistoryFacts.

Lemma description_issues_none (d : jsstring) :
  d ≠ [] → (length d ≤ 256)%nat → description_issues d = [].
Proof.
  intros Hne Hlen. unfold description_issues.
  destruct d as [|c r]; [contradiction|].
  replace (256 <? length (c :: r))%nat with false
    by (symmetry; apply Nat.ltb_ge; exact Hlen).
  reflexivity.
Qed.

Lemma happen_flag (h : happening) (w : World) :
  records_with (λ _, True) w →
  has_persisted_data (app w) = (0 <? length (tasks_list (app w)))%nat →
  has_persisted_data (app (happen h w))
  = (0 <? length (tasks_list (app (happen h w))))%nat.
Proof.
  intros [(ts & Hts & _) Hslot] Hflag.
  destruct h as [[description| |now|task_id|task_id|]|room]; simpl.
  - rewrite set_task_input_description_app.
    destruct (mode (local_storage w)); [|exact Hflag|];
      destruct (truthy _); exact Hflag.
  - destruct (load_list w) as [(_ & -> & ->)|[[-> Hcase]|Harr]];
      [exact Hflag| |].
    + destruct Hcase as [->|(s & v & Hs & Hparse & Hnot)]; [reflexivity|].
      destruct (Hslot s Hs) as (ts' & -> & _).
      rewrite JSON_parse_stringify_tasks in Hparse.
      injection Hparse as <-. by destruct (Hnot (tasks_json ts')).
    + destruct Harr as (s & elems & _ & _ & _ & _ & -> & ->). reflexivity.
  - rewrite add_new_task_app.
    destruct (negb _); [exact Hflag|]. destruct (256 <? _)%Z; [exact Hflag|].
    simpl. rewrite length_app. simpl. symmetry. apply Nat.ltb_lt. lia.
  - rewrite toggle_task_completion_app, Hts, array_map_toggle. simpl.
    rewrite Hflag, Hts. unfold tasks_json. rewrite !length_map. reflexivity.
  - rewrite delete_task_app, Hts, array_filter_delete. reflexivity.
  - unfold clear_error_message. rewrite set_app. exact Hflag.
  - unfold with_room. destruct (mode (local_storage w)); exact Hflag.
Qed.

(** A list of task records stays a list of task records. *)
Lemma history_holds_task_records (hs : list happening) (w : World) :
  records_with (λ _, True) w → records_with (λ _, True) (history hs w).
Proof.
  apply (history_invariant (records_with (λ _, True))).
  intros h w0. apply happen_records_with; done.
Qed.

Lemma ids_from_more (used : list Z) (z : Z) (ts : list Task) :
  ids_from used ts → ids_from (z :: used) ts.
Proof.
  intros [Hnodup Hfrom]. split; [exact Hnodup|].
  intros i Hi. destruct (Hfrom i Hi) as (z' & Hz' & ->).
  exists z'. split; [right; exact Hz'|reflexivity].
Qed.

Lemma ids_from_toggled (used : list Z) (i : jsstring) (ts : list Task) :
  ids_from used ts → ids_from used (toggled i <$> ts).
Proof.
  assert (Hids : id <$> (toggled i <$> ts) = id <$> ts).
  { rewrite <- list_fmap_compose. apply list_fmap_ext.
    intros _ t _. unfold toggled. simpl.
    destruct (bool_decide (id t = i)); reflexivity. }
  unfold ids_from. rewrite Hids. done.
Qed.

Lemma ids_from_filter (used : list Z) (i : jsstring) (ts : list Task) :
  ids_from used ts → ids_from used (filter (λ t, id t ≠ i) ts).
Proof.
  intros [Hnodup Hfrom].
  assert (Hsub : (id <$> filter (λ t, id t ≠ i) ts) `sublist_of` (id <$> ts))
    by apply fmap_sublist, sublist_filter.
  split; [exact (sublist_NoDup _ _ Hnodup Hsub)|].
  intros j Hj. apply Hfrom. eapply elem_of_sublist; [exact Hj|exact Hsub].
Qed.

Lemma ids_from_add (used : list Z) (now : Z) (d : jsstring) (ts : list Task) :
  now ∉ used → ids_from used ts →
  ids_from (now :: used)
    (ts ++ [ {| id := number_to_string now; description := d;
                completed := false |} ]).
Proof.
  intros Hnew [Hnodup Hfrom]. split.
  - rewrite fmap_app. apply NoDup_app. split; [exact Hnodup|].
    split; [|apply NoDup_singleton].
    intros i Hi Hin. apply list_elem_of_singleton in Hin. simpl in Hin.
    destruct (Hfrom i Hi) as (z & Hz & Heq). subst i.
    apply number_to_string_inj in Heq. subst z. contradiction.
  - intros i Hi. rewrite fmap_app in Hi. apply elem_of_app in Hi as [Hi|Hi].
    + destruct (Hfrom i Hi) as (z & Hz & ->).
      exists z. split; [right; exact Hz|reflexivity].
    + apply list_elem_of_singleton in Hi. simpl in Hi. subst i.
      exists now. split; [left|reflexivity].
Qed.

Lemma ids_from_nil (used : list Z) : ids_from used [].
Proof. split; [constructor|]. intros i Hi. by apply elem_of_nil in Hi. Qed.

Lemma history_ids_from (hs : list happening) (used : list Z) (w : World) :
  records_with (ids_from used) w →
  NoDup (readings hs) →
  (∀ z, z ∈ readings hs → z ∉ used) →
  ∃ used', records_with (ids_from used') (history hs w).
Proof.
  unfold history. revert used w.
  induction hs as [|h hs IH]; intros used w Hw Hnodup Hnew; simpl;
    [eauto|].
  destruct h as [[description| |now|task_id|task_id|]|room];
    try (apply (IH used); [|exact Hnodup|exact Hnew];
         apply (happen_records_with (ids_from used) (ids_from used));
         [done|apply ids_from_nil
         |intros; by apply ids_from_toggled
         |intros; by apply ids_from_filter
         |intros; discriminate
         |exact Hw]).
  simpl in Hnodup, Hnew. apply NoDup_cons in Hnodup as [Hnotin Hnodup].
  apply (IH (now :: used)); [|exact Hnodup|].
  - apply (happen_records_with (ids_from used) (ids_from (now :: used)));
      [apply ids_from_more
      |apply ids_from_nil
      |intros; by apply ids_from_more, ids_from_toggled
      |intros; by apply ids_from_more, ids_from_filter
      |
      |exact Hw].
    intros now' ts [= <-] Hts _ _.
    apply ids_from_add; [|exact Hts].
    apply Hnew. left.
  - intros z Hz Hin. apply elem_of_cons in Hin as [->|Hin]; [contradiction|].
    exact (Hnew z ltac:(right; exact Hz) Hin).
Qed.

End HistoryFacts.

(** X9. Take a store whose list, and whose slot if it holds anything, are
    lists of task records with pairwise distinct ids, each the text of one
    of the clock readings [used]. After every history whose [add_new_task]
    calls happen at clock readings that are pairwise distinct and not among
    [used], the list and the slot are again lists of task records with
    pairwise distinct ids. Room in the storage may come and go at any
    point of the history. *)
Theorem distinct_readings_give_distinct_ids (hs : list happening)
    (w : World) (used : list Z) :
  records_with (ids_from used) w →
  NoDup (readings hs) →
  (∀ z, z ∈ readings hs → z ∉ used) →
  records_with (λ ts, NoDup (id <$> ts)) (history hs w).
Proof.
  intros Hw Hnodup Hnew.
  destruct (history_ids_from hs used w Hw Hnodup Hnew) as [used' Hused].
  destruct Hused as [(ts & Hts & Hnd & _) Hslot]. split; [eauto|].
  intros s Hs. destruct (Hslot s Hs) as (ts' & -> & Hnd' & _). eauto.
Qed.

Lemma distinct_readings_give_distinct_ids_witness :
  let hs :=
    [Page (Call_set_task_input_description (str "Buy milk"));
     Page (Call_add_new_task 1678901234567);
     Browser false;
     Page (Call_set_task_input_description (str "Call mom"));
     Page (Call_add_new_task 1678901234568);
     Browser true;
     Page Call_load_tasks_from_local_storage] in
  let w := initial_world empty_storage in
  readings hs = [1678901234567; 1678901234568]%Z
  ∧ tasks_list (app (history hs w))
    = tasks_json [ {| id := str "1678901234567";
                      description := str "Buy milk"; completed := false |} ]
  ∧ records_with (λ ts, NoDup (id <$> ts)) (history hs w).
Proof.
  split; [reflexivity|]. split; [vm_compute; reflexivity|].
  apply (distinct_readings_give_distinct_ids
           [Page (Call_set_task_input_description (str "Buy milk"));
            Page (Call_add_new_task 1678901234567);
            Browser false;
            Page (Call_set_task_input_description (str "Call mom"));
            Page (Call_add_new_task 1678901234568);
            Browser true;
            Page Call_load_tasks_from_local_storage]
           (initial_world empty_storage) []).
  - split; [exists []; split; [reflexivity|apply ids_from_nil]|].
    intros s Hs. vm_compute in Hs. discriminate Hs.
  - simpl. apply NoDup_cons. split.
    + intros Hin. apply list_elem_of_singleton in Hin. discriminate Hin.
    + apply NoDup_singleton.
  - intros z _ Hz. by apply elem_of_nil in Hz.
Defined.

(** X10. Take a store whose list, and whose slot if it holds anything, are
    lists of task records with valid descriptions: not empty, at most 256
    code units, no white space left to trim. After every history the same
    holds; every element of the list then passes [taskSchema], and its
    description and flag pass [createTaskInputSchema]. *)
Theorem descriptions_stay_valid (hs : list happening) (w : World) :
  records_with (Forall (λ t, valid_description (description t))) w →
  let w1 := history hs w in
  records_with (Forall (λ t, valid_description (description t))) w1
  ∧ forallb taskSchema (tasks_list (app w1)) = true
  ∧ ∃ ts : list Task,
      tasks_list (app w1) = tasks_json ts
      ∧ Forall (λ t, createTaskInputSchema
                       (JObj [(str "description", JStr (description t));
                              (str "completed", JBool (completed t))])
                     = true) ts.
Proof.
  set (Q := Forall (λ t : Task, valid_description (description t))).
  intros Hw w1.
  assert (Hinv : records_with Q w1).
  { apply (history_invariant (records_with Q)); [|exact Hw].
    intros h w0 Hw0. apply (happen_records_with Q Q); try done.
    - constructor.
    - intros i ts Hts. unfold Q in *. apply Forall_fmap.
      eapply Forall_impl; [exact Hts|]. intros t Ht.
      unfold toggled, compose.
      destruct (bool_decide (id t = i)); exact Ht.
    - intros i ts Hts. unfold Q in *. apply Forall_forall.
      intros t Ht. apply list_elem_of_filter in Ht as [_ Ht].
      revert t Ht. apply Forall_forall. exact Hts.
    - intros now ts _ Hts Hne Hlen. unfold Q in *.
      apply Forall_app. split; [exact Hts|].
      apply Forall_singleton. repeat split; [exact Hne|exact Hlen|].
      apply trim_twice. }
  split; [exact Hinv|].
  destruct Hinv as [(ts & Hts & HQ) _].
  split.
  - rewrite Hts. clear Hts HQ. induction ts as [|t ts IH]; [reflexivity|].
    simpl. exact IH.
  - exists ts. split; [exact Hts|].
    eapply Forall_impl; [exact HQ|]. intros t (Hne & Hlen & _).
    unfold createTaskInputSchema. simpl.
    rewrite (description_issues_none _ Hne Hlen). reflexivity.
Qed.

Lemma descriptions_stay_valid_witness :
  let hs :=
    [Page (Call_set_task_input_description (str "  Buy milk  "));
     Page (Call_add_new_task 1678901234567);
     Page (Call_toggle_task_completion (str "1678901234567"));
     Page Call_load_tasks_from_local_storage] in
  let w := initial_world empty_storage in
  let w1 := history hs w in
  tasks_list (app w1)
  = tasks_json [ {| id := str "1678901234567";
                    description := str "Buy milk"; completed := true |} ]
  ∧ records_with (Forall (λ t, valid_description (description t))) w1
  ∧ forallb taskSchema (tasks_list (app w1)) = true
  ∧ ∃ ts : list Task,
      tasks_list (app w1) = tasks_json ts
      ∧ Forall (λ t, createTaskInputSchema
                       (JObj [(str "description", JStr (description t));
                              (str "completed", JBool (completed t))])
                     = true) ts.
Proof.
  split; [vm_compute; reflexivity|].
  apply (descriptions_stay_valid
           [Page (Call_set_task_input_description (str "  Buy milk  "));
            Page (Call_add_new_task 1678901234567);
            Page (Call_toggle_task_completion (str "1678901234567"));
            Page Call_load_tasks_from_local_storage]
           (initial_world empty_storage)).
  split; [exists []; split; [reflexivity|constructor]|].
  intros s Hs. vm_compute in Hs. discriminate Hs.
Defined.

(** X11. Take a store whose list, and whose slot if it holds anything, are
    lists of task records, and whose [has_persisted_data] is true exactly
    when the list is not empty. After every history, [has_persisted_data]
    is again true exactly when the list is not empty. *)
Theorem flag_tells_list_not_empty (hs : list happening) (w : World) :
  records_with (λ _, True) w →
  has_persisted_data (app w) = (0 <? length (tasks_list (app w)))%nat →
  let w1 := history hs w in
  has_persisted_data (app w1) = (0 <? length (tasks_list (app w1)))%nat.
Proof.
  intros Hw Hflag w1.
  assert (Hinv : records_with (λ _, True) w1
                 ∧ has_persisted_data (app w1)
                   = (0 <? length (tasks_list (app w1)))%nat).
  { apply (history_invariant
             (λ w, records_with (λ _, True) w
                   ∧ has_persisted_data (app w)
                     = (0 <? length (tasks_list (app w)))%nat));
      [|split; assumption].
    intros h w0 [Hrec Hf]. split; [|apply happen_flag; assumption].
    apply (happen_records_with (λ _, True) (λ _, True)); done. }
  exact (proj2 Hinv).
Qed.

Lemma flag_tells_list_not_empty_witness :
  let hs :=
    [Page (Call_set_task_input_description (str "Buy milk"));
     Page (Call_add_new_task 1678901234567);
     Browser false;
     Page (Call_delete_task (str "1678901234567"));
     Browser true;
     Page Call_load_tasks_from_local_storage] in
  let w := initial_world empty_storage in
  let w1 := history hs w in
  (tasks_list (app w1)
   = tasks_json [ {| id := str "1678901234567";
                     description := str "Buy milk"; completed := false |} ]
   ∧ has_persisted_data (app w1) = true)
  ∧ has_persisted_data (app w1) = (0 <? length (tasks_list (app w1)))%nat.
Proof.
  split; [vm_compute; split; reflexivity|].
  apply (flag_tells_list_not_empty
           [Page (Call_set_task_input_description (str "Buy milk"));
            Page (Call_add_new_task 1678901234567);
            Browser false;
            Page (Call_delete_task (str "1678901234567"));
            Browser true;
            Page Call_load_tasks_from_local_storage]
           (initial_world empty_storage)).
  - split; [exists []; split; [reflexivity|exact I]|].
    intros s Hs. vm_compute in Hs. discriminate Hs.
  - reflexivity.
Defined.

(** ** The slot as a copy of the list *)

Section Mirror.

Lemma with_app_same (w : World) : with_app w (app w) = w.
Proof. destruct w; reflexivity. Qed.

Lemma mirrored_load_gives (w : World) :
  mode (local_storage w) = Available →
  (∃ ts, tasks_list (app w) = tasks_json ts) →
  mirrored w → load_gives w (tasks_list (app w)).
Proof.
  intros Hmode [ts Hts] [[Hnone Hnil]|Hsome].
  - intros st.
    assert (Hmode' : mode (local_storage (with_app w st)) = Available)
      by exact Hmode.
    assert (Hslot' : items (local_storage (with_app w st)) !! LOCAL_STORAGE_KEY
                     = None) by exact Hnone.
    rewrite load_result, Hmode', (load_app_available _ _ Hmode' Hslot'), Hnil.
    done.
  - rewrite Hts in Hsome |- *. apply load_gives_slot; assumption.
Qed.

Lemma mirrored_same (w w1 : World) :
  tasks_list (app w1) = tasks_list (app w) →
  items (local_storage w1) !! LOCAL_STORAGE_KEY
  = items (local_storage w) !! LOCAL_STORAGE_KEY →
  mirrored w → mirrored w1.
Proof. unfold mirrored. intros -> ->. done. Qed.

Lemma write_through_mirrored (p : list assignment) (l : list json)
    (w : World) :
  mode (local_storage w) = Available →
  tasks_list (merge (app w) p) = l →
  mirrored
    ((set p;; localStorage_setItem LOCAL_STORAGE_KEY
                (JSON_stringify (JArr l))) w).2.
Proof.
  intros Hmode Hl. right.
  rewrite write_through_items, write_through_app, Hmode, Hl.
  apply lookup_insert_eq.
Qed.

Lemma perform_mirrored (c : call) (w : World) :
  mode (local_storage w) = Available →
  (∃ ts, tasks_list (app w) = tasks_json ts) →
  mirrored w →
  (∃ ts, tasks_list (app (perform c w)) = tasks_json ts)
  ∧ mirrored (perform c w).
Proof.
  intros Hmode [ts Hts] Hmir.
  assert (Hkey : LOCAL_STORAGE_KEY ≠ persist_name)
    by (intros H; symmetry in H; exact (persist_name_ne H)).
  destruct c as [description| |now|task_id|task_id|]; simpl.
  - assert (Hl : tasks_list (app (set_task_input_description description w).2)
                 = tasks_list (app w)).
    { rewrite set_task_input_description_app.
      destruct (mode (local_storage w)); [|done|]; destruct (truthy _); done. }
    split; [rewrite Hl; eauto|].
    apply (mirrored_same w); [exact Hl| |exact Hmir].
    apply set_task_input_description_lookup, Hkey.
  - destruct (mirrored_load_gives w Hmode (ex_intro _ ts Hts) Hmir (app w))
      as (_ & Hl & _).
    rewrite with_app_same in Hl.
    split; [rewrite Hl; eauto|].
    apply (mirrored_same w); [exact Hl|apply load_lookup, Hkey|exact Hmir].
  - destruct (add_new_task_trichotomy w) as [He|[Hlong|[Hne Hlen]]].
    + assert (Hl : tasks_list (app (add_new_task now w).2)
                   = tasks_list (app w))
        by (rewrite (add_new_task_refused_app now w empty_message)
              by (by left); reflexivity).
      split; [rewrite Hl; eauto|].
      apply (mirrored_same w); [exact Hl| |exact Hmir].
      apply add_new_task_refused_lookup; [by left|exact Hkey].
    + assert (Hl : tasks_list (app (add_new_task now w).2)
                   = tasks_list (app w))
        by (rewrite (add_new_task_refused_app now w too_long_message)
              by (by right); reflexivity).
      split; [rewrite Hl; eauto|].
      apply (mirrored_same w); [exact Hl| |exact Hmir].
      apply add_new_task_refused_lookup; [by right|exact Hkey].
    + split.
      * rewrite (add_new_task_accepted_app now w Hne Hlen). simpl.
        exists (ts ++ [ {| id := number_to_string now;
                           description := trim (task_input_description (app w));
                           completed := false |} ]).
        rewrite Hts. unfold tasks_json, new_task. rewrite map_app.
        reflexivity.
      * rewrite (add_new_task_accepted now w Hne Hlen).
        rewrite (returned_world _ true (λ w, w)).
        assert (Hsame : ∀ x : completion unit * World,
                  match x.1 with Normal _ => x.2 | Throw _ => x.2 end = x.2)
          by (intros [[]]; reflexivity).
        rewrite Hsame. apply write_through_mirrored; [exact Hmode|reflexivity].
  - rewrite (toggle_task_completion_tasks _ _ _ Hts).
    split; [rewrite write_through_app; eexists; reflexivity|].
    apply write_through_mirrored; [exact Hmode|reflexivity].
  - rewrite (delete_task_tasks _ _ _ Hts).
    split; [rewrite write_through_app; eexists; reflexivity|].
    apply write_through_mirrored; [exact Hmode|reflexivity].
  - split; [unfold clear_error_message; rewrite set_app; eauto|].
    apply (mirrored_same w); [unfold clear_error_message; by rewrite set_app
                             | |exact Hmir].
    unfold clear_error_message. apply set_lookup, Hkey.
Qed.

End Mirror.

(** X12. While the storage is available, the slot of the list stays a copy
    of the list. Take a store over an available storage whose list is a
    list of task records and whose slot holds the JSON text of the list (or
    nothing, the list being empty). After any sequence of calls the slot
    again holds the JSON text of [tasks_list] (or nothing, the list being
    empty), and a load at that point, in whatever state, brings that list. *)
Theorem slot_mirrors_list (cs : list call) (w : World) :
  mode (local_storage w) = Available →
  (∃ ts : list Task, tasks_list (app w) = tasks_json ts) →
  mirrored w →
  let w1 := perform_all cs w in
  mirrored w1 ∧ load_gives w1 (tasks_list (app w1)).
Proof.
  intros Hmode Hts Hmir w1. subst w1.
  assert (Hinv : mode (local_storage (perform_all cs w)) = Available
                 ∧ (∃ ts, tasks_list (app (perform_all cs w)) = tasks_json ts)
                 ∧ mirrored (perform_all cs w)).
  { unfold perform_all. revert w Hmode Hts Hmir.
    induction cs as [|c cs IH]; intros w Hmode Hts Hmir; simpl; [done|].
    destruct (perform_mirrored c w Hmode Hts Hmir) as [Hts' Hmir'].
    apply IH; [rewrite perform_mode; exact Hmode|exact Hts'|exact Hmir']. }
  destruct Hinv as (Hmode' & Hts' & Hmir').
  split; [exact Hmir'|]. apply mirrored_load_gives; assumption.
Qed.

Lemma slot_mirrors_list_witness :
  let cs :=
    [Call_set_task_input_description (str "Buy milk");
     Call_add_new_task 1678901234567;
     Call_toggle_task_completion (str "1678901234567")] in
  let w := initial_world empty_storage in
  let w1 := perform_all cs w in
  tasks_list (app w1)
  = tasks_json [ {| id := str "1678901234567";
                    description := str "Buy milk"; completed := true |} ]
  ∧ mirrored w1 ∧ load_gives w1 (tasks_list (app w1)).
Proof.
  split; [vm_compute; reflexivity|].
  apply (slot_mirrors_list
           [Call_set_task_input_description (str "Buy milk");
            Call_add_new_task 1678901234567;
            Call_toggle_task_completion (str "1678901234567")]
           (initial_world empty_storage)).
  - reflexivity.
  - exists []. reflexivity.
  - left. split; reflexivity.
Defined.

(** ** The schemas and the store *)

(** X15. [add_new_task] refuses an input exactly when
    [createTaskInputSchema] refuses an object whose description is the
    trimmed input: the store and the schema draw the same line, at one and
    at 256 code units. The list is left as it was exactly for the inputs
    the schema refuses; unless the storage has no room (the action then
    throws), [false] is returned exactly for them; and each of the two
    issues of the schema goes with one of the two refusals. *)
Theorem add_validation_agrees_with_schema (w : World) (now : Z) :
  let d := trim (task_input_description (app w)) in
  let refused :=
    createTaskInputSchema (JObj [(str "description", JStr d)]) = false in
  (tasks_list (app (add_new_task now w).2) = tasks_list (app w) ↔ refused)
  ∧ (mode (local_storage w) ≠ QuotaExceeded →
     ((add_new_task now w).1 = Normal false ↔ refused))
  ∧ (d = []
     ↔ description_issues d = [str "Description cannot be empty."])
  ∧ ((256 < length d)%nat
     ↔ description_issues d
       = [str "Description cannot exceed 256 characters."]).
Proof.
  intros d refused. subst refused.
  assert (Hschema : createTaskInputSchema (JObj [(str "description", JStr d)])
                    = match description_issues d with
                      | [] => true
                      | _ :: _ => false
                      end).
  { unfold createTaskInputSchema. simpl.
    destruct (description_issues d); reflexivity. }
  rewrite Hschema. unfold description_issues.
  destruct (add_new_task_trichotomy w) as [He|[Hl|[Hne Hlen]]];
    fold d in He || fold d in Hl || fold d in Hne, Hlen.
  - rewrite (add_new_task_refused_app now w empty_message) by (by left).
    rewrite add_new_task_refused_result by (by left).
    rewrite He. simpl. repeat split; try done; try (simpl; lia).
    intros _. destruct (mode (local_storage w)); done.
  - rewrite (add_new_task_refused_app now w too_long_message) by (by right).
    rewrite add_new_task_refused_result by (by right).
    destruct d as [|c r]; [simpl in Hl; lia|].
    replace (256 <? length (c :: r))%nat with true
      by (symmetry; apply Nat.ltb_lt; exact Hl).
    simpl. repeat split; try done.
    intros _. destruct (mode (local_storage w)); done.
  - rewrite (add_new_task_accepted_app now w Hne Hlen).
    rewrite (add_new_task_accepted_result now w Hne Hlen).
    destruct d as [|c r]; [contradiction|].
    replace (256 <? length (c :: r))%nat with false
      by (symmetry; apply Nat.ltb_ge; exact Hlen).
    simpl. repeat split; try done; try lia;
      try (intros H; simpl in *; lia);
      try (intros H; by apply snoc_ne in H).
    destruct (mode (local_storage w)); done.
Qed.

(** X21. Unless the storage has no room, [add_new_task] returns [false]
    exactly when the trimmed input is empty or longer than 256 code units,
    and it leaves [tasks_list] unchanged exactly then. With an empty trimmed
    input the message is [Task cannot be empty.]; with one that is too long
    it is [Task is too long (max 256 characters).]. In both cases the last
    thing done is [setTimeout(() => clear_error_message(), 3000)], after the
    write the middleware made inside [set] if it has the storage, and that
    callback removes the message. *)
Theorem add_new_task_refuses_invalid_input (w : World) (now : Z) :
  mode (local_storage w) ≠ QuotaExceeded →
  let trimmed := trim (task_input_description (app w)) in
  let r := (add_new_task now w).1 in
  let w1 := (add_new_task now w).2 in
  let invalid := trimmed = [] ∨ (256 < length trimmed)%nat in
  (r = Normal false ↔ invalid)
  ∧ (tasks_list (app w1) = tasks_list (app w) ↔ invalid)
  ∧ (trimmed = [] →
     error_message (app w1) = Some (str "Task cannot be empty."))
  ∧ ((256 < length trimmed)%nat →
     error_message (app w1)
     = Some (str "Task is too long (max 256 characters)."))
  ∧ (invalid →
     effects_of (add_new_task now) w
     = match mode (local_storage w) with
       | AccessDenied => []
       | Available | QuotaExceeded =>
           [SetItem persist_name (persist_serialize (app w))]
       end ++ [SetTimeout ClearErrorMessage 3000]
     ∧ error_message (app (run_callback ClearErrorMessage w1).2) = None).
Proof.
  intros Hmode trimmed r w1 invalid. subst r w1 invalid.
  assert (Heffects : ∀ message : jsstring,
            (trimmed = [] ∧ message = empty_message)
            ∨ ((256 < length trimmed)%nat ∧ message = too_long_message) →
            effects_of (add_new_task now) w
            = match mode (local_storage w) with
              | AccessDenied => []
              | Available | QuotaExceeded =>
                  [SetItem persist_name (persist_serialize (app w))]
              end ++ [SetTimeout ClearErrorMessage 3000]
            ∧ error_message
                (app (run_callback ClearErrorMessage (add_new_task now w).2).2)
              = None).
  { intros message Hcase. unfold effects_of.
    rewrite (add_new_task_refused now w message Hcase), returned_world.
    rewrite set_result. simpl run_callback. unfold clear_error_message.
    rewrite set_app.
    destruct (mode (local_storage w)) eqn:Hm; [|contradiction|];
      unfold record; simpl; rewrite set_trace, Hm, <- ?app_assoc,
        drop_app_length; split; reflexivity. }
  destruct (add_new_task_trichotomy w) as [He|[Hl|[Hne Hlen]]];
    fold trimmed in He || fold trimmed in Hl || fold trimmed in Hne, Hlen.
  - destruct (Heffects empty_message ltac:(by left)) as [Heff Hclear].
    rewrite (add_new_task_refused_app now w empty_message) by (by left).
    rewrite add_new_task_refused_result by (by left).
    repeat split; try done; try (by left).
    + destruct (mode (local_storage w)); done.
    + intros Hlong. rewrite He in Hlong. simpl in Hlong. lia.
  - destruct (Heffects too_long_message ltac:(by right)) as [Heff Hclear].
    rewrite (add_new_task_refused_app now w too_long_message) by (by right).
    rewrite add_new_task_refused_result by (by right).
    repeat split; try done; try (by right).
    + destruct (mode (local_storage w)); done.
    + intros He. rewrite He in Hl. simpl in Hl. lia.
  - rewrite (add_new_task_accepted_app now w Hne Hlen).
    rewrite (add_new_task_accepted_result now w Hne Hlen).
    assert (Hnot : ¬ (trimmed = [] ∨ (256 < length trimmed)%nat))
      by (intros [?|?]; [done|lia]).
    repeat split; try done; try lia; try tauto.
    + destruct (mode (local_storage w)); done.
    + simpl. intros H. by apply snoc_ne in H.
Qed.

Lemma add_new_task_refuses_invalid_input_witness :
  let w := (set_task_input_description (str "   ")
              (sample_world Available None)).2 in
  let now := 1678901236222%Z in
  let trimmed := trim (task_input_description (app w)) in
  let r := (add_new_task now w).1 in
  let w1 := (add_new_task now w).2 in
  let invalid := trimmed = [] ∨ (256 < length trimmed)%nat in
  trimmed = []
  ∧ (r = Normal false ↔ invalid)
  ∧ (tasks_list (app w1) = tasks_list (app w) ↔ invalid)
  ∧ (trimmed = [] →
     error_message (app w1) = Some (str "Task cannot be empty."))
  ∧ ((256 < length trimmed)%nat →
     error_message (app w1)
     = Some (str "Task is too long (max 256 characters)."))
  ∧ (invalid →
     effects_of (add_new_task now) w
     = match mode (local_storage w) with
       | AccessDenied => []
       | Available | QuotaExceeded =>
           [SetItem persist_name (persist_serialize (app w))]
       end ++ [SetTimeout ClearErrorMessage 3000]
     ∧ error_message (app (run_callback ClearErrorMessage w1).2) = None).
Proof.
  split; [vm_compute; reflexivity|].
  apply (add_new_task_refuses_invalid_input
           (set_task_input_description (str "   ")
              (sample_world Available None)).2
           1678901236222).
  vm_compute. discriminate.
Defined.

(** ** The page *)

Section Page.

Lemma error_screen_status (st : AppState) :
  (∃ text, UV_TaskManagement st = Error_screen text)
  ↔ app_status st ≠ initialized.
Proof.
  unfold UV_TaskManagement.
  destruct (app_status st); split; try done; try eauto.
  intros [text H]. destruct (is_loading_tasks st); discriminate.
Qed.

Lemma load_status (w : World) :
  app_status (app (load_tasks_from_local_storage w).2) = initialized →
  app_status (app w) = initialized
  ∨ (mode (local_storage w) ≠ AccessDenied
     ∧ ∃ s elems,
         items (local_storage w) !! LOCAL_STORAGE_KEY = Some s
         ∧ JSON_parse s = Some (JArr elems)).
Proof.
  destruct (mode (local_storage w)) eqn:Hmode.
  - rewrite (load_app_available _ _ Hmode eq_refl).
    destruct (items (local_storage w) !! LOCAL_STORAGE_KEY) as [[|c s]|];
      [by left| |by left].
    destruct (JSON_parse (c :: s)) as [[]|] eqn:Hp; simpl; try discriminate.
    intros _. right. split; [discriminate|eauto].
  - rewrite (load_app_quota _ Hmode). by left.
  - rewrite (load_app_denied _ Hmode). discriminate.
Qed.

End Page.

(** X16. Once the error view is on the screen, a call takes it away only if
    it is [load_tasks_from_local_storage] finding, in a readable storage, a
    slot whose text parses to an array. No other action leaves the error
    view, and neither does a load after the slot was removed. *)
Theorem error_view_left_only_by_loading_an_array (w : World) (c : call) :
  (∃ text, UV_TaskManagement (app w) = Error_screen text) →
  (∀ text, UV_TaskManagement (app (perform c w)) ≠ Error_screen text) →
  c = Call_load_tasks_from_local_storage
  ∧ mode (local_storage w) ≠ AccessDenied
  ∧ ∃ s elems,
      items (local_storage w) !! LOCAL_STORAGE_KEY = Some s
      ∧ JSON_parse s = Some (JArr elems).
Proof.
  intros Hbefore Hafter.
  apply error_screen_status in Hbefore.
  assert (Hstatus : app_status (app (perform c w)) = initialized).
  { destruct (app_status (app (perform c w))) eqn:Hs; [reflexivity|..];
      exfalso;
      (assert (Hex : ∃ text, UV_TaskManagement (app (perform c w))
                            = Error_screen text)
         by (apply error_screen_status; rewrite Hs; discriminate));
      destruct Hex as [text Htext]; exact (Hafter text Htext). }
  destruct c as [description| |now|task_id|task_id|];
    try (exfalso; apply Hbefore; rewrite <- Hstatus; symmetry;
         apply perform_keeps_status; discriminate).
  split; [reflexivity|].
  simpl in Hstatus. apply load_status in Hstatus as [Hinit|Hok];
    [contradiction|exact Hok].
Qed.

Lemma error_view_left_only_by_loading_an_array_witness :
  let w :=
    with_app
      (initial_world {| items := {[ LOCAL_STORAGE_KEY := (str "[]") ]};
                        mode := Available |})
      (merge initial_state
         [Set_app_status error;
          Set_error_message (Some (str "Corrupted data in local storage."))]) in
  let c := Call_load_tasks_from_local_storage in
  UV_TaskManagement (app w)
  = Error_screen (str "Corrupted data in local storage.")
  ∧ UV_TaskManagement (app (perform c w))
    = Task_screen [] (Some (str "Corrupted data in local storage.")) []
  ∧ c = Call_load_tasks_from_local_storage
  ∧ mode (local_storage w) ≠ AccessDenied
  ∧ ∃ s elems,
      items (local_storage w) !! LOCAL_STORAGE_KEY = Some s
      ∧ JSON_parse s = Some (JArr elems).
Proof.
  split; [reflexivity|]. split; [reflexivity|].
  apply (error_view_left_only_by_loading_an_array
           (with_app
              (initial_world
                 {| items := {[ LOCAL_STORAGE_KEY := (str "[]") ]};
                    mode := Available |})
              (merge initial_state
                 [Set_app_status error;
                  Set_error_message
                    (Some (str "Corrupted data in local storage."))]))
           Call_load_tasks_from_local_storage).
  - eexists. reflexivity.
  - intros text. vm_compute. discriminate.
Defined.

(** X17. The effect of [App]. Unless the storage has no room, it returns;
    after it the spinner is not on the screen, whatever the state and the
    storage were; and running it again changes nothing in the state. With
    no room in the storage, an effect that has to load throws at the first
    [set] of the load and leaves [is_loading_tasks] true, so that the task
    view does not come. The effect does nothing at all when the store is
    not loading and its status is [initialized]. *)
Theorem App_effect_settles (w : World) :
  let w1 := (App_effect w).2 in
  (mode (local_storage w) ≠ QuotaExceeded →
   (App_effect w).1 = Normal ()
   ∧ is_loading_tasks (app w1) = false
   ∧ UV_TaskManagement (app w1) ≠ Loading_screen
   ∧ app (App_effect w1).2 = app w1)
  ∧ (mode (local_storage w) = QuotaExceeded →
     is_loading_tasks (app w) = true ∨ app_status (app w) ≠ initialized →
     (App_effect w).1 = Throw QuotaExceededError
     ∧ is_loading_tasks (app w1) = true
     ∧ app_status (app w1) = app_status (app w)
     ∧ (∀ input alert tasks,
          UV_TaskManagement (app w1) ≠ Task_screen input alert tasks))
  ∧ (is_loading_tasks (app w) = false →
     app_status (app w) = initialized →
     App_effect w = (Normal (), w)).
Proof.
  assert (Hstep : ∀ w0 : World,
            App_effect w0
            = if is_loading_tasks (app w0)
                 || match app_status (app w0) with
                    | initialized => false
                    | _ => true
                    end
              then load_tasks_from_local_storage w0
              else (Normal (), w0)).
  { intros w0. unfold App_effect, mbind, action_bind, get.
    destruct (_ || _); reflexivity. }
  assert (Hscreen : ∀ st, is_loading_tasks st = false →
                          UV_TaskManagement st ≠ Loading_screen).
  { intros st Hst. unfold UV_TaskManagement. rewrite Hst.
    destruct (app_status st); discriminate. }
  cbv zeta. split; [|split].
  - intros Hmode.
    assert (Hload : (load_tasks_from_local_storage w).1 = Normal ()
                    ∧ is_loading_tasks
                        (app (load_tasks_from_local_storage w).2) = false
                    ∧ UV_TaskManagement
                        (app (load_tasks_from_local_storage w).2)
                      ≠ Loading_screen
                    ∧ app (App_effect (load_tasks_from_local_storage w).2).2
                      = app (load_tasks_from_local_storage w).2).
    { split; [rewrite load_result; destruct (mode (local_storage w)); done|].
      split; [apply load_ends_loading, Hmode|].
      split; [apply Hscreen, load_ends_loading, Hmode|].
      rewrite Hstep, load_ends_loading by exact Hmode. cbn [orb].
      destruct (app_status (app (load_tasks_from_local_storage w).2));
        [reflexivity|apply load_load_state..]. }
    rewrite (Hstep w).
    destruct (is_loading_tasks (app w)) eqn:Hl; cbn [orb]; [exact Hload|].
    destruct (app_status (app w)) eqn:Hs; [|exact Hload..].
    cbn [fst snd]. split; [reflexivity|]. split; [exact Hl|].
    split; [apply Hscreen, Hl|].
    rewrite Hstep, Hl, Hs. reflexivity.
  - intros Hmode Hneeds.
    assert (Hruns : App_effect w = load_tasks_from_local_storage w).
    { rewrite Hstep. destruct Hneeds as [->|Hs]; [reflexivity|].
      destruct (app_status (app w)); [contradiction|..];
        rewrite orb_true_r; reflexivity. }
    rewrite Hruns, load_result, (load_app_quota _ Hmode), Hmode.
    split; [reflexivity|]. split; [reflexivity|]. split; [reflexivity|].
    intros input alert tasks. unfold UV_TaskManagement. simpl.
    destruct (app_status (app w)); discriminate.
  - intros Hl Hs. rewrite Hstep, Hl, Hs. reflexivity.
Qed.

(** ** Runs of the store *)

(** From the empty store, loading, typing [Buy milk] and adding gives a list
    with that one task, not completed, and an empty input. *)
Example run_add_buy_milk :
  let w :=
    perform_all
      [Call_load_tasks_from_local_storage;
       Call_set_task_input_description (str "Buy milk");
       Call_add_new_task 1678901234567]
      (initial_world empty_storage) in
  tasks_list (app w)
  = tasks_json [ {| id := str "1678901234567"; description := str "Buy milk";
                    completed := false |} ]
  ∧ task_input_description (app w) = []
  ∧ has_persisted_data (app w) = true
  ∧ is_loading_tasks (app w) = false
  ∧ error_message (app w) = None.
Proof. vm_compute. repeat split. Qed.

(** Toggling a task and toggling it again. *)
Example run_toggle_twice :
  let w0 := sample_world Available None in
  let w1 := perform (Call_toggle_task_completion (str "1678901234789")) w0 in
  let w2 := perform (Call_toggle_task_completion (str "1678901234789")) w1 in
  (completed <$> sample_tasks) = [true; false]
  ∧ tasks_list (app w1) = tasks_json (toggled (str "1678901234789") <$> sample_tasks)
  ∧ (completed <$> (toggled (str "1678901234789") <$> sample_tasks)) = [true; true]
  ∧ tasks_list (app w2) = tasks_json sample_tasks.
Proof. vm_compute. repeat split. Qed.

(** An input of 257 characters is refused; when the timer fires the message
    goes away. *)
Example run_add_too_long :
  let w0 :=
    perform (Call_set_task_input_description (replicate 257 (ch "a")))
      (initial_world empty_storage) in
  let w1 := (add_new_task 1678901234567 w0).2 in
  (add_new_task 1678901234567 w0).1 = Normal false
  ∧ tasks_list (app w1) = []
  ∧ error_message (app w1) = Some (str "Task is too long (max 256 characters).")
  ∧ last (trace w1) = Some (SetTimeout ClearErrorMessage 3000)
  ∧ error_message (app (run_callback ClearErrorMessage w1).2) = None.
Proof. vm_compute. repeat split. Qed.

(** A slot that holds an object whose [tasks_list] is a string: the list is
    emptied and the status is [error]. *)
Example run_load_not_an_array :
  let content :=
    JSON_stringify (JObj [(str "tasks_list", JStr (str "not-an-array"))]) in
  let w :=
    perform Call_load_tasks_from_local_storage
      (initial_world {| items := {[ LOCAL_STORAGE_KEY := content ]};
                        mode := Available |}) in
  tasks_list (app w) = []
  ∧ app_status (app w) = error
  ∧ error_message (app w) = Some (str "Corrupted data in local storage.")
  ∧ is_loading_tasks (app w) = false.
Proof. vm_compute. repeat split. Qed.

(** With no room in the storage the first load of the page throws and the
    store stays in its loading state. *)
Example run_load_without_room :
  let w := initial_world {| items := ∅; mode := QuotaExceeded |} in
  (load_tasks_from_local_storage w).1 = Throw QuotaExceededError
  ∧ is_loading_tasks (app (load_tasks_from_local_storage w).2) = true
  ∧ UV_TaskManagement (app (load_tasks_from_local_storage w).2)
    = Loading_screen.
Proof. vm_compute. repeat split. Qed.

(** ** Numbers and property order through [JSON.parse] and [JSON.stringify] *)

(** Numbers are read as doubles and written in the shortest form that reads
    back. *)
Example run_numbers :
  JSON_stringify
  <$> JSON_parse
        (str "[1.0,1e2,-0,9007199254740993,1e-400,0.1,1e21,0.000001,1e-7,1e400]")
  = Some (str "[1,100,0,9007199254740992,0,0.1,1e+21,0.000001,1e-7,null]").
Proof. vm_compute. reflexivity. Qed.

(** A Number that rounds to zero is falsy. *)
Example run_tiny_number_is_falsy :
  truthy (Some (JNum (number_of_decimal false 1 (-400)))) = false
  ∧ truthy (Some (JNum (number_of_decimal true 0 0))) = false
  ∧ truthy (Some (JNum (number_of_decimal false 5 (-324)))) = true.
Proof. vm_compute. repeat split. Qed.

(** Array indices come first among the properties of an object, in ascending
    order. *)
Example run_property_order :
  JSON_parse
    (JSON_stringify
       (JObj [(str "b", JBool true); (str "10", JBool false);
              (str "9", JNull); (str "01", JNull)]))
  = Some (JObj [(str "9", JNull); (str "10", JBool false);
                (str "b", JBool true); (str "01", JNull)]).
Proof. vm_compute. reflexivity. Qed.
